(** * Dependency graph engine of the feature backlog

    A shallow embedding of the dependency resolver
    ([packages/api-core/src/database-utils.ts],
    [packages/api-core/src/dependency_resolver-utils.ts]) and of the
    priority- and dependency-mutating tools
    ([apps/feature-explorer/src/index.ts]), followed by the properties the
    specification states about them.

    Conventions of the embedding:
    - JavaScript numbers that hold ids, priorities, depths and counts are
      integers ([Z]); the scheduling score is an exact rational ([Q]). The
      doubles of the engine round the score, which keeps its bounds and
      the order of a list by its own scores, but can tell apart or merge
      two scores that are nearly equal.
    - A [Map] whose iteration order is never observed is a [gmap]; the
      [depths] map, whose key order is read back, is an insertion-ordered
      association list ([omap_set], [omap_get]).
    - A [Set<number>] is a [gset Z].
    - Loops whose number of iterations is not bounded by the syntax (the
      heap loop, the queue loop) take a [gas] argument and answer
      [OutOfGas] when it is exhausted.
    - A recursive function ([dfs], [can_reach], [compute_depth]) takes as
      [gas] the number of nested calls of itself that the call stack of
      the engine has room for; when a call needs one more, the engine
      raises a [RangeError] (maximum call stack size exceeded), which is
      the answer [OutOfGas] of these functions.
    - Sums of integers are exact only while they stay within the range
      that a double holds exactly; [js_add] is the sum as the engine
      rounds it. The tools are written with exact sums, which is what the
      engine computes on tables whose priorities lie within that range
      ([next_priority_js], [safe_priorities]). *)

From Stdlib Require Import ZArith QArith Lia Lqa List Permutation Sorted String.
From stdpp Require Import base gmap list sets strings sorting pretty.

Open Scope Z_scope.

(** ** Static limits ([constants.ts]) *)

Definition MAX_DEPENDENCY_DEPTH : Z := 50.
Definition MAX_DEPENDENCIES : Z := 20.

(** ** Features *)

Record Feature := {
  id : Z;
  priority : Z;
  category : string;
  name : string;
  description : string;
  steps : list string;
  passes : bool;
  in_progress : bool;
  dependencies : option (list Z)
}.

#[global] Instance Feature_eq_dec : EqDecision Feature.
Proof. solve_decision. Defined.

(** [new Feature({id, priority, passes, in_progress, dependencies})]: the
    constructor of [class Feature] with the remaining fields at their
    defaults. *)
Definition new_Feature (i p : Z) (ps ip : bool) (deps : option (list Z)) : Feature :=
  {| id := i; priority := p; category := ""; name := ""; description := "";
     steps := []; passes := ps; in_progress := ip; dependencies := deps |}.

(** [feature.dependencies || []] *)
Definition deps_of (f : Feature) : list Z := default [] (dependencies f).

(** [new Map(features.map((f) => [f.id, f]))]: later entries win. *)
Definition feature_map_of (features : list Feature) : gmap Z Feature :=
  fold_left (fun m f => <[id f := f]> m) features ∅.

(** ** Outcomes of gas-bounded computations *)

Inductive outcome (A : Type) : Type :=
| Done (a : A)
| OutOfGas
| NullDeref.
Arguments Done {A} a.
Arguments OutOfGas {A}.
Arguments NullDeref {A}.

#[global] Instance outcome_ret : MRet outcome := fun _ a => Done a.
#[global] Instance outcome_bind : MBind outcome := fun _ _ k x =>
  match x with
  | Done a => k a
  | OutOfGas => OutOfGas
  | NullDeref => NullDeref
  end.

(** ** The priority heap

    [heap-js] is an external library; the embedding keeps its contract:
    [pop] removes and returns a least element for the comparator
    [(a, b) => a.priority !== b.priority ? a.priority - b.priority : a.id - b.id]. *)

Definition heap_cmp (a b : Feature) : Z :=
  if negb (priority a =? priority b) then priority a - priority b else id a - id b.

Definition heap_push (h : list Feature) (x : Feature) : list Feature := h ++ [x].

Fixpoint heap_min (x : Feature) (h : list Feature) : Feature :=
  match h with
  | [] => x
  | y :: h' => if heap_cmp y x <? 0 then heap_min y h' else heap_min x h'
  end.

Fixpoint heap_remove (x : Feature) (h : list Feature) : list Feature :=
  match h with
  | [] => []
  | y :: h' => if decide (y = x) then h' else y :: heap_remove x h'
  end.

Definition heap_pop (h : list Feature) : option (Feature * list Feature) :=
  match h with
  | [] => None
  | y :: h' => let m := heap_min y h' in Some (m, heap_remove m h)
  end.

(** ** resolve_dependencies *)

Record DependencyResult := {
  ordered_features : list Feature;
  circular_dependencies : list (list Z);
  blocked_features : gmap Z (list Z);
  missing_dependencies : gmap Z (list Z)
}.

Record graph_state := {
  g_adjacency : gmap Z (list Z);
  g_in_degree : gmap Z Z;
  g_blocked : gmap Z (list Z);
  g_missing : gmap Z (list Z)
}.

(** Body of the inner [for (const dep_id of deps)] of the graph build. *)
Definition build_edge (feature_map : gmap Z Feature) (feature : Feature)
    (g : graph_state) (dep_id : Z) : graph_state :=
  match feature_map !! dep_id with
  | None =>
      let current_missing := default [] (g_missing g !! id feature) in
      {| g_adjacency := g_adjacency g;
         g_in_degree := g_in_degree g;
         g_blocked := g_blocked g;
         g_missing := <[id feature := current_missing ++ [dep_id]]> (g_missing g) |}
  | Some dep =>
      let adj := default [] (g_adjacency g !! dep_id) in
      {| g_adjacency := <[dep_id := adj ++ [id feature]]> (g_adjacency g);
         g_in_degree :=
           <[id feature := default 0 (g_in_degree g !! id feature) + 1]> (g_in_degree g);
         g_blocked :=
           if passes dep then g_blocked g
           else <[id feature := default [] (g_blocked g !! id feature) ++ [dep_id]]>
                  (g_blocked g);
         g_missing := g_missing g |}
  end.

Definition build_feature (feature_map : gmap Z Feature) (g : graph_state)
    (feature : Feature) : graph_state :=
  fold_left (build_edge feature_map feature) (deps_of feature) g.

Definition init_graph (features : list Feature) : graph_state :=
  {| g_adjacency := fold_left (fun m f => <[id f := []]> m) features ∅;
     g_in_degree := fold_left (fun m f => <[id f := 0]> m) features ∅;
     g_blocked := ∅;
     g_missing := ∅ |}.

Definition build_graph (features : list Feature) : graph_state :=
  fold_left (build_feature (feature_map_of features)) features (init_graph features).

(** Seeding loop: [if (in_degree.get(f.id) === 0) heap.push(f)]. *)
Definition seed_heap (in_degree : gmap Z Z) (features : list Feature) : list Feature :=
  fold_left
    (fun h f => if decide (in_degree !! id f = Some 0) then heap_push h f else h)
    features [].

Record kahn_state := {
  k_heap : list Feature;
  k_in_degree : gmap Z Z;
  k_ordered : list Feature
}.

(** Body of [for (const dependent_id of adjacency.get(current.id) || [])];
    a failed [feature_map.get(dependent_id)!] is [None]. *)
Definition relax (feature_map : gmap Z Feature)
    (acc : option (list Feature * gmap Z Z)) (dependent_id : Z)
    : option (list Feature * gmap Z Z) :=
  match acc with
  | None => None
  | Some (h, deg) =>
      let new_degree := default 0 (deg !! dependent_id) - 1 in
      let deg' := <[dependent_id := new_degree]> deg in
      if new_degree =? 0 then
        match feature_map !! dependent_id with
        | Some dep_feature => Some (heap_push h dep_feature, deg')
        | None => None
        end
      else Some (h, deg')
  end.

(** [while (heap.size() > 0) { ... }] *)
Fixpoint kahn_loop (gas : nat) (feature_map : gmap Z Feature)
    (adjacency : gmap Z (list Z)) (st : kahn_state) : outcome kahn_state :=
  match heap_pop (k_heap st) with
  | None => Done st
  | Some (current, h) =>
      match gas with
      | O => OutOfGas
      | S gas' =>
          match fold_left (relax feature_map)
                  (default [] (adjacency !! id current))
                  (Some (h, k_in_degree st)) with
          | None => NullDeref
          | Some (h', deg') =>
              kahn_loop gas' feature_map adjacency
                {| k_heap := h'; k_in_degree := deg';
                   k_ordered := k_ordered st ++ [current] |}
          end
      end
  end.

(** ** _detect_cycles *)

Record dfs_state := {
  d_visited : gset Z;
  d_rec_stack : gset Z;
  d_path : list Z;
  d_cycles : list (list Z)
}.

(** [path.indexOf(dep_id)]: the first index, or [-1]. *)
Fixpoint indexOf (x : Z) (l : list Z) : Z :=
  match l with
  | [] => -1
  | y :: l' =>
      if y =? x then 0
      else let i := indexOf x l' in if i <? 0 then -1 else i + 1
  end.

(** [path.slice(start)]: a negative [start] counts from the end. *)
Definition slice_from (start : Z) (l : list Z) : list Z :=
  if start <? 0 then drop (Z.to_nat (Z.max 0 (Z.of_nat (length l) + start))) l
  else drop (Z.to_nat start) l.

Definition dfs_enter (fid : Z) (st : dfs_state) : dfs_state :=
  {| d_visited := {[fid]} ∪ d_visited st;
     d_rec_stack := {[fid]} ∪ d_rec_stack st;
     d_path := d_path st ++ [fid];
     d_cycles := d_cycles st |}.

(** [path.pop(); rec_stack.delete(fid)] *)
Definition dfs_leave (fid : Z) (st : dfs_state) : dfs_state :=
  {| d_visited := d_visited st;
     d_rec_stack := d_rec_stack st ∖ {[fid]};
     d_path := removelast (d_path st);
     d_cycles := d_cycles st |}.

Definition dfs_report (dep_id : Z) (st : dfs_state) : dfs_state :=
  {| d_visited := d_visited st;
     d_rec_stack := d_rec_stack st;
     d_path := d_path st;
     d_cycles := d_cycles st ++ [slice_from (indexOf dep_id (d_path st)) (d_path st)] |}.

(** The [for (const dep_id of deps)] loop of [dfs(fid)], which returns
    [true] as soon as a branch does; [call] is the recursive call
    [dfs(dep_id)]. *)
Fixpoint dfs_deps (call : Z -> dfs_state -> outcome (bool * dfs_state)) (fid : Z)
    (deps : list Z) (st : dfs_state) : outcome (bool * dfs_state) :=
  match deps with
  | [] => Done (false, dfs_leave fid st)
  | dep_id :: deps' =>
      if decide (dep_id ∉ d_visited st) then
        match call dep_id st with
        | Done (true, st') => Done (true, st')
        | Done (false, st') => dfs_deps call fid deps' st'
        | OutOfGas => OutOfGas
        | NullDeref => NullDeref
        end
      else if decide (dep_id ∈ d_rec_stack st) then
        Done (true, dfs_report dep_id st)
      else dfs_deps call fid deps' st
  end.

(** The inner function [dfs(fid)]. It has no depth parameter: every
    nested call takes a frame of the call stack, and [gas] is the number
    of nested calls the stack has room for. With none left the engine
    raises a [RangeError]: the answer [OutOfGas]. *)
Fixpoint dfs (gas : nat) (feature_map : gmap Z Feature) (fid : Z) (st : dfs_state)
    : outcome (bool * dfs_state) :=
  match gas with
  | O => OutOfGas
  | S gas' =>
      let st := dfs_enter fid st in
      match feature_map !! fid with
      | None => Done (false, dfs_leave fid st)
      | Some feature => dfs_deps (dfs gas' feature_map) fid (deps_of feature) st
      end
  end.

(** [for (const f of features) if (!visited.has(f.id)) dfs(f.id)] *)
Fixpoint detect_roots (gas : nat) (feature_map : gmap Z Feature)
    (fs : list Feature) (st : dfs_state) : outcome dfs_state :=
  match fs with
  | [] => Done st
  | f :: fs' =>
      if decide (id f ∉ d_visited st) then
        r ← dfs gas feature_map (id f) st;
        detect_roots gas feature_map fs' r.2
      else detect_roots gas feature_map fs' st
  end.

(** [_detect_cycles(features)] on a call stack with room for [gas] nested
    calls of [dfs]. *)
Definition detect_cycles_gas (gas : nat) (features : list Feature)
    : outcome (list (list Z)) :=
  st ← detect_roots gas (feature_map_of features) features
         {| d_visited := ∅; d_rec_stack := ∅; d_path := []; d_cycles := [] |};
  mret (d_cycles st).

(** [_detect_cycles(features)] where the call stack is deep enough for the
    snapshot. The recursion of [dfs] only enters ids that are not yet
    visited, and only the ids of [features] have dependencies to follow,
    so a nesting of [length features + 1] calls is never exceeded (lemma
    [detect_cycles_total]); on a shallower stack the search is
    [detect_cycles_gas]. *)
Definition _detect_cycles (features : list Feature) : outcome (list (list Z)) :=
  detect_cycles_gas (S (length features)) features.

(** [ordered.includes(f)] compares object identities; on a snapshot with
    unique ids two entries are the same object exactly when they are equal. *)
Definition includes (l : list Feature) (f : Feature) : bool :=
  bool_decide (f ∈ l).

(** [resolve_dependencies(features)] where the call stack is deep enough
    for the cycle search (see [_detect_cycles]). *)
Definition resolve_dependencies (features : list Feature) : outcome DependencyResult :=
  let feature_map := feature_map_of features in
  let g := build_graph features in
  st ← kahn_loop (length features) feature_map (g_adjacency g)
         {| k_heap := seed_heap (g_in_degree g) features;
            k_in_degree := g_in_degree g;
            k_ordered := [] |};
  let ordered := k_ordered st in
  if (Z.of_nat (length ordered) <? Z.of_nat (length features)) then
    let remaining := filter (fun f => includes ordered f = false) features in
    cycles ← _detect_cycles remaining;
    mret {| ordered_features := ordered ++ remaining;
            circular_dependencies := cycles;
            blocked_features := g_blocked g;
            missing_dependencies := g_missing g |}
  else
    mret {| ordered_features := ordered;
            circular_dependencies := [];
            blocked_features := g_blocked g;
            missing_dependencies := g_missing g |}.

(** [resolve_dependencies(features)] on a call stack with room for [stack]
    nested calls of the [dfs] of [_detect_cycles]. *)
Definition resolve_dependencies_gas (stack : nat) (features : list Feature)
    : outcome DependencyResult :=
  let feature_map := feature_map_of features in
  let g := build_graph features in
  st ← kahn_loop (length features) feature_map (g_adjacency g)
         {| k_heap := seed_heap (g_in_degree g) features;
            k_in_degree := g_in_degree g;
            k_ordered := [] |};
  let ordered := k_ordered st in
  if (Z.of_nat (length ordered) <? Z.of_nat (length features)) then
    let remaining := filter (fun f => includes ordered f = false) features in
    cycles ← detect_cycles_gas stack remaining;
    mret {| ordered_features := ordered ++ remaining;
            circular_dependencies := cycles;
            blocked_features := g_blocked g;
            missing_dependencies := g_missing g |}
  else
    mret {| ordered_features := ordered;
            circular_dependencies := [];
            blocked_features := g_blocked g;
            missing_dependencies := g_missing g |}.

(** ** would_create_circular_dependency *)

(** The [for (const dep_id of deps)] loop of [can_reach]; [call] is the
    recursive call [can_reach(dep_id, depth + 1)], and the captured
    [visited] set is threaded through. *)
Fixpoint can_reach_deps (call : Z -> gset Z -> outcome (bool * gset Z))
    (deps : list Z) (visited : gset Z) : outcome (bool * gset Z) :=
  match deps with
  | [] => Done (false, visited)
  | dep_id :: deps' =>
      match call dep_id visited with
      | Done (true, v) => Done (true, v)
      | Done (false, v) => can_reach_deps call deps' v
      | OutOfGas => OutOfGas
      | NullDeref => NullDeref
      end
  end.

(** The inner function [can_reach(current_id, depth)]. *)
Fixpoint can_reach (gas : nat) (feature_map : gmap Z Feature) (source_id : Z)
    (current_id depth : Z) (visited : gset Z) : outcome (bool * gset Z) :=
  match gas with
  | O => OutOfGas
  | S gas' =>
      if depth >? MAX_DEPENDENCY_DEPTH then Done (true, visited)
      else if current_id =? source_id then Done (true, visited)
      else if decide (current_id ∈ visited) then Done (false, visited)
      else
        let visited := {[current_id]} ∪ visited in
        match feature_map !! current_id with
        | None => Done (false, visited)
        | Some current =>
            can_reach_deps
              (fun dep_id => can_reach gas' feature_map source_id dep_id (depth + 1))
              (deps_of current) visited
        end
  end.

(** Every call at a depth above [MAX_DEPENDENCY_DEPTH] returns at once, so
    the calls nest at most [MAX_DEPENDENCY_DEPTH + 2] deep. *)
Definition can_reach_gas : nat := Z.to_nat (MAX_DEPENDENCY_DEPTH + 2).

Definition would_create_circular_dependency (features : list Feature)
    (source_id target_id : Z) : outcome bool :=
  if source_id =? target_id then Done true
  else
    let feature_map := feature_map_of features in
    match feature_map !! source_id, feature_map !! target_id with
    | Some _, Some _ =>
        r ← can_reach can_reach_gas feature_map source_id target_id 0 ∅;
        mret r.1
    | _, _ => Done false
    end.

(** ** dependency_resolver-utils.ts *)

Definition build_adjacency_list (features : list Feature) : gmap Z (list Z) :=
  fold_left (fun m f => <[id f := deps_of f]> m) features ∅.

(** [Math.max(...deps.map((dep_id) => compute_depth(dep_id, graph, memo)))]
    after the first dependency: a running maximum, the shared [memo] map
    threaded through the calls; [call] is the recursive call. *)
Fixpoint max_dep_depths (call : Z -> gmap Z Z -> outcome (Z * gmap Z Z))
    (deps : list Z) (acc : Z) (memo : gmap Z Z) : outcome (Z * gmap Z Z) :=
  match deps with
  | [] => Done (acc, memo)
  | dep_id :: deps' =>
      match call dep_id memo with
      | Done (d, memo') => max_dep_depths call deps' (Z.max acc d) memo'
      | OutOfGas => OutOfGas
      | NullDeref => NullDeref
      end
  end.

(** [compute_depth(feature_id, graph, memo)]: recursive, one nested call
    per edge of the chain it follows; [gas] is the number of nested calls
    the call stack has room for, [OutOfGas] the [RangeError] of the engine
    when it needs one more. *)
Fixpoint compute_depth (gas : nat) (feature_id : Z) (graph : gmap Z (list Z))
    (memo : gmap Z Z) : outcome (Z * gmap Z Z) :=
  match gas with
  | O => OutOfGas
  | S gas' =>
      match memo !! feature_id with
      | Some d => Done (d, memo)
      | None =>
          match default [] (graph !! feature_id) with
          | [] => Done (0, <[feature_id := 0]> memo)
          | dep0 :: deps =>
              match compute_depth gas' dep0 graph memo with
              | Done (d0, memo0) =>
                  match max_dep_depths (fun dep_id => compute_depth gas' dep_id graph)
                          deps d0 memo0 with
                  | Done (max_dep_depth, memo') =>
                      let depth := 1 + max_dep_depth in
                      Done (depth, <[feature_id := depth]> memo')
                  | OutOfGas => OutOfGas
                  | NullDeref => NullDeref
                  end
              | OutOfGas => OutOfGas
              | NullDeref => NullDeref
              end
          end
      end
  end.

(** ** JavaScript helpers *)

(** [Array.prototype.sort(cmp)] is stable; [le a b] stands for
    [cmp(a, b) <= 0]. *)
Fixpoint js_insert {A} (le : A -> A -> bool) (x : A) (l : list A) : list A :=
  match l with
  | [] => [x]
  | y :: l' => if le x y then x :: y :: l' else y :: js_insert le x l'
  end.

Definition js_sort {A} (le : A -> A -> bool) (l : list A) : list A :=
  foldr (js_insert le) [] l.

(** [Math.max(...xs)]; [None] is [-Infinity], the value on no arguments. *)
Definition Math_max (xs : list Z) : option Z :=
  match xs with
  | [] => None
  | x :: xs' => Some (fold_left Z.max xs' x)
  end.

(** [m > 0] for a result of [Math.max]. *)
Definition gt0 (m : option Z) : bool :=
  match m with Some z => z >? 0 | None => false end.

(** [arr.slice(0, limit)]; a negative [limit] counts from the end. *)
Definition slice_to {A} (limit : Z) (l : list A) : list A :=
  if limit <? 0 then take (Z.to_nat (Z.max 0 (Z.of_nat (length l) + limit))) l
  else take (Z.to_nat limit) l.

(** An insertion-ordered [Map<number, number>]. *)
Definition omap := list (Z * Z).

Fixpoint omap_get (k : Z) (m : omap) : option Z :=
  match m with
  | [] => None
  | (k', v) :: m' => if k' =? k then Some v else omap_get k m'
  end.

Definition omap_has (k : Z) (m : omap) : bool :=
  match omap_get k m with Some _ => true | None => false end.

Fixpoint omap_set (k v : Z) (m : omap) : omap :=
  match m with
  | [] => [(k, v)]
  | (k', v') :: m' => if k' =? k then (k, v) :: m' else (k', v') :: omap_set k v m'
  end.

Definition omap_keys (m : omap) : list Z := m.*1.
Definition omap_values (m : omap) : list Z := m.*2.

(** ** compute_scheduling_scores *)

Definition link (f : Feature) (cp : gmap Z (list Z) * gmap Z (list Z)) (dep_id : Z)
    : gmap Z (list Z) * gmap Z (list Z) :=
  let '(children, parents) := cp in
  match children !! dep_id with
  | Some _ =>
      (alter (fun l => l ++ [id f]) dep_id children,
       alter (fun l => l ++ [dep_id]) (id f) parents)
  | None => cp
  end.

Definition build_links (features : list Feature)
    : gmap Z (list Z) * gmap Z (list Z) :=
  let empty := fold_left (fun m f => <[id f := []]> m) features ∅ in
  fold_left (fun cp f => fold_left (link f) (deps_of f) cp) features (empty, empty).

(** [while (queue.length > 0)] of the depth computation. *)
Fixpoint bfs_depths (gas : nat) (children : gmap Z (list Z))
    (queue : list (Z * Z)) (depths : omap) : outcome omap :=
  match queue with
  | [] => Done depths
  | (node_id, depth) :: queue' =>
      match gas with
      | O => OutOfGas
      | S gas' =>
          let depths' :=
            if negb (omap_has node_id depths)
               || (depth >? default 0 (omap_get node_id depths))
            then omap_set node_id depth depths else depths in
          bfs_depths gas' children
            (queue' ++ ((fun child_id => (child_id, depth + 1))
                        <$> default [] (children !! node_id)))
            depths'
      end
  end.

Definition orphan_depths (features : list Feature) (depths : omap) : omap :=
  fold_left (fun d f => if omap_has (id f) d then d else omap_set (id f) 0 d)
    features depths.

Definition count_downstream (parents : gmap Z (list Z)) (sorted_ids : list Z)
    (downstream : gmap Z Z) : gmap Z Z :=
  fold_left
    (fun ds fid =>
       fold_left
         (fun ds parent_id =>
            <[parent_id := default 0 (ds !! parent_id) + 1 + default 0 (ds !! fid)]> ds)
         (default [] (parents !! fid)) ds)
    sorted_ids downstream.

Definition score_of (depths : omap) (downstream : gmap Z Z)
    (max_depth max_downstream : option Z) (f : Feature) : Q :=
  let fid := id f in
  let unblock : Q :=
    if gt0 max_downstream
    then (inject_Z (default 0%Z (downstream !! fid)) / inject_Z (default 0%Z max_downstream))%Q
    else 0%Q in
  let depth_score : Q :=
    if gt0 max_depth
    then (1 - inject_Z (default 0%Z (omap_get fid depths)) / inject_Z (default 0%Z max_depth))%Q
    else 1%Q in
  let priority_factor : Q := ((10 - inject_Z (Z.min (priority f) 10)) / 10)%Q in
  (1000 * unblock + 100 * depth_score + 10 * priority_factor)%Q.

Definition compute_scheduling_scores (gas : nat) (features : list Feature)
    : outcome (gmap Z Q) :=
  if (length features =? 0)%nat then Done ∅
  else
    let '(children, parents) := build_links features in
    let roots :=
      (id <$> filter (fun f => (length (default [] (parents !! id f)) =? 0)%nat) features) in
    depths ← bfs_depths gas children ((fun root => (root, 0)) <$> roots) [];
    let depths := orphan_depths features depths in
    let downstream0 := fold_left (fun m f => <[id f := 0]> m) features ∅ in
    let sorted_ids :=
      js_sort (fun a b => default 0 (omap_get b depths) - default 0 (omap_get a depths) <=? 0)
        (omap_keys depths) in
    let downstream := count_downstream parents sorted_ids downstream0 in
    let max_depth := Math_max (omap_values depths) in
    let max_downstream := Math_max (map_to_list downstream).*2 in
    mret (fold_left
            (fun scores f =>
               <[id f := score_of depths downstream max_depth max_downstream f]> scores)
            features ∅).

(** ** Readiness *)

Definition passing_ids_of (features : list Feature) : gset Z :=
  list_to_set (id <$> filter (fun f => passes f = true) features).

Definition is_ready (passing_ids : gset Z) (f : Feature) : bool :=
  if passes f || in_progress f then false
  else forallb (fun dep_id => bool_decide (dep_id ∈ passing_ids)) (deps_of f).

(** The comparator of [ready.sort]. *)
Definition ready_cmp (scores : gmap Z Q) (a b : Feature) : Q :=
  let score_diff := (default 0 (scores !! id b) - default 0 (scores !! id a))%Q in
  if negb (Qeq_bool score_diff 0) then score_diff
  else
    let priority_diff := priority a - priority b in
    if negb (priority_diff =? 0) then inject_Z priority_diff
    else inject_Z (id a - id b).

Definition get_ready_features (gas : nat) (features : list Feature) (limit : Z)
    : outcome (list Feature) :=
  let passing_ids := passing_ids_of features in
  let ready := filter (fun f => is_ready passing_ids f = true) features in
  scores ← compute_scheduling_scores gas features;
  mret (slice_to limit (js_sort (fun a b => Qle_bool (ready_cmp scores a b) 0) ready)).

Definition blocking_of (passing_ids : gset Z) (f : Feature) : list Z :=
  filter (fun d => d ∉ passing_ids) (deps_of f).

(** The result entries are [{ ...f, blocked_by: blocking }]. *)
Definition get_blocked_features (features : list Feature) : list (Feature * list Z) :=
  let passing_ids := passing_ids_of features in
  fold_left
    (fun blocked f =>
       if passes f then blocked
       else
         let blocking := blocking_of passing_ids f in
         if (0 <? length blocking)%nat then blocked ++ [(f, blocking)] else blocked)
    features [].

(** ** The feature store and its tools ([index.ts])

    The [features] table is the list of its rows in rowid order; the
    [dependencies] column holds [null] or the JSON text of an id array, read
    back by [JSON.parse], so a row carries [option (list Z)] as a [Feature]
    does. [lock_held] says whether the priority lock is taken: its marker
    exists and is still younger than [LOCK_TIMEOUT] when the wait of
    [lockPriority] is over. A marker left behind is stale by then;
    [lockPriority] removes it and takes the lock, as when there is no
    marker, so such a table has [lock_held = false]. *)

Record store := {
  rows : list Feature;
  last_rowid : Z;
  lock_held : bool
}.

Inductive tool_error :=
| FeatureNotFound (feature_id : Z)
| DependencyNotFound (dependency_id : Z)
| DependenciesNotFound (missing : list Z)
| CannotSkipPassing
| SelfDependency
| MaxDependencies
| DependencyExists
| DependencyMissing
| DuplicateDependencies
| WouldCreateCycle (dep_id : Z)
| MissingFields (index : nat)
| TooManyIndices (index : nat)
| DuplicateIndices (index : nat)
| InvalidIndex (index : nat) (idx : Z)
| ForwardReference (index : nat) (idx : Z)
| LockFailed
| Failed.

Inductive response (A : Type) :=
| Ok (a : A)
| Err (e : tool_error).
Arguments Ok {A} a.
Arguments Err {A} e.

(** [lockPriority()] creates the marker exclusively. When the lock is
    taken it polls until the timeout and throws; a stale marker it removes
    and then creates its own (the case [lock_held = false]). *)
Definition lockPriority (s : store) : option store :=
  if lock_held s then None
  else Some {| rows := rows s; last_rowid := last_rowid s; lock_held := true |}.

Definition unlockPriority (s : store) : store :=
  {| rows := rows s; last_rowid := last_rowid s; lock_held := false |}.

(** [SELECT * FROM features WHERE id = ?], then [rows[0]]. *)
Definition select_by_id (s : store) (feature_id : Z) : option Feature :=
  head (filter (fun f => id f = feature_id) (rows s)).

(** [SELECT MAX(priority) as max_priority FROM features]: [NULL] on an
    empty table. *)
Definition max_priority (s : store) : option Z := Math_max (priority <$> rows s).

(** [1 + max_priority], 1 on an empty table: the exact value of
    [(maxRows[0]?.max_priority ?? 0) + 1], which is the value the engine
    computes while the priorities lie within the range of exact doubles
    (see [next_priority_js]). The tools below use it. *)
Definition next_priority (s : store) : Z := default 0 (max_priority s) + 1.

(** The integer [z] as a double: unchanged up to 2^53 in absolute value;
    above, the 53 leading bits are kept and the rest is rounded to the
    nearest, a tie to the even neighbour (integers of an [INTEGER] column
    are below 2^63, far from the overflow of a double). *)
Definition double_round (z : Z) : Z :=
  let a := Z.abs z in
  if a <=? 2 ^ 53 then z
  else
    let e := Z.log2 a - 52 in
    let q := a / 2 ^ e in
    let r := a mod 2 ^ e in
    let half := 2 ^ (e - 1) in
    let q' := if r <? half then q
              else if half <? r then q + 1
              else if Z.even q then q else q + 1 in
    Z.sgn z * (q' * 2 ^ e).

(** [x + y] on two integer-valued doubles: the exact sum, rounded. *)
Definition js_add (x y : Z) : Z := double_round (x + y).

(** [(maxRows[0]?.max_priority ?? 0) + 1] as the engine computes it: the
    maximum read into a double, then the sum on doubles. *)
Definition next_priority_js (s : store) : Z :=
  js_add (double_round (default 0 (max_priority s))) 1.

Definition update_where_id (feature_id : Z) (upd : Feature -> Feature) (s : store) : store :=
  {| rows := (fun f => if decide (id f = feature_id) then upd f else f) <$> rows s;
     last_rowid := last_rowid s;
     lock_held := lock_held s |}.

Definition set_priority (p : Z) (f : Feature) : Feature :=
  {| id := id f; priority := p; category := category f; name := name f;
     description := description f; steps := steps f; passes := passes f;
     in_progress := false; dependencies := dependencies f |}.

Definition set_dependencies (deps : option (list Z)) (f : Feature) : Feature :=
  {| id := id f; priority := priority f; category := category f; name := name f;
     description := description f; steps := steps f; passes := passes f;
     in_progress := in_progress f; dependencies := deps |}.

(** [INSERT INTO features (priority, category, name, description, steps,
    passes, in_progress, dependencies) VALUES (?, ?, ?, ?, ?, 0, 0, null)]
    on an [INTEGER PRIMARY KEY AUTOINCREMENT] id; the new row is returned
    for [last_insert_rowid()]. *)
Definition insert_feature (p : Z) (c n d : string) (st : list string) (s : store)
    : store * Feature :=
  let new_id := fold_left Z.max (id <$> rows s) (last_rowid s) + 1 in
  let row := {| id := new_id; priority := p; category := c; name := n;
                description := d; steps := st; passes := false;
                in_progress := false; dependencies := None |} in
  ({| rows := rows s ++ [row]; last_rowid := new_id; lock_held := lock_held s |}, row).

Record skip_result := {
  sk_id : Z;
  old_priority : Z;
  new_priority : Z
}.

Definition feature_skip (feature_id : Z) (s : store) : store * response skip_result :=
  match select_by_id s feature_id with
  | None => (s, Err (FeatureNotFound feature_id))
  | Some feature =>
      if passes feature then (s, Err CannotSkipPassing)
      else
        match lockPriority s with
        | None => (s, Err LockFailed)
        | Some s1 =>
            let new_priority := next_priority s1 in
            let s2 := update_where_id feature_id (set_priority new_priority) s1 in
            (unlockPriority s2,
             Ok {| sk_id := feature_id; old_priority := priority feature;
                   new_priority := new_priority |})
        end
  end.

Definition feature_create (c n d : string) (st : list string) (s : store)
    : store * response Feature :=
  match lockPriority s with
  | None => (s, Err LockFailed)
  | Some s1 =>
      let next := next_priority s1 in
      let '(s2, row) := insert_feature next c n d st s1 in
      match select_by_id s2 (id row) with
      | Some feature => (unlockPriority s2, Ok feature)
      | None => (unlockPriority s2, Err Failed)
      end
  end.

Record feature_data := {
  fd_category : string;
  fd_name : string;
  fd_description : string;
  fd_steps : list string;
  depends_on_indices : option (list Z)
}.

(** [!s] on a string. *)
Definition falsy (s : string) : bool := bool_decide (s = "").

(** The inner [for (const idx of indices)] of the first pass. *)
Fixpoint validate_indices (i : nat) (indices : list Z) : option tool_error :=
  match indices with
  | [] => None
  | idx :: rest =>
      if idx <? 0 then Some (InvalidIndex i idx)
      else if idx >=? Z.of_nat i then Some (ForwardReference i idx)
      else validate_indices i rest
  end.

(** First pass of [feature_create_bulk], from index [i] on. *)
Fixpoint validate_bulk (i : nat) (features : list feature_data) : option tool_error :=
  match features with
  | [] => None
  | fd :: rest =>
      if falsy (fd_category fd) || falsy (fd_name fd) || falsy (fd_description fd)
      then Some (MissingFields i)
      else
        let indices := default [] (depends_on_indices fd) in
        let next := validate_bulk (S i) rest in
        if (0 <? length indices)%nat then
          if Z.of_nat (length indices) >? MAX_DEPENDENCIES then Some (TooManyIndices i)
          else if negb (bool_decide (NoDup indices)) then Some (DuplicateIndices i)
          else match validate_indices i indices with
               | Some e => Some e
               | None => next
               end
        else next
  end.

(** Second pass: the row at index [i] gets [start_priority + i]. *)
Fixpoint bulk_insert (start_priority : Z) (i : nat) (features : list feature_data)
    (s : store) (created_features : list Z) : store * list Z :=
  match features with
  | [] => (s, created_features)
  | fd :: rest =>
      let '(s', row) :=
        insert_feature (start_priority + Z.of_nat i) (fd_category fd) (fd_name fd)
          (fd_description fd) (fd_steps fd) s in
      bulk_insert start_priority (S i) rest s' (created_features ++ [id row])
  end.

Definition sort_ids (l : list Z) : list Z := js_sort (fun a b => a - b <=? 0) l.

(** Third pass; validated indices are in range of [created_features]. *)
Fixpoint bulk_link (i : nat) (features : list feature_data) (created_features : list Z)
    (s : store) (deps_count : nat) : store * nat :=
  match features with
  | [] => (s, deps_count)
  | fd :: rest =>
      let indices := default [] (depends_on_indices fd) in
      if (0 <? length indices)%nat then
        let dep_ids :=
          sort_ids ((fun idx => default 0 (created_features !! Z.to_nat idx)) <$> indices) in
        let s' :=
          update_where_id (default 0 (created_features !! i))
            (set_dependencies (Some dep_ids)) s in
        bulk_link (S i) rest created_features s' (S deps_count)
      else bulk_link (S i) rest created_features s deps_count
  end.

Definition feature_create_bulk (features : list feature_data) (s : store)
    : store * response (nat * nat) :=
  match validate_bulk 0 features with
  | Some e => (s, Err e)
  | None =>
      match lockPriority s with
      | None => (s, Err LockFailed)
      | Some s1 =>
          let start_priority := next_priority s1 in
          let '(s2, created_features) := bulk_insert start_priority 0 features s1 [] in
          let '(s3, deps_count) := bulk_link 0 features created_features s2 0 in
          (unlockPriority s3, Ok (length created_features, deps_count))
      end
  end.

Definition feature_add_dependency (feature_id dependency_id : Z) (s : store)
    : store * response (list Z) :=
  if feature_id =? dependency_id then (s, Err SelfDependency)
  else
    match select_by_id s feature_id, select_by_id s dependency_id with
    | None, _ => (s, Err (FeatureNotFound feature_id))
    | Some _, None => (s, Err (DependencyNotFound dependency_id))
    | Some feature, Some _ =>
        let current_deps := deps_of feature in
        if Z.of_nat (length current_deps) >=? MAX_DEPENDENCIES then (s, Err MaxDependencies)
        else if bool_decide (dependency_id ∈ current_deps) then (s, Err DependencyExists)
        else
          match would_create_circular_dependency (rows s) feature_id dependency_id with
          | Done true => (s, Err (WouldCreateCycle dependency_id))
          | Done false =>
              let sorted_deps := sort_ids (current_deps ++ [dependency_id]) in
              (update_where_id feature_id (set_dependencies (Some sorted_deps)) s,
               Ok sorted_deps)
          | _ => (s, Err Failed)
          end
    end.

Definition feature_remove_dependency (feature_id dependency_id : Z) (s : store)
    : store * response (list Z) :=
  match select_by_id s feature_id with
  | None => (s, Err (FeatureNotFound feature_id))
  | Some feature =>
      let current_deps := deps_of feature in
      if negb (bool_decide (dependency_id ∈ current_deps)) then (s, Err DependencyMissing)
      else
        let updated_deps := filter (fun d => d ≠ dependency_id) current_deps in
        let deps_to_save :=
          if (0 <? length updated_deps)%nat then Some updated_deps else None in
        (update_where_id feature_id (set_dependencies deps_to_save) s, Ok updated_deps)
  end.

(** The [for (const dep_id of dependency_ids)] cycle check of
    [feature_set_dependencies]. *)
Fixpoint check_cycles (test_features : list Feature) (feature_id : Z)
    (dependency_ids : list Z) : option tool_error :=
  match dependency_ids with
  | [] => None
  | dep_id :: rest =>
      match would_create_circular_dependency test_features feature_id dep_id with
      | Done true => Some (WouldCreateCycle dep_id)
      | Done false => check_cycles test_features feature_id rest
      | _ => Some Failed
      end
  end.

Definition feature_set_dependencies (feature_id : Z) (dependency_ids : list Z) (s : store)
    : store * response (list Z) :=
  if bool_decide (feature_id ∈ dependency_ids) then (s, Err SelfDependency)
  else if Z.of_nat (length dependency_ids) >? MAX_DEPENDENCIES then (s, Err MaxDependencies)
  else if negb (bool_decide (NoDup dependency_ids)) then (s, Err DuplicateDependencies)
  else
    match select_by_id s feature_id with
    | None => (s, Err (FeatureNotFound feature_id))
    | Some _ =>
        let all_feature_ids : gset Z := list_to_set (id <$> rows s) in
        let missing := filter (fun d => d ∉ all_feature_ids) dependency_ids in
        if (0 <? length missing)%nat then (s, Err (DependenciesNotFound missing))
        else
          let test_features :=
            (fun f => if decide (id f = feature_id)
                      then set_dependencies (Some dependency_ids) f else f) <$> rows s in
          match check_cycles test_features feature_id dependency_ids with
          | Some e => (s, Err e)
          | None =>
              let sorted_deps :=
                if (0 <? length dependency_ids)%nat then sort_ids dependency_ids else [] in
              let deps_to_save :=
                if (0 <? length sorted_deps)%nat then Some sorted_deps else None in
              (update_where_id feature_id (set_dependencies deps_to_save) s, Ok sorted_deps)
          end
    end.

Record ready_result := {
  rr_features : list Feature;
  rr_count : Z;
  total_ready : Z
}.

(** The comparator of [feature_get_ready]. *)
Definition ready_cmp_tool (scores : gmap Z Q) (a b : Feature) : Q :=
  let scoreA := default 0%Q (scores !! id a) in
  let scoreB := default 0%Q (scores !! id b) in
  if negb (Qeq_bool scoreA scoreB) then (scoreB - scoreA)%Q
  else if negb (priority a =? priority b) then inject_Z (priority a - priority b)
  else inject_Z (id a - id b).

Definition feature_get_ready (gas : nat) (limit : Z) (s : store) : outcome ready_result :=
  let all_features := rows s in
  let passing_ids := passing_ids_of all_features in
  let ready := filter (fun f => is_ready passing_ids f = true) all_features in
  scores ← compute_scheduling_scores gas all_features;
  let ready := js_sort (fun a b => Qle_bool (ready_cmp_tool scores a b) 0) ready in
  mret {| rr_features := slice_to limit ready;
          rr_count := Z.min (Z.of_nat (length ready)) limit;
          total_ready := Z.of_nat (length ready) |}.

(** ** Runs of tools

    Sequences of tool calls against one store, used to state the
    invariants the tools keep. *)

Inductive dep_op :=
| OpAddDependency (feature_id dependency_id : Z)
| OpRemoveDependency (feature_id dependency_id : Z)
| OpSetDependencies (feature_id : Z) (dependency_ids : list Z)
| OpCreateBulk (features : list feature_data)
| OpCreate (c n d : string) (st : list string)
| OpSkip (feature_id : Z).

Definition run_op (o : dep_op) (s : store) : store :=
  match o with
  | OpAddDependency f d => (feature_add_dependency f d s).1
  | OpRemoveDependency f d => (feature_remove_dependency f d s).1
  | OpSetDependencies f ds => (feature_set_dependencies f ds s).1
  | OpCreateBulk fds => (feature_create_bulk fds s).1
  | OpCreate c n d st => (feature_create c n d st s).1
  | OpSkip f => (feature_skip f s).1
  end.

(** Every persisted dependency list is in ascending id order. *)
Definition deps_sorted (s : store) : Prop :=
  Forall (fun f => StronglySorted Z.le (deps_of f)) (rows s).

(** [m] is the greatest priority of the rows of [s]. *)
Definition is_max_priority (s : store) (m : Z) : Prop :=
  m ∈ (priority <$> rows s) ∧ Forall (fun p => p <= m) (priority <$> rows s).

(** Every priority of the table lies where the doubles of the engine hold
    the integers and their successors exactly: from -2^53 to 2^53 - 1. *)
Definition safe_priorities (s : store) : Prop :=
  Forall (fun f => - 2 ^ 53 <= priority f < 2 ^ 53) (rows s).

(** The priorities an operation assigns, in the order it assigns them. *)
Definition assigned_priorities (o : dep_op) (s : store) : list Z :=
  match o with
  | OpCreate c n d st =>
      match (feature_create c n d st s).2 with
      | Ok f => [priority f]
      | Err _ => []
      end
  | OpSkip fid =>
      match (feature_skip fid s).2 with
      | Ok r => [new_priority r]
      | Err _ => []
      end
  | OpCreateBulk fds =>
      match (feature_create_bulk fds s).2 with
      | Ok _ => (priority <$> drop (length (rows s)) (rows (feature_create_bulk fds s).1))
      | Err _ => []
      end
  | _ => []
  end.

Fixpoint run_assigned (ops : list dep_op) (s : store) : list Z :=
  match ops with
  | [] => []
  | o :: ops' => assigned_priorities o s ++ run_assigned ops' (run_op o s)
  end.

(** The second pass of [feature_create_bulk] with the maximum read again
    before every insertion. *)
Fixpoint bulk_insert_rereading (features : list feature_data) (s : store)
    (created_features : list Z) : store * list Z :=
  match features with
  | [] => (s, created_features)
  | fd :: rest =>
      let '(s', row) :=
        insert_feature (next_priority s) (fd_category fd) (fd_name fd)
          (fd_description fd) (fd_steps fd) s in
      bulk_insert_rereading rest s' (created_features ++ [id row])
  end.

(** The store after [create_database] on a fresh file. *)
Definition empty_store : store := {| rows := []; last_rowid := 0; lock_held := false |}.

Definition run_ops (ops : list dep_op) (s : store) : store :=
  fold_left (fun s o => run_op o s) ops s.

(** ** Checks on one feature *)

(** A call that returns a value or throws [new Error(message)]. *)
Inductive js_result (A : Type) : Type :=
| Returned (a : A)
| Thrown (message : string).
Arguments Returned {A} a.
Arguments Thrown {A} message.

(** [are_dependencies_satisfied(feature, passing_ids?)]; [None] is an
    omitted [passing_ids]. *)
Definition are_dependencies_satisfied (feature : Feature) (passing_ids : option (gset Z))
    : js_result bool :=
  let deps := deps_of feature in
  if (length deps =? 0)%nat then Returned true
  else
    match passing_ids with
    | None => Thrown "are_dependencies_satisfied requires passing_ids parameter"
    | Some passing_ids =>
        Returned (forallb (fun dep_id => bool_decide (dep_id ∈ passing_ids)) deps)
    end.

(** [get_blocking_dependencies(feature, passing_ids?)] *)
Definition get_blocking_dependencies (feature : Feature) (passing_ids : option (gset Z))
    : js_result (list Z) :=
  let deps := deps_of feature in
  match passing_ids with
  | None => Thrown "get_blocking_dependencies requires passing_ids parameter"
  | Some passing_ids => Returned (filter (fun dep_id => dep_id ∉ passing_ids) deps)
  end.

(** [validate_dependencies(feature_id, dependency_ids, all_feature_ids)];
    ids print as decimal integers. *)
Definition validate_dependencies (feature_id : Z) (dependency_ids : list Z)
    (all_feature_ids : gset Z) : bool * string :=
  if Z.of_nat (length dependency_ids) >? MAX_DEPENDENCIES then
    (false, "Maximum " +:+ pretty MAX_DEPENDENCIES +:+ " dependencies allowed")
  else if bool_decide (feature_id ∈ dependency_ids) then
    (false, "A feature cannot depend on itself")
  else
    let missing := filter (fun d => d ∉ all_feature_ids) dependency_ids in
    if (0 <? length missing)%nat then
      (false, "Dependencies not found: " +:+ String.concat ", " (pretty <$> missing))
    else if negb (length dependency_ids =? size (list_to_set dependency_ids : gset Z))%nat
    then (false, "Duplicate dependencies not allowed")
    else (true, "").

(** ** build_graph_data *)

Record graph_node := {
  node_id : Z;
  node_name : string;
  node_category : string;
  node_status : string;
  node_priority : Z;
  node_dependencies : list Z
}.

Record graph_edge := {
  source : Z;
  target : Z
}.

Record graph_data := {
  nodes : list graph_node;
  edges : list graph_edge
}.

(** The [status] of the node of [f]. *)
Definition status_of (passing_ids : gset Z) (f : Feature) : string :=
  let deps := deps_of f in
  let blocking := filter (fun d => d ∉ passing_ids) deps in
  if passes f then "done"
  else if (0 <? length blocking)%nat then "blocked"
  else if in_progress f then "in_progress"
  else "pending".

Definition build_graph_data (features : list Feature) : graph_data :=
  let passing_ids := passing_ids_of features in
  fold_left
    (fun g f =>
       let deps := deps_of f in
       {| nodes :=
            nodes g ++ [ {| node_id := id f; node_name := name f;
                            node_category := category f;
                            node_status := status_of passing_ids f;
                            node_priority := priority f;
                            node_dependencies := deps |} ];
          edges := edges g ++ ((fun dep_id => {| source := dep_id; target := id f |}) <$> deps) |})
    features {| nodes := []; edges := [] |}.

(** ** build_reverse_adjacency *)

(** [if (reverse.has(dep_id)) reverse.get(dep_id)!.push(feature.id)] *)
Definition add_dependent (feature : Feature) (reverse : gmap Z (list Z)) (dep_id : Z)
    : gmap Z (list Z) :=
  match reverse !! dep_id with
  | Some _ => alter (fun l => l ++ [id feature]) dep_id reverse
  | None => reverse
  end.

Definition build_reverse_adjacency (features : list Feature) : gmap Z (list Z) :=
  let reverse := fold_left (fun m f => <[id f := []]> m) features ∅ in
  fold_left (fun reverse feature => fold_left (add_dependent feature) (deps_of feature) reverse)
    features reverse.

(** ** The views of the explorer ([index.ts]) *)

Inductive view :=
| pending
| completed.

(** [getCurrentFeatures()], with [state.features.values()], [state.scores]
    and [state.currentView] as arguments. *)
Definition getCurrentFeatures (features : list Feature) (scores : gmap Z Q)
    (currentView : view) : list Feature :=
  match currentView with
  | pending =>
      let pending := filter (fun f => passes f = false) features in
      js_sort
        (fun a b =>
           Qle_bool (default 0%Q (scores !! id b) - default 0%Q (scores !! id a)) 0)
        pending
  | completed =>
      let completed := filter (fun f => passes f = true) features in
      js_sort
        (fun a b =>
           let priorityDiff := priority a - priority b in
           (if negb (priorityDiff =? 0) then priorityDiff else id a - id b) <=? 0)
        completed
  end.

(** ** The status tools ([index.ts]) *)

Inductive status_error :=
| NotFound (feature_id : Z)
| AlreadyPassing (feature_id : Z)
| AlreadyInProgress (feature_id : Z)
| StatusFailed.

Inductive reply (A : Type) :=
| Reply (a : A)
| Refused (e : status_error).
Arguments Reply {A} a.
Arguments Refused {A} e.

(** [UPDATE features SET passes = ?, in_progress = ? WHERE id = ?] *)
Definition set_status (p ip : bool) (f : Feature) : Feature :=
  {| id := id f; priority := priority f; category := category f; name := name f;
     description := description f; steps := steps f; passes := p;
     in_progress := ip; dependencies := dependencies f |}.

(** [UPDATE features SET in_progress = ? WHERE id = ?] *)
Definition set_in_progress (ip : bool) (f : Feature) : Feature :=
  {| id := id f; priority := priority f; category := category f; name := name f;
     description := description f; steps := steps f; passes := passes f;
     in_progress := ip; dependencies := dependencies f |}.

Definition feature_get_by_id (feature_id : Z) (s : store) : reply Feature :=
  match select_by_id s feature_id with
  | None => Refused (NotFound feature_id)
  | Some row => Reply row
  end.

Record feature_summary := {
  sum_id : Z;
  sum_name : string;
  sum_passes : bool;
  sum_in_progress : bool;
  sum_dependencies : list Z
}.

Definition feature_get_summary (feature_id : Z) (s : store) : reply feature_summary :=
  match select_by_id s feature_id with
  | None => Refused (NotFound feature_id)
  | Some row =>
      Reply {| sum_id := id row; sum_name := name row; sum_passes := passes row;
               sum_in_progress := in_progress row; sum_dependencies := deps_of row |}
  end.

(** The second [SELECT * FROM features WHERE id = ?] of a tool, whose first
    row is read without a check. *)
Definition fetch_updated (feature_id : Z) (s : store) : reply Feature :=
  match select_by_id s feature_id with
  | Some updated => Reply updated
  | None => Refused StatusFailed
  end.

Definition feature_mark_passing (feature_id : Z) (s : store)
    : store * reply (Z * string) :=
  match select_by_id s feature_id with
  | None => (s, Refused (NotFound feature_id))
  | Some row =>
      (update_where_id feature_id (set_status true false) s,
       Reply (feature_id, name row))
  end.

Definition feature_mark_failing (feature_id : Z) (s : store) : store * reply Feature :=
  match select_by_id s feature_id with
  | None => (s, Refused (NotFound feature_id))
  | Some _ =>
      let s' := update_where_id feature_id (set_status false false) s in
      (s', fetch_updated feature_id s')
  end.

Definition feature_mark_in_progress (feature_id : Z) (s : store) : store * reply Feature :=
  match select_by_id s feature_id with
  | None => (s, Refused (NotFound feature_id))
  | Some feature =>
      if passes feature then (s, Refused (AlreadyPassing feature_id))
      else if in_progress feature then (s, Refused (AlreadyInProgress feature_id))
      else
        let s' := update_where_id feature_id (set_in_progress true) s in
        (s', fetch_updated feature_id s')
  end.

(** The reply carries the feature and [already_claimed]. *)
Definition feature_claim_and_get (feature_id : Z) (s : store)
    : store * reply (Feature * bool) :=
  match select_by_id s feature_id with
  | None => (s, Refused (NotFound feature_id))
  | Some feature =>
      if passes feature then (s, Refused (AlreadyPassing feature_id))
      else
        let already_claimed := in_progress feature in
        let s' :=
          if negb already_claimed
          then update_where_id feature_id (set_in_progress true) s else s in
        (s', match fetch_updated feature_id s' with
             | Reply updated => Reply (updated, already_claimed)
             | Refused e => Refused e
             end)
  end.

Definition feature_clear_in_progress (feature_id : Z) (s : store)
    : store * reply Feature :=
  match select_by_id s feature_id with
  | None => (s, Refused (NotFound feature_id))
  | Some _ =>
      let s' := update_where_id feature_id (set_in_progress false) s in
      (s', fetch_updated feature_id s')
  end.

Record blocked_result := {
  br_features : list (Feature * list Z);
  br_count : Z;
  total_blocked : Z
}.

Definition feature_get_blocked (limit : Z) (s : store) : blocked_result :=
  let all_features := rows s in
  let passing_ids := passing_ids_of all_features in
  let blocked :=
    fold_left
      (fun blocked f =>
         if passes f then blocked
         else
           let blocking := filter (fun d => d ∉ passing_ids) (deps_of f) in
           if (0 <? length blocking)%nat then blocked ++ [(f, blocking)] else blocked)
      all_features [] in
  {| br_features := slice_to limit blocked;
     br_count := Z.min (Z.of_nat (length blocked)) limit;
     total_blocked := Z.of_nat (length blocked) |}.

Definition feature_get_graph (s : store) : graph_data :=
  let all_features := rows s in
  let passing_ids := passing_ids_of all_features in
  fold_left
    (fun g f =>
       let deps := deps_of f in
       {| nodes :=
            nodes g ++ [ {| node_id := id f; node_name := name f;
                            node_category := category f;
                            node_status := status_of passing_ids f;
                            node_priority := priority f;
                            node_dependencies := deps |} ];
          edges := edges g ++ ((fun dep_id => {| source := dep_id; target := id f |}) <$> deps) |})
    all_features {| nodes := []; edges := [] |}.

(** ** Runs of all the tools that write *)

Inductive tool_call :=
| CallMarkPassing (feature_id : Z)
| CallMarkFailing (feature_id : Z)
| CallSkip (feature_id : Z)
| CallMarkInProgress (feature_id : Z)
| CallClaimAndGet (feature_id : Z)
| CallClearInProgress (feature_id : Z)
| CallCreateBulk (features : list feature_data)
| CallCreate (c n d : string) (st : list string)
| CallAddDependency (feature_id dependency_id : Z)
| CallRemoveDependency (feature_id dependency_id : Z)
| CallSetDependencies (feature_id : Z) (dependency_ids : list Z).

(** The table after the call. *)
Definition run_call (c : tool_call) (s : store) : store :=
  match c with
  | CallMarkPassing f => (feature_mark_passing f s).1
  | CallMarkFailing f => (feature_mark_failing f s).1
  | CallSkip f => (feature_skip f s).1
  | CallMarkInProgress f => (feature_mark_in_progress f s).1
  | CallClaimAndGet f => (feature_claim_and_get f s).1
  | CallClearInProgress f => (feature_clear_in_progress f s).1
  | CallCreateBulk fds => (feature_create_bulk fds s).1
  | CallCreate c n d st => (feature_create c n d st s).1
  | CallAddDependency f d => (feature_add_dependency f d s).1
  | CallRemoveDependency f d => (feature_remove_dependency f d s).1
  | CallSetDependencies f ds => (feature_set_dependencies f ds s).1
  end.

(** Whether the call was refused. *)
Definition refused (c : tool_call) (s : store) : bool :=
  match c with
  | CallMarkPassing f => if (feature_mark_passing f s).2 is Refused _ then true else false
  | CallMarkFailing f => if (feature_mark_failing f s).2 is Refused _ then true else false
  | CallSkip f => if (feature_skip f s).2 is Err _ then true else false
  | CallMarkInProgress f =>
      if (feature_mark_in_progress f s).2 is Refused _ then true else false
  | CallClaimAndGet f => if (feature_claim_and_get f s).2 is Refused _ then true else false
  | CallClearInProgress f =>
      if (feature_clear_in_progress f s).2 is Refused _ then true else false
  | CallCreateBulk fds => if (feature_create_bulk fds s).2 is Err _ then true else false
  | CallCreate c n d st => if (feature_create c n d st s).2 is Err _ then true else false
  | CallAddDependency f d => if (feature_add_dependency f d s).2 is Err _ then true else false
  | CallRemoveDependency f d =>
      if (feature_remove_dependency f d s).2 is Err _ then true else false
  | CallSetDependencies f ds =>
      if (feature_set_dependencies f ds s).2 is Err _ then true else false
  end.

Definition run_calls (calls : list tool_call) (s : store) : store :=
  fold_left (fun s c => run_call c s) calls s.

(** ** Notions used in the statements *)




(** [a] depends on [b]: [b] is listed in the dependencies of the feature
    with id [a]. *)
Definition dep_edge (fm : gmap Z Feature) (a b : Z) : Prop :=
  exists f, fm !! a = Some f ∧ b ∈ deps_of f.

(** [b] can be reached from [a] along dependency edges. *)
Definition reaches (fm : gmap Z Feature) (a b : Z) : Prop := rtc (dep_edge fm) a b.

(** A dependency chain of [n] edges starts at [a]. *)
Definition chain_from (fm : gmap Z Feature) (n : nat) (a : Z) : Prop :=
  exists b, nsteps (dep_edge fm) n a b.

(** When the search answers [false] it has not been cut short: every node
    it added to [visited] differs from the source and has all its
    dependencies in [visited]. *)
Definition explored (fm : gmap Z Feature) (src : Z) (v v' : gset Z) : Prop :=
  v ⊆ v'
  ∧ forall x, x ∈ v' -> x ∉ v -> x ≠ src ∧ forall y, dep_edge fm x y -> y ∈ v'.

(** The number of ids of the feature map that the search has not visited. *)
Definition unvisited (fm : gmap Z Feature) (st : dfs_state) : nat :=
  size (dom fm ∖ d_visited st).

(** [in_degree.get(x) || 0], [adjacency.get(x) || []] and the number of
    occurrences of [x] in [l]. *)
Definition degz (deg : gmap Z Z) (x : Z) : Z := default 0 (deg !! x).
Definition adjz (adj : gmap Z (list Z)) (x : Z) : list Z := default [] (adj !! x).
Definition cnt (x : Z) (l : list Z) : nat := length (filter (fun y => y = x) l).

(** [d] is the id of a feature that is not passing. *)
Definition blocksb (fm : gmap Z Feature) (d : Z) : bool :=
  match fm !! d with
  | Some dep => negb (passes dep)
  | None => false
  end.

(** [blocked.get(x) || []] *)
Definition blockedz (m : gmap Z (list Z)) (x : Z) : list Z := default [] (m !! x).

(** The dependencies of [f] that are ids of the snapshot and not yet in
    the output [pre]. *)
Definition unprocessed_deps (features pre : list Feature) (f : Feature) : list Z :=
  filter (fun d => d ∈ (id <$> features) ∧ d ∉ (id <$> pre)) (deps_of f).

(** At every position of [l], the feature there has all its in-snapshot
    dependencies before it, and is least for the heap order among the
    features not yet output whose in-snapshot dependencies are all output. *)
Definition greedy (features l : list Feature) : Prop :=
  forall pre c post, l = pre ++ c :: post ->
    unprocessed_deps features pre c = []
    ∧ forall f, f ∈ features -> f ∉ pre -> unprocessed_deps features pre f = [] ->
        heap_cmp c f <= 0.

(** The invariant of the heap loop of [resolve_dependencies] on a snapshot
    with unique ids. *)
Record kahn_inv (features : list Feature) (st : kahn_state) : Prop := {
  inv_sub : forall f, f ∈ k_ordered st ++ k_heap st -> f ∈ features;
  inv_nodup : NoDup (id <$> (k_ordered st ++ k_heap st));
  inv_deg : forall f, f ∈ features ->
    degz (k_in_degree st) (id f)
    = Z.of_nat (length (unprocessed_deps features (k_ordered st) f));
  inv_zero : forall f, f ∈ features ->
    (f ∈ k_ordered st ++ k_heap st <-> degz (k_in_degree st) (id f) = 0);
  inv_greedy : greedy features (k_ordered st)
}.

(** The features [resolve_dependencies] leaves to the end. *)
Definition residual (features sorted : list Feature) : list Feature :=
  filter (fun f => f ∉ sorted) features.

(** The ids of [ordered_features], when the call returns. *)
Definition ordered_ids (o : outcome DependencyResult) : option (list Z) :=
  match o with
  | Done r => Some (id <$> ordered_features r)
  | _ => None
  end.

(** No feature depends on itself through a chain of dependencies. *)
Definition acyclic (features : list Feature) : Prop :=
  forall x, ¬ tc (dep_edge (feature_map_of features)) x x.


(** [a] comes no later than [b] in the order of the ready list: higher
    score first, then lower priority number, then lower id. *)
Definition ready_before (scores : gmap Z Q) (a b : Feature) : Prop :=
  let sa := default 0%Q (scores !! id a) in
  let sb := default 0%Q (scores !! id b) in
  (sb < sa)%Q
  ∨ ((sa == sb)%Q
     ∧ (priority a < priority b ∨ (priority a = priority b ∧ id a <= id b))).

(** What the tools keep true of every row: a positive id and priority, a
    dependency list without duplicates, of at most [MAX_DEPENDENCIES] ids,
    in ascending order and never stored empty, and no feature both passing
    and in progress. *)
Definition row_ok (f : Feature) : Prop :=
  0 < id f ∧ 0 < priority f
  ∧ NoDup (deps_of f)
  ∧ Z.of_nat (length (deps_of f)) <= MAX_DEPENDENCIES
  ∧ StronglySorted Z.le (deps_of f)
  ∧ dependencies f ≠ Some []
  ∧ (passes f = true -> in_progress f = false).

(** What the tools keep true of the table: every row is [row_ok], ids are
    unique and at most the last rowid, priorities are distinct, every
    dependency is the id of a row, and the dependency graph has no cycle. *)
Record table_ok (s : store) : Prop := {
  ok_rows : Forall row_ok (rows s);
  ok_ids : NoDup (id <$> rows s);
  ok_last : 0 <= last_rowid s;
  ok_rowid : Forall (fun f => id f <= last_rowid s) (rows s);
  ok_priorities : NoDup (priority <$> rows s);
  ok_deps_exist :
    Forall (fun f => Forall (fun d => d ∈ id <$> rows s) (deps_of f)) (rows s);
  ok_acyclic : acyclic (rows s)
}.

(** [b] is listed under [a] in the adjacency map. *)
Definition adj_edge (graph : gmap Z (list Z)) (a b : Z) : Prop := b ∈ adjz graph a.

(** [d] is the number of edges of a longest path that starts at [x]. *)
Definition longest_path (graph : gmap Z (list Z)) (x d : Z) : Prop :=
  exists n : nat,
    d = Z.of_nat n
    ∧ (exists b, nsteps (adj_edge graph) n x b)
    ∧ forall m b, nsteps (adj_edge graph) m x b -> (m <= n)%nat.

(** Every entry of the memo is the length of a longest path. *)
Definition memo_ok (graph : gmap Z (list Z)) (memo : gmap Z Z) : Prop :=
  forall x d, memo !! x = Some d -> longest_path graph x d.

(** The ids whose search is over: visited and no longer on the stack. *)
Definition finished (st : dfs_state) : gset Z := d_visited st ∖ d_rec_stack st.

(** The finished ids are closed under dependency edges and lie on no cycle. *)
Definition finished_ok (fm : gmap Z Feature) (st : dfs_state) : Prop :=
  forall x, x ∈ finished st ->
    (forall y, dep_edge fm x y -> y ∈ finished st) ∧ ¬ tc (dep_edge fm) x x.

(** The node [build_graph_data] makes of a feature. *)
Definition node_of (passing_ids : gset Z) (f : Feature) : graph_node :=
  {| node_id := id f; node_name := name f; node_category := category f;
     node_status := status_of passing_ids f; node_priority := priority f;
     node_dependencies := deps_of f |}.

(** ** Sample snapshots and stores *)

Definition missing_dep_feature : Feature := new_Feature 3 1 false false (Some [999]).

Definition sample_store : store :=
  {| rows := [new_Feature 1 1 false false None; new_Feature 2 2 false false None;
              new_Feature 3 3 false false (Some [2])];
     last_rowid := 3; lock_held := false |}.

Definition sample_batch : list feature_data :=
  [ {| fd_category := "core"; fd_name := "a"; fd_description := "first";
       fd_steps := []; depends_on_indices := None |};
    {| fd_category := "core"; fd_name := "b"; fd_description := "second";
       fd_steps := []; depends_on_indices := Some [0] |} ].


Definition scores_snapshot : list Feature :=
  [new_Feature 1 1 false false None; new_Feature 2 2 false false (Some [1]);
   new_Feature 3 3 false false (Some [1; 2])].



Definition rooted_cycle_snapshot : list Feature :=
  [new_Feature 1 1 false false None; new_Feature 2 2 false false (Some [1; 3]);
   new_Feature 3 3 false false (Some [2])].

Definition two_cycle_snapshot : list Feature :=
  [new_Feature 1 1 false false (Some [2]); new_Feature 2 2 false false (Some [1])].

(** A chain [1 -> 2 -> ... -> n] of dependencies. *)
Definition chain_snapshot (n : Z) : list Feature :=
  ((fun i => new_Feature i i false false (Some [i + 1])) <$> seqZ 1 (n - 1))
  ++ [new_Feature n n false false None].

(** A ring [1 -> 2 -> ... -> n -> 1] of dependencies. *)
Definition ring_snapshot (n : Z) : list Feature :=
  ((fun i => new_Feature i i false false (Some [i + 1])) <$> seqZ 1 (n - 1))
  ++ [new_Feature n n false false (Some [1])].

(** A table whose one row has priority 2^53. *)
Definition large_priority_store : store :=
  {| rows := [new_Feature 1 (2 ^ 53) false false None];
     last_rowid := 1; lock_held := false |}.




Definition independent_snapshot : list Feature :=
  [new_Feature 1 1 false false None; new_Feature 2 2 false false (Some [1])].

Definition cyclic_snapshot : list Feature :=
  [new_Feature 1 1 false false (Some [2]); new_Feature 2 2 false false (Some [3]);
   new_Feature 3 3 false false (Some [1]); new_Feature 4 4 false false None].

Definition priority_snapshot : list Feature :=
  [new_Feature 1 10 false false None; new_Feature 2 5 false false None;
   new_Feature 3 1 false false None].

(** * Properties *)

(** ** Sorting *)

Lemma js_insert_perm {A} (le : A -> A -> bool) x l :
  js_insert le x l ≡ₚ x :: l.
Proof.
  induction l as [|y l IH]; simpl; [done|].
  destruct (le x y); [done|]. rewrite IH. apply Permutation_swap.
Qed.

Lemma js_sort_perm {A} (le : A -> A -> bool) l : js_sort le l ≡ₚ l.
Proof.
  induction l as [|x l IH]; simpl; [done|].
  rewrite js_insert_perm. by f_equiv.
Qed.

Lemma js_insert_sorted x l :
  StronglySorted Z.le l ->
  StronglySorted Z.le (js_insert (fun a b => a - b <=? 0) x l).
Proof.
  induction 1 as [|y l Hs IH Hall]; simpl.
  - repeat constructor.
  - destruct (Z.leb_spec (x - y) 0).
    + constructor; [by constructor|].
      constructor; [lia|]. eapply Forall_impl; [exact Hall|]. intros; simpl in *; lia.
    + constructor; [exact IH|].
      rewrite js_insert_perm. constructor; [lia|exact Hall].
Qed.

Lemma sort_ids_sorted l : StronglySorted Z.le (sort_ids l).
Proof.
  unfold sort_ids, js_sort. induction l as [|x l IH]; simpl; [constructor|].
  by apply js_insert_sorted.
Qed.

Lemma filter_sorted (P : Z -> Prop) `{!∀ x, Decision (P x)} l :
  StronglySorted Z.le l -> StronglySorted Z.le (filter P l).
Proof.
  induction 1 as [|y l Hs IH Hall]; [constructor|].
  rewrite filter_cons. destruct (decide (P y)); [|done].
  constructor; [done|]. apply Forall_forall. intros z Hz.
  apply list_elem_of_filter in Hz as [_ Hz]. by eapply Forall_forall in Hall.
Qed.

(** ** Stores *)

#[local] Arguments insert_feature : simpl never.
#[local] Arguments update_where_id : simpl never.
#[local] Arguments next_priority : simpl never.

Lemma update_where_id_sorted fid deps s :
  StronglySorted Z.le (default [] deps) ->
  deps_sorted s -> deps_sorted (update_where_id fid (set_dependencies deps) s).
Proof.
  unfold deps_sorted, update_where_id; simpl. intros Hd Hs.
  apply Forall_fmap. eapply Forall_impl; [exact Hs|].
  intros f Hf; simpl. destruct (decide (id f = fid)); [exact Hd|exact Hf].
Qed.

Lemma update_priority_sorted fid p s :
  deps_sorted s -> deps_sorted (update_where_id fid (set_priority p) s).
Proof.
  unfold deps_sorted, update_where_id; simpl. intros Hs.
  apply Forall_fmap. eapply Forall_impl; [exact Hs|].
  intros f Hf; simpl. by destruct (decide (id f = fid)).
Qed.

Lemma insert_feature_sorted p c n d st s :
  deps_sorted s -> deps_sorted (insert_feature p c n d st s).1.
Proof.
  unfold deps_sorted, insert_feature; simpl. intros Hs.
  apply Forall_app; split; [exact Hs|]. repeat constructor.
Qed.

Lemma lockPriority_rows s s1 : lockPriority s = Some s1 -> rows s1 = rows s.
Proof. unfold lockPriority. destruct (lock_held s); [done|]. by intros [= <-]. Qed.

Lemma bulk_insert_sorted start fds : forall i s created,
  deps_sorted s -> deps_sorted (bulk_insert start i fds s created).1.
Proof.
  induction fds as [|fd fds IH]; intros i s created Hs; simpl; [done|].
  apply IH. by apply (insert_feature_sorted _ _ _ _ _ s).
Qed.

Lemma bulk_link_sorted fds created : forall i s n,
  deps_sorted s -> deps_sorted (bulk_link i fds created s n).1.
Proof.
  induction fds as [|fd fds IH]; intros i s n Hs; simpl; [done|].
  destruct (0 <? length (default [] (depends_on_indices fd)))%nat.
  - apply IH. apply update_where_id_sorted; [|done]. apply sort_ids_sorted.
  - by apply IH.
Qed.

(** ** [Math.max] *)

Lemma fold_max_spec xs : forall x,
  let m := fold_left Z.max xs x in
  m ∈ x :: xs ∧ Forall (fun y => y <= m) (x :: xs).
Proof.
  induction xs as [|y xs IH]; intros x; simpl.
  - split; [apply list_elem_of_here|]. repeat constructor. lia.
  - destruct (IH (Z.max x y)) as [Hin Hall].
    apply Forall_cons in Hall as [Hm Hall]. split.
    + apply elem_of_cons in Hin as [Heq|Hin].
      * rewrite Heq. destruct (Z.max_spec x y) as [[_ ->]|[_ ->]].
        -- apply list_elem_of_further, list_elem_of_here.
        -- apply list_elem_of_here.
      * by do 2 apply list_elem_of_further.
    + constructor; [lia|]. constructor; [lia|done].
Qed.

Lemma Math_max_Some xs m :
  Math_max xs = Some m <-> m ∈ xs ∧ Forall (fun y => y <= m) xs.
Proof.
  destruct xs as [|x xs]; simpl.
  - split; [done|]. intros [H _]. by apply elem_of_nil in H.
  - pose proof (fold_max_spec xs x) as [Hin Hall]. simpl in *. split.
    + by intros [= <-].
    + intros [Hin' Hall']. f_equal.
      eapply Forall_forall in Hall; [|exact Hin'].
      eapply Forall_forall in Hall'; [|exact Hin]. lia.
Qed.

Lemma Math_max_nonempty xs : xs ≠ [] -> is_Some (Math_max xs).
Proof. destruct xs; [done|]. by eexists. Qed.

(** ** The priority counter *)

Lemma next_priority_above s :
  Forall (fun q => q < next_priority s) (priority <$> rows s).
Proof.
  unfold next_priority, max_priority.
  destruct (Math_max (priority <$> rows s)) as [m|] eqn:E; simpl.
  - apply Math_max_Some in E as [_ Hall].
    eapply Forall_impl; [exact Hall|]. intros; simpl in *; lia.
  - destruct (priority <$> rows s); [constructor|done].
Qed.

Lemma next_priority_of_max s m :
  m ∈ (priority <$> rows s) -> Forall (fun p => p <= m) (priority <$> rows s) ->
  next_priority s = 1 + m.
Proof.
  intros Hin Hall. unfold next_priority, max_priority.
  assert (Math_max (priority <$> rows s) = Some m) as -> by by apply Math_max_Some.
  simpl. lia.
Qed.

Lemma next_priority_empty s : rows s = [] -> next_priority s = 1.
Proof. unfold next_priority, max_priority. by intros ->. Qed.

Lemma next_priority_lock s s1 : lockPriority s = Some s1 -> next_priority s1 = next_priority s.
Proof. intros H. unfold next_priority, max_priority. by rewrite (lockPriority_rows _ _ H). Qed.

Lemma next_priority_unlock s : next_priority (unlockPriority s) = next_priority s.
Proof. done. Qed.

Lemma next_priority_ext s s' : rows s = rows s' -> next_priority s = next_priority s'.
Proof. unfold next_priority, max_priority. by intros ->. Qed.

Lemma next_priority_insert p c n d st s :
  next_priority s <= p -> next_priority (insert_feature p c n d st s).1 = p + 1.
Proof.
  intros Hp. replace (p + 1) with (1 + p) by lia.
  pose proof (next_priority_above s) as Hab.
  apply next_priority_of_max; simpl; rewrite map_app; simpl.
  - apply elem_of_app. right. apply list_elem_of_here.
  - apply Forall_app. split.
    + eapply Forall_impl; [exact Hab|]. intros; simpl in *; lia.
    + repeat constructor. lia.
Qed.

Lemma select_by_id_Some s fid f :
  select_by_id s fid = Some f -> f ∈ rows s ∧ id f = fid.
Proof.
  unfold select_by_id. intros H. apply head_Some_elem_of in H.
  apply list_elem_of_filter in H. tauto.
Qed.

Lemma next_priority_skip fid s f :
  select_by_id s fid = Some f ->
  next_priority (update_where_id fid (set_priority (next_priority s)) s)
  = next_priority s + 1.
Proof.
  intros Hsel. apply select_by_id_Some in Hsel as [Hin Hid].
  pose proof (next_priority_above s) as Hab.
  replace (next_priority s + 1) with (1 + next_priority s) by lia.
  apply next_priority_of_max; simpl; rewrite <- list_fmap_compose.
  - apply list_elem_of_fmap. exists f. split; [|done].
    simpl. by rewrite decide_True.
  - apply Forall_fmap. apply Forall_fmap in Hab.
    eapply Forall_impl; [exact Hab|]. intros g Hg; simpl in *.
    destruct (decide (id g = fid)); simpl; lia.
Qed.

Lemma bulk_insert_rereads fds : forall i s created start,
  start + Z.of_nat i = next_priority s ->
  bulk_insert start i fds s created = bulk_insert_rereading fds s created.
Proof.
  induction fds as [|fd fds IH]; intros i s created start Hst;
    cbn [bulk_insert bulk_insert_rereading]; [done|].
  rewrite Hst.
  destruct (insert_feature (next_priority s) (fd_category fd) (fd_name fd)
              (fd_description fd) (fd_steps fd) s) as [s' row] eqn:E.
  apply IH.
  pose proof (next_priority_insert (next_priority s) (fd_category fd) (fd_name fd)
                (fd_description fd) (fd_steps fd) s ltac:(lia)) as Hn.
  rewrite E in Hn. simpl in Hn. lia.
Qed.

Lemma next_priority_set_dependencies fid deps s :
  next_priority (update_where_id fid (set_dependencies deps) s) = next_priority s.
Proof.
  unfold next_priority, max_priority, update_where_id; simpl.
  rewrite <- list_fmap_compose. do 3 f_equal.
  apply list_fmap_ext. intros _ f _; simpl. by destruct (decide (id f = fid)).
Qed.

Lemma fold_max_ge xs : forall x, x <= fold_left Z.max xs x.
Proof. intros x. pose proof (fold_max_spec xs x) as [_ H]. by apply Forall_cons in H as [H _]. Qed.

Lemma insert_feature_fresh p c n d st s :
  Forall (fun f => id f < id (insert_feature p c n d st s).2) (rows s).
Proof.
  unfold insert_feature; simpl.
  pose proof (fold_max_spec (id <$> rows s) (last_rowid s)) as [_ H].
  apply Forall_cons in H as [_ H]. rewrite Forall_fmap in H.
  eapply Forall_impl; [exact H|]. intros; simpl in *; lia.
Qed.

Lemma select_inserted p c n d st s :
  select_by_id (insert_feature p c n d st s).1 (id (insert_feature p c n d st s).2)
  = Some (insert_feature p c n d st s).2.
Proof.
  pose proof (insert_feature_fresh p c n d st s) as Hfresh.
  unfold select_by_id.
  assert (rows (insert_feature p c n d st s).1
          = rows s ++ [(insert_feature p c n d st s).2]) as -> by done.
  rewrite filter_app.
  assert (filter (fun f => id f = id (insert_feature p c n d st s).2) (rows s) = []) as ->.
  { induction Hfresh as [|f l Hf Hl IH]; [done|].
    rewrite filter_cons_False by lia. exact IH. }
  simpl. rewrite filter_cons_True by done. done.
Qed.

Lemma bulk_insert_rows fds : forall i s created start,
  start + Z.of_nat i = next_priority s ->
  let s' := (bulk_insert start i fds s created).1 in
  exists new,
    rows s' = rows s ++ new
    ∧ (priority <$> new) = seqZ (next_priority s) (Z.of_nat (length fds))
    ∧ next_priority s' = next_priority s + Z.of_nat (length fds).
Proof.
  induction fds as [|fd fds IH]; intros i s created start Hst;
    cbn [bulk_insert length].
  - exists []. rewrite app_nil_r. repeat split; simpl; lia.
  - pose proof (next_priority_insert (start + Z.of_nat i) (fd_category fd) (fd_name fd)
                  (fd_description fd) (fd_steps fd) s ltac:(lia)) as Hn.
    destruct (insert_feature (start + Z.of_nat i) (fd_category fd) (fd_name fd)
                (fd_description fd) (fd_steps fd) s) as [s1 row] eqn:E.
    assert (rows s1 = rows s ++ [row] ∧ priority row = start + Z.of_nat i) as [Hr Hp].
    { unfold insert_feature in E. by injection E as <- <-. }
    simpl in Hn.
    destruct (IH (S i) s1 (created ++ [id row]) start ltac:(lia)) as (new & H1 & H2 & H3).
    exists (row :: new). rewrite fmap_cons, H1, Hr, <- app_assoc. split; [done|].
    split.
    + rewrite H2, Hn, Hp, Hst.
      rewrite (seqZ_cons (next_priority s)) by lia. do 2 f_equal; lia.
    + rewrite H3. lia.
Qed.

Lemma bulk_link_priorities fds created : forall i s n,
  (priority <$> rows (bulk_link i fds created s n).1) = (priority <$> rows s).
Proof.
  induction fds as [|fd fds IH]; intros i s n; cbn [bulk_link]; [done|].
  destruct (0 <? length (default [] (depends_on_indices fd)))%nat; rewrite IH; [|done].
  unfold update_where_id; simpl. rewrite <- list_fmap_compose.
  apply list_fmap_ext. intros _ f _; simpl.
  by destruct (decide (id f = default 0 (created !! i))).
Qed.

Lemma next_priority_priorities s s' :
  (priority <$> rows s) = (priority <$> rows s') -> next_priority s = next_priority s'.
Proof. unfold next_priority, max_priority. by intros ->. Qed.

Lemma seqZ_sorted m n : StronglySorted Z.lt (seqZ m n).
Proof.
  destruct (Z.le_gt_cases n 0) as [H|H]; [rewrite seqZ_nil by done; constructor|].
  rewrite <- (Z2Nat.id n) by lia. generalize (Z.to_nat n) as k. clear. intros k. revert m.
  induction k as [|k IH]; intros m; [rewrite seqZ_nil by done; constructor|].
  rewrite seqZ_cons by lia. replace (Z.pred (Z.of_nat (S k))) with (Z.of_nat k) by lia.
  constructor; [apply IH|]. apply Forall_seqZ. lia.
Qed.

(** What one operation does to the counter: it never moves back, and the
    priorities the operation hands out are consecutive values between the
    counter before and the counter after. *)
Lemma op_assigned o s :
  next_priority s <= next_priority (run_op o s)
  ∧ StronglySorted Z.lt (assigned_priorities o s)
  ∧ Forall (fun p => next_priority s <= p < next_priority (run_op o s))
      (assigned_priorities o s).
Proof.
  assert (Hnil : forall s', next_priority s <= next_priority s' ->
    next_priority s <= next_priority s'
    ∧ StronglySorted Z.lt []
    ∧ Forall (fun p => next_priority s <= p < next_priority s') []).
  { intros. repeat split; [done|constructor|constructor]. }
  destruct o as [f d|f d|f ds|fds|c n d st|f]; simpl.
  - apply Hnil. unfold feature_add_dependency.
    repeat case_match; simpl; rewrite ?next_priority_set_dependencies; lia.
  - apply Hnil. unfold feature_remove_dependency.
    repeat case_match; simpl; rewrite ?next_priority_set_dependencies; lia.
  - apply Hnil. unfold feature_set_dependencies.
    repeat case_match; simpl; rewrite ?next_priority_set_dependencies; lia.
  - unfold feature_create_bulk.
    destruct (validate_bulk 0 fds); [by apply Hnil|].
    destruct (lockPriority s) as [s1|] eqn:Hl; [|by apply Hnil].
    pose proof (next_priority_lock _ _ Hl) as Hn1.
    pose proof (lockPriority_rows _ _ Hl) as Hr1.
    destruct (bulk_insert_rows fds 0 s1 [] (next_priority s1) ltac:(lia))
      as (new & H1 & H2 & H3).
    destruct (bulk_insert (next_priority s1) 0 fds s1 []) as [s2 created] eqn:E2.
    pose proof (bulk_link_priorities fds created 0 s2 0%nat) as H4.
    destruct (bulk_link 0 fds created s2 0) as [s3 cnt] eqn:E3.
    simpl in *.
    assert ((priority <$> drop (length (rows s)) (rows s3))
            = seqZ (next_priority s) (Z.of_nat (length fds))) as ->.
    { rewrite fmap_drop, H4, H1, fmap_app, H2, Hr1, Hn1.
      rewrite <- (length_fmap priority (rows s)). by rewrite drop_app_length. }
    rewrite (next_priority_priorities (unlockPriority s3) s2) by done.
    rewrite H3, Hn1. split; [lia|]. split; [apply seqZ_sorted|].
    apply Forall_seqZ. lia.
  - unfold feature_create.
    destruct (lockPriority s) as [s1|] eqn:Hl; [|by apply Hnil].
    pose proof (next_priority_lock _ _ Hl) as Hn1.
    pose proof (select_inserted (next_priority s1) c n d st s1) as Hsel.
    pose proof (next_priority_insert (next_priority s1) c n d st s1 ltac:(lia)) as Hn.
    destruct (insert_feature (next_priority s1) c n d st s1) as [s2 row] eqn:E.
    simpl in *. rewrite Hsel. simpl.
    assert (priority row = next_priority s1) as ->.
    { unfold insert_feature in E. by injection E as <- <-. }
    rewrite (next_priority_ext (unlockPriority s2) s2) by done.
    rewrite Hn, Hn1. split; [lia|]. split; repeat constructor; lia.
  - unfold feature_skip.
    destruct (select_by_id s f) as [feature|] eqn:Hsel; [|by apply Hnil].
    destruct (passes feature); [by apply Hnil|].
    destruct (lockPriority s) as [s1|] eqn:Hl; [|by apply Hnil].
    pose proof (next_priority_lock _ _ Hl) as Hn1. simpl.
    assert (select_by_id s1 f = Some feature) as Hsel1.
    { unfold select_by_id. by rewrite (lockPriority_rows _ _ Hl). }
    rewrite (next_priority_ext (unlockPriority _)
               (update_where_id f (set_priority (next_priority s1)) s1)) by done.
    rewrite (next_priority_skip _ _ _ Hsel1), Hn1.
    split; [lia|]. split; repeat constructor; lia.
Qed.

Lemma run_assigned_bounds ops : forall s,
  StronglySorted Z.lt (run_assigned ops s)
  ∧ Forall (fun p => next_priority s <= p) (run_assigned ops s).
Proof.
  induction ops as [|o ops IH]; intros s; simpl; [split; constructor|].
  destruct (op_assigned o s) as (Hmono & Hsorted & Hrange).
  destruct (IH (run_op o s)) as [IHs IHb]. split.
  - apply StronglySorted_app. split; [|by split].
    intros x1 x2 Hx1 Hx2.
    eapply Forall_forall in Hrange; [|exact Hx1].
    eapply Forall_forall in IHb; [|exact Hx2]. simpl in *. lia.
  - apply Forall_app; split.
    + eapply Forall_impl; [exact Hrange|]. intros; simpl in *; lia.
    + eapply Forall_impl; [exact IHb|]. intros; simpl in *; lia.
Qed.

Lemma run_op_sorted o s : deps_sorted s -> deps_sorted (run_op o s).
Proof.
  intros Hs. destruct o as [f d|f d|f ds|fds|c n d st|f]; simpl.
  - unfold feature_add_dependency. repeat case_match; simpl; try done.
    apply update_where_id_sorted; [|done]. apply sort_ids_sorted.
  - unfold feature_remove_dependency.
    destruct (select_by_id s f) as [feature|] eqn:Hsel; [|done].
    case_match; simpl; [done|].
    apply update_where_id_sorted; [|done].
    apply select_by_id_Some in Hsel as [Hin _].
    eapply Forall_forall in Hs; [|exact Hin].
    case_match; simpl; [|constructor]. by apply filter_sorted.
  - unfold feature_set_dependencies. repeat case_match; simpl; try done;
      (apply update_where_id_sorted; [|done]); simpl;
      try apply sort_ids_sorted; constructor.
  - unfold feature_create_bulk.
    destruct (validate_bulk 0 fds); [done|].
    destruct (lockPriority s) as [s1|] eqn:Hl; [|done].
    assert (deps_sorted s1) as Hs1.
    { unfold deps_sorted. by rewrite (lockPriority_rows _ _ Hl). }
    pose proof (bulk_insert_sorted (next_priority s1) fds 0 s1 [] Hs1) as H2.
    destruct (bulk_insert (next_priority s1) 0 fds s1 []) as [s2 created].
    pose proof (bulk_link_sorted fds created 0 s2 0%nat H2) as H3.
    by destruct (bulk_link 0 fds created s2 0) as [s3 cnt].
  - unfold feature_create.
    destruct (lockPriority s) as [s1|] eqn:Hl; [|done].
    assert (deps_sorted s1) as Hs1.
    { unfold deps_sorted. by rewrite (lockPriority_rows _ _ Hl). }
    pose proof (insert_feature_sorted (next_priority s1) c n d st s1 Hs1) as H2.
    destruct (insert_feature (next_priority s1) c n d st s1) as [s2 row].
    by case_match.
  - unfold feature_skip. repeat case_match; simpl; try done.
    apply update_priority_sorted.
    unfold deps_sorted. by erewrite lockPriority_rows.
Qed.

(** C10: every dependency-mutating tool keeps the invariant that each
    persisted dependency list is sorted in ascending id order:
    [feature_add_dependency], [feature_set_dependencies] and
    [feature_create_bulk] write sorted lists, [feature_remove_dependency]
    filters a sorted list (and [feature_create], [feature_skip] leave the
    lists alone); hence any run of tools from the empty store keeps it. *)
Theorem dependency_lists_stay_sorted :
  (forall o s, deps_sorted s -> deps_sorted (run_op o s))
  ∧ (forall ops, deps_sorted (run_ops ops empty_store)).
Proof.
  split; [exact run_op_sorted|].
  intros ops. unfold run_ops.
  assert (deps_sorted empty_store) as H by constructor.
  revert H. generalize empty_store.
  induction ops as [|o ops IH]; intros s Hs; simpl; [done|].
  apply IH. by apply run_op_sorted.
Qed.

Lemma dependency_lists_stay_sorted_witness :
  deps_sorted sample_store
  ∧ deps_sorted (run_op (OpAddDependency 3 1) sample_store)
  ∧ dependencies <$> rows (run_op (OpAddDependency 3 1) sample_store)
    = [None; None; Some [1; 2]].
Proof.
  assert (deps_sorted sample_store) as H.
  { repeat constructor. }
  split; [exact H|]. split; [|reflexivity].
  exact (proj1 dependency_lists_stay_sorted (OpAddDependency 3 1) sample_store H).
Defined.

Lemma create_in_rows c n d st s s' f :
  feature_create c n d st s = (s', Ok f) -> priority f = next_priority s ∧ f ∈ rows s'.
Proof.
  unfold feature_create.
  destruct (lockPriority s) as [s1|] eqn:Hl; [|done].
  pose proof (select_inserted (next_priority s1) c n d st s1) as Hsel.
  destruct (insert_feature (next_priority s1) c n d st s1) as [s2 row] eqn:E.
  simpl in Hsel. rewrite Hsel. intros [= <- <-].
  unfold insert_feature in E. injection E as <- <-. simpl. split.
  - by apply next_priority_lock.
  - apply elem_of_app. right. apply list_elem_of_here.
Qed.

Lemma skip_sets_priority fid s s' r :
  feature_skip fid s = (s', Ok r) ->
  new_priority r = next_priority s
  ∧ forall f, f ∈ rows s' -> id f = fid -> priority f = new_priority r.
Proof.
  unfold feature_skip.
  destruct (select_by_id s fid) as [feature|]; [|done].
  destruct (passes feature); [done|].
  destruct (lockPriority s) as [s1|] eqn:Hl; [|done].
  intros [= <- <-]. simpl. split; [by apply next_priority_lock|].
  intros f Hf Hid. unfold update_where_id in Hf. simpl in Hf.
  apply list_elem_of_fmap in Hf as (g & -> & Hg).
  destruct (decide (id g = fid)) as [|Hne]; [done|]. by destruct Hne.
Qed.

Lemma bulk_assigns fds s s' r :
  feature_create_bulk fds s = (s', Ok r) ->
  exists s1, lockPriority s = Some s1
    ∧ bulk_insert (next_priority s) 0 fds s1 [] = bulk_insert_rereading fds s1 []
    ∧ priority <$> drop (length (rows s)) (rows s')
      = seqZ (next_priority s) (Z.of_nat (length fds)).
Proof.
  unfold feature_create_bulk.
  destruct (validate_bulk 0 fds); [done|].
  destruct (lockPriority s) as [s1|] eqn:Hl; [|done].
  pose proof (next_priority_lock _ _ Hl) as Hn1.
  pose proof (lockPriority_rows _ _ Hl) as Hr1.
  destruct (bulk_insert_rows fds 0 s1 [] (next_priority s1) ltac:(lia))
    as (new & H1 & H2 & H3).
  destruct (bulk_insert (next_priority s1) 0 fds s1 []) as [s2 created] eqn:E2.
  pose proof (bulk_link_priorities fds created 0 s2 0%nat) as H4.
  destruct (bulk_link 0 fds created s2 0) as [s3 cnt] eqn:E3.
  intros [= <- <-]. exists s1. split; [done|]. split.
  - rewrite <- Hn1. apply bulk_insert_rereads. lia.
  - simpl in *. rewrite fmap_drop, H4, H1, fmap_app, H2, Hr1, Hn1.
    rewrite <- (length_fmap priority (rows s)). by rewrite drop_app_length.
Qed.

Lemma double_round_exact z : - 2 ^ 53 <= z <= 2 ^ 53 -> double_round z = z.
Proof.
  intros Hz. unfold double_round.
  destruct (Z.leb_spec (Z.abs z) (2 ^ 53)); [done|lia].
Qed.

Lemma max_priority_safe s m :
  safe_priorities s -> max_priority s = Some m -> - 2 ^ 53 <= m < 2 ^ 53.
Proof.
  intros Hs Hm. apply Math_max_Some in Hm as [Hin _].
  apply list_elem_of_fmap in Hin as (f & -> & Hf).
  exact (proj1 (Forall_forall _ _) Hs f Hf).
Qed.

Lemma next_priority_js_exact s :
  safe_priorities s -> next_priority_js s = next_priority s.
Proof.
  intros Hs. unfold next_priority_js, next_priority, js_add.
  destruct (max_priority s) as [m|] eqn:E; simpl.
  - pose proof (max_priority_safe s m Hs E).
    rewrite (double_round_exact m) by lia. apply double_round_exact. lia.
  - reflexivity.
Qed.

Lemma next_priority_safe s :
  safe_priorities s -> - 2 ^ 53 < next_priority s <= 2 ^ 53.
Proof.
  intros Hs. unfold next_priority.
  destruct (max_priority s) as [m|] eqn:E; simpl.
  - pose proof (max_priority_safe s m Hs E). lia.
  - change (2 ^ 53) with 9007199254740992. lia.
Qed.

Lemma js_add_seqZ start len :
  - 2 ^ 53 <= start -> start + len - 1 <= 2 ^ 53 ->
  (fun i => js_add start i) <$> seqZ 0 len = seqZ start len.
Proof.
  intros Hlo Hhi.
  replace (seqZ start len) with (Z.add start <$> seqZ 0 len)
    by (rewrite fmap_add_seqZ; f_equal; lia).
  apply Forall_fmap_ext, Forall_forall. intros i Hi.
  apply elem_of_seqZ in Hi. unfold js_add. apply double_round_exact. lia.
Qed.

(** C9, as the code has it: the priority counter on tables whose
    priorities lie between -2^53 and 2^53 - 1, where the sums of the
    engine are exact. There the value read by every priority-assigning
    tool, [(max ?? 0) + 1] on doubles, is 1 + the greatest priority in the
    store (1 on an empty store); [feature_create] and [feature_skip]
    assign exactly that value; every insertion of [feature_create_bulk]
    gets the value a fresh read would give at that moment, the rows it
    adds carrying the sums [start_priority + i], as long as these stay up
    to 2^53; and along any run of tools against one store whose assigned
    priorities stay up to 2^53 they are strictly increasing and above
    every priority the store held at the start. *)
Theorem priority_counter_invariant :
  (forall s,
     safe_priorities s ->
     next_priority_js s = next_priority s
     ∧ (rows s = [] -> next_priority_js s = 1)
     ∧ (forall m, is_max_priority s m -> next_priority_js s = 1 + m))
  ∧ (forall c n d st s s' f,
       safe_priorities s ->
       feature_create c n d st s = (s', Ok f) ->
       priority f = next_priority_js s ∧ f ∈ rows s')
  ∧ (forall fid s s' r,
       safe_priorities s ->
       feature_skip fid s = (s', Ok r) ->
       new_priority r = next_priority_js s
       ∧ forall f, f ∈ rows s' -> id f = fid -> priority f = new_priority r)
  ∧ (forall fds s s' r,
       safe_priorities s ->
       next_priority s + Z.of_nat (length fds) - 1 <= 2 ^ 53 ->
       feature_create_bulk fds s = (s', Ok r) ->
       exists s1, lockPriority s = Some s1
         ∧ bulk_insert (next_priority s) 0 fds s1 [] = bulk_insert_rereading fds s1 []
         ∧ priority <$> drop (length (rows s)) (rows s')
           = (fun i => js_add (next_priority_js s) i) <$> seqZ 0 (Z.of_nat (length fds)))
  ∧ (forall ops s,
       safe_priorities s ->
       Forall (fun p => p <= 2 ^ 53) (run_assigned ops s) ->
       StronglySorted Z.lt (run_assigned ops s)
       ∧ Forall (fun p => Forall (fun q => q < p) (priority <$> rows s))
           (run_assigned ops s)).
Proof.
  split.
  { intros s Hs. rewrite (next_priority_js_exact s Hs).
    split; [done|]. split; [apply next_priority_empty|].
    intros m [Hin Hall]. by apply next_priority_of_max. }
  split.
  { intros c n d st s s' f Hs. rewrite (next_priority_js_exact s Hs).
    apply create_in_rows. }
  split.
  { intros fid s s' r Hs. rewrite (next_priority_js_exact s Hs).
    apply skip_sets_priority. }
  split.
  { intros fds s s' r Hs Hlen Hrun.
    destruct (bulk_assigns fds s s' r Hrun) as (s1 & Hl & Hre & Hp).
    exists s1. split; [done|]. split; [done|].
    rewrite (next_priority_js_exact s Hs), Hp. symmetry.
    pose proof (next_priority_safe s Hs). apply js_add_seqZ; lia. }
  intros ops s _ _. destruct (run_assigned_bounds ops s) as [Hs Hb].
  split; [exact Hs|].
  eapply Forall_impl; [exact Hb|]. intros p Hp; simpl in Hp.
  eapply Forall_impl; [apply next_priority_above|]. intros q Hq; simpl in Hq. lia.
Qed.

Lemma priority_counter_invariant_witness :
  safe_priorities sample_store
  ∧ feature_skip 1 sample_store
    = ((feature_skip 1 sample_store).1,
       Ok {| sk_id := 1; old_priority := 1; new_priority := 4 |})
  ∧ next_priority_js sample_store = 4
  ∧ priority <$> drop 3 (rows (feature_create_bulk sample_batch
                                 sample_store).1) = [4; 5]
  ∧ run_assigned [OpSkip 1; OpCreateBulk sample_batch; OpCreate "x" "y" "z" []]
      sample_store = [4; 5; 6; 7].
Proof.
  destruct priority_counter_invariant as (_ & _ & Hskip & Hbulk & _).
  assert (safe_priorities sample_store) as Hs.
  { unfold safe_priorities, sample_store. simpl.
    change (2 ^ 53) with 9007199254740992. repeat constructor; simpl; lia. }
  assert (feature_skip 1 sample_store
          = ((feature_skip 1 sample_store).1,
             Ok {| sk_id := 1; old_priority := 1; new_priority := 4 |}))
    as E1 by reflexivity.
  assert (feature_create_bulk sample_batch sample_store
          = ((feature_create_bulk sample_batch sample_store).1,
             Ok (2%nat, 1%nat))) as E2 by reflexivity.
  assert (next_priority sample_store + Z.of_nat (length sample_batch) - 1 <= 2 ^ 53)
    as Hlen.
  { change (2 ^ 53) with 9007199254740992. vm_compute. discriminate. }
  split; [exact Hs|].
  split; [exact E1|]. split; [symmetry; exact (proj1 (Hskip _ _ _ _ Hs E1))|].
  split; [|reflexivity].
  destruct (Hbulk _ _ _ _ Hs Hlen E2) as (s1 & _ & _ & H). exact H.
Defined.

(** C9 as stated fails where the doubles of the engine stop being exact:
    on a table whose greatest priority is 2^53, the sum
    [(max ?? 0) + 1] is 2^53 again, not 1 + the maximum, so the next
    feature gets a priority that is already taken. *)
Lemma priority_counter_double_counterexample :
  is_max_priority large_priority_store (2 ^ 53)
  ∧ next_priority_js large_priority_store = 2 ^ 53
  ∧ next_priority_js large_priority_store ≠ 1 + 2 ^ 53
  ∧ next_priority_js large_priority_store ∈ priority <$> rows large_priority_store.
Proof.
  assert (next_priority_js large_priority_store = 2 ^ 53) as E by (vm_compute; reflexivity).
  split.
  { split; [apply list_elem_of_here|]. repeat constructor. simpl. lia. }
  split; [exact E|]. split; [rewrite E; lia|].
  rewrite E. apply list_elem_of_here.
Qed.

(** ** Readiness *)

Lemma elem_of_passing_ids features d :
  d ∈ passing_ids_of features <-> exists g, g ∈ features ∧ id g = d ∧ passes g = true.
Proof.
  unfold passing_ids_of. rewrite elem_of_list_to_set, list_elem_of_fmap.
  split.
  - intros (g & -> & Hg). apply list_elem_of_filter in Hg as [Hp Hg]. by exists g.
  - intros (g & Hg & <- & Hp). exists g. split; [done|].
    by apply list_elem_of_filter.
Qed.








(** ** Blockers reported by [get_blocked_features] *)

Lemma get_blocked_fold (P : gset Z) features : forall acc,
  fold_left
    (fun blocked f =>
       if passes f then blocked
       else
         let blocking := blocking_of P f in
         if (0 <? length blocking)%nat then blocked ++ [(f, blocking)] else blocked)
    features acc
  = acc ++ ((fun f => (f, blocking_of P f))
            <$> filter (fun f => passes f = false ∧ blocking_of P f ≠ []) features).
Proof.
  induction features as [|f fs IH]; intros acc; cbn [fold_left];
    [by rewrite filter_nil, app_nil_r|].
  rewrite IH, filter_cons. destruct (passes f) eqn:Hp.
  - rewrite decide_False by (by intros [? _]). done.
  - destruct (blocking_of P f) as [|b bl] eqn:Hb; cbn [length Nat.ltb Nat.leb].
    + rewrite decide_False by (by intros [_ ?]). done.
    + rewrite decide_True by done. by rewrite fmap_cons, <- app_assoc, Hb.
Qed.

Lemma get_blocked_features_eq features :
  get_blocked_features features
  = (fun f => (f, blocking_of (passing_ids_of features) f))
    <$> filter (fun f => passes f = false
                         ∧ blocking_of (passing_ids_of features) f ≠ []) features.
Proof. unfold get_blocked_features. by rewrite get_blocked_fold. Qed.

Lemma elem_of_blocking_of features f d :
  d ∈ blocking_of (passing_ids_of features) f
  <-> d ∈ deps_of f ∧ ¬ exists g, g ∈ features ∧ id g = d ∧ passes g = true.
Proof.
  unfold blocking_of. rewrite list_elem_of_filter, elem_of_passing_ids. tauto.
Qed.

(** ** Scheduling scores *)















(** ** Divergence on cycles *)

Lemma bfs_depths_rooted_cycle gas : forall node_id depth depths,
  node_id = 1 ∨ node_id = 2 ∨ node_id = 3 ->
  bfs_depths gas (build_links rooted_cycle_snapshot).1 [(node_id, depth)] depths = OutOfGas.
Proof.
  induction gas as [|gas IH]; intros node_id depth depths Hn; [done|].
  cbn [bfs_depths].
  destruct Hn as [-> | [-> | ->]].
  - change (default [] ((build_links rooted_cycle_snapshot).1 !! 1)) with [2].
    apply IH. auto.
  - change (default [] ((build_links rooted_cycle_snapshot).1 !! 2)) with [3].
    apply IH. auto.
  - change (default [] ((build_links rooted_cycle_snapshot).1 !! 3)) with [2].
    apply IH. auto.
Qed.

Lemma compute_depth_two_cycle gas : forall feature_id,
  feature_id = 1 ∨ feature_id = 2 ->
  compute_depth gas feature_id (build_adjacency_list two_cycle_snapshot) ∅ = OutOfGas.
Proof.
  induction gas as [|gas IH]; intros feature_id Hf; [done|].
  cbn [compute_depth]. rewrite lookup_empty.
  destruct Hf as [->| ->].
  - change (default [] (build_adjacency_list two_cycle_snapshot !! 1)) with [2].
    cbv iota beta. rewrite IH by auto. done.
  - change (default [] (build_adjacency_list two_cycle_snapshot !! 2)) with [1].
    cbv iota beta. rewrite IH by auto. done.
Qed.

(** C2 fails on the code: on a snapshot where a feature without
    dependencies leads into a dependency cycle, the queue loop of
    [compute_scheduling_scores] re-enqueues the nodes of the cycle for ever
    (whatever the gas, the loop has not finished), and so does
    [get_ready_features], which calls it; [compute_depth] recurses for ever
    on a two-node cycle because the memo entry of a node is only written
    after its dependencies return. *)
Theorem scheduling_scores_diverge_on_cycle :
  (forall gas, compute_scheduling_scores gas rooted_cycle_snapshot = OutOfGas)
  ∧ (forall gas limit, get_ready_features gas rooted_cycle_snapshot limit = OutOfGas)
  ∧ (forall gas,
       compute_depth gas 1 (build_adjacency_list two_cycle_snapshot) ∅ = OutOfGas).
Proof.
  assert (forall gas, compute_scheduling_scores gas rooted_cycle_snapshot = OutOfGas) as H.
  { intros gas. unfold compute_scheduling_scores.
    change (length rooted_cycle_snapshot =? 0)%nat with false. cbv iota.
    rewrite (surjective_pairing (build_links rooted_cycle_snapshot)).
    change ((fun root => (root, 0)) <$> _) with [(1, 0)].
    by rewrite bfs_depths_rooted_cycle by auto. }
  split; [exact H|]. split.
  - intros gas limit. unfold get_ready_features. by rewrite H.
  - intros gas. apply compute_depth_two_cycle. auto.
Qed.

(** ** The depth-bounded search of [would_create_circular_dependency] *)

Lemma can_reach_over_cap gas fm src cur depth visited :
  depth > MAX_DEPENDENCY_DEPTH ->
  can_reach (S gas) fm src cur depth visited = Done (true, visited).
Proof.
  intros H. cbn [can_reach].
  destruct (Z.gtb_spec depth MAX_DEPENDENCY_DEPTH); [done|lia].
Qed.

Lemma can_reach_deps_total call deps : forall visited,
  (forall d v, exists r, call d v = Done r) ->
  exists r, can_reach_deps call deps visited = Done r.
Proof.
  induction deps as [|d deps IH]; intros visited Hcall; simpl; [by eexists|].
  destruct (Hcall d visited) as [[[] v] ->]; [by eexists|]. by apply IH.
Qed.

Lemma can_reach_total gas fm src : forall cur depth visited,
  depth <= MAX_DEPENDENCY_DEPTH + 1 ->
  MAX_DEPENDENCY_DEPTH + 2 <= Z.of_nat gas + depth ->
  exists r, can_reach gas fm src cur depth visited = Done r.
Proof.
  unfold MAX_DEPENDENCY_DEPTH.
  induction gas as [|gas IH]; intros cur depth visited Hd Hg; [lia|].
  cbn [can_reach]. unfold MAX_DEPENDENCY_DEPTH.
  destruct (Z.gtb_spec depth 50); [by eexists|].
  destruct (cur =? src); [by eexists|].
  destruct (decide (cur ∈ visited)); [by eexists|].
  destruct (fm !! cur) as [current|]; [|by eexists].
  apply can_reach_deps_total. intros d v. apply IH; lia.
Qed.

Lemma would_create_total features source_id target_id :
  exists b, would_create_circular_dependency features source_id target_id = Done b.
Proof.
  unfold would_create_circular_dependency.
  destruct (source_id =? target_id); [by eexists|].
  destruct (feature_map_of features !! source_id); [|by eexists].
  destruct (feature_map_of features !! target_id); [|by eexists].
  destruct (can_reach_total can_reach_gas (feature_map_of features) source_id
              target_id 0 ∅) as [r ->]; [done..|].
  by eexists.
Qed.

Lemma explored_refl fm src v : explored fm src v v.
Proof. split; [done|]. intros x H1 H2. done. Qed.

Lemma explored_trans fm src v1 v2 v3 :
  explored fm src v1 v2 -> explored fm src v2 v3 -> explored fm src v1 v3.
Proof.
  intros [Hs1 Hc1] [Hs2 Hc2]. split; [set_solver|].
  intros x Hx3 Hx1. destruct (decide (x ∈ v2)) as [Hx2|Hx2].
  - destruct (Hc1 x Hx2 Hx1) as [Hne Hy]. split; [done|].
    intros y Hxy. apply Hs2. by apply Hy.
  - by apply Hc2.
Qed.

Lemma can_reach_deps_false fm src call deps : forall v v',
  (forall d v1 v2, call d v1 = Done (false, v2) -> explored fm src v1 v2 ∧ d ∈ v2) ->
  can_reach_deps call deps v = Done (false, v') ->
  explored fm src v v' ∧ forall d, d ∈ deps -> d ∈ v'.
Proof.
  intros v v' Hcall. revert v.
  induction deps as [|d deps IH]; intros v; simpl.
  - intros [= <-]. split; [apply explored_refl|]. intros d Hd. by apply elem_of_nil in Hd.
  - destruct (call d v) as [[[] v1]| |] eqn:E; try done.
    intros Hl. destruct (Hcall _ _ _ E) as [He Hd]. destruct (IH _ Hl) as [He' Hds].
    split; [by eapply explored_trans|].
    intros d' Hd'. apply elem_of_cons in Hd' as [->|Hd']; [|by apply Hds].
    destruct He' as [Hsub _]. by apply Hsub.
Qed.

Lemma can_reach_false gas fm src : forall cur depth v v',
  can_reach gas fm src cur depth v = Done (false, v') ->
  explored fm src v v' ∧ cur ∈ v'.
Proof.
  induction gas as [|gas IH]; intros cur depth v v'; [done|].
  cbn [can_reach].
  destruct (depth >? MAX_DEPENDENCY_DEPTH); [done|].
  destruct (Z.eqb_spec cur src) as [|Hne]; [done|].
  destruct (decide (cur ∈ v)) as [Hin|Hnin].
  { intros [= <-]. split; [apply explored_refl|done]. }
  destruct (fm !! cur) as [current|] eqn:Hcur.
  - intros Hl.
    apply (can_reach_deps_false fm src) in Hl as [[Hsub Hcl] Hds].
    2:{ intros d v1 v2. apply IH. }
    split; [|set_solver]. split; [set_solver|].
    intros x Hx Hxv. destruct (decide (x = cur)) as [->|Hxc].
    + split; [done|]. intros y (f & Hf & Hy). rewrite Hcur in Hf.
      injection Hf as <-. by apply Hds.
    + apply Hcl; [done|]. set_solver.
  - intros [= <-]. split; [|set_solver]. split; [set_solver|].
    intros x Hx Hxv. assert (x = cur) as -> by set_solver.
    split; [done|]. intros y (f & Hf & _). by rewrite Hcur in Hf.
Qed.

Lemma explored_closed fm src v' a b :
  explored fm src ∅ v' -> a ∈ v' -> reaches fm a b -> b ∈ v'.
Proof.
  intros [_ Hcl] Ha Hr. induction Hr as [|x y z Hxy _ IH]; [done|].
  apply IH. destruct (Hcl x Ha) as [_ H]; [set_solver|]. by apply H.
Qed.



(** ** The feature map *)

Lemma feature_map_fold_lookup features : forall (m : gmap Z Feature) x f,
  fold_left (fun m f => <[id f := f]> m) features m !! x = Some f ->
  (f ∈ features ∧ id f = x) ∨ m !! x = Some f.
Proof.
  induction features as [|g fs IH]; intros m x f; simpl; [by right|].
  intros H. apply IH in H as [[Hin Hid]|H].
  - left. split; [by apply list_elem_of_further|done].
  - rewrite lookup_insert in H. case_decide; [|by right].
    injection H as <-. left. split; [apply list_elem_of_here|done].
Qed.

Lemma feature_map_of_lookup features x f :
  feature_map_of features !! x = Some f -> f ∈ features ∧ id f = x.
Proof.
  unfold feature_map_of. intros H.
  apply feature_map_fold_lookup in H as [H|H]; [done|]. by rewrite lookup_empty in H.
Qed.

Lemma feature_map_fold_dom features : forall (m : gmap Z Feature),
  dom (fold_left (fun m f => <[id f := f]> m) features m)
  = list_to_set (id <$> features) ∪ dom m.
Proof.
  induction features as [|g fs IH]; intros m; simpl; [set_solver|].
  rewrite IH, dom_insert_L. set_solver.
Qed.

Lemma feature_map_of_dom features :
  dom (feature_map_of features) = list_to_set (id <$> features).
Proof. unfold feature_map_of. rewrite feature_map_fold_dom. set_solver. Qed.

Lemma feature_map_of_is_Some features x :
  is_Some (feature_map_of features !! x) <-> x ∈ id <$> features.
Proof. rewrite <- elem_of_dom, feature_map_of_dom. apply elem_of_list_to_set. Qed.

Lemma feature_map_fold_NoDup features : forall (m : gmap Z Feature) f,
  NoDup (id <$> features) -> f ∈ features ->
  fold_left (fun m f => <[id f := f]> m) features m !! id f = Some f.
Proof.
  induction features as [|g fs IH]; intros m f Hnd Hf; simpl.
  - by apply elem_of_nil in Hf.
  - rewrite fmap_cons in Hnd. apply NoDup_cons in Hnd as [Hg Hnd].
    apply elem_of_cons in Hf as [->|Hf]; [|by apply IH].
    destruct (fold_left _ fs _ !! id g) as [f'|] eqn:E.
    + apply feature_map_fold_lookup in E as [[Hin Hid]|E].
      * destruct Hg. rewrite <- Hid. apply list_elem_of_fmap. by exists f'.
      * by rewrite lookup_insert_eq in E.
    + apply not_elem_of_dom in E. rewrite feature_map_fold_dom, dom_insert_L in E.
      set_solver.
Qed.

Lemma feature_map_of_NoDup features f :
  NoDup (id <$> features) -> f ∈ features -> feature_map_of features !! id f = Some f.
Proof. apply feature_map_fold_NoDup. Qed.

(** ** Termination of the search of [_detect_cycles] *)

Lemma unvisited_mono fm st st' :
  d_visited st ⊆ d_visited st' -> (unvisited fm st' <= unvisited fm st)%nat.
Proof. intros H. apply subseteq_size. set_solver. Qed.

Lemma unvisited_enter fm fid st :
  is_Some (fm !! fid) -> fid ∉ d_visited st ->
  (unvisited fm (dfs_enter fid st) < unvisited fm st)%nat.
Proof.
  intros Hf Hv. apply subset_size. unfold dfs_enter; simpl.
  apply elem_of_dom in Hf. set_solver.
Qed.

Lemma dfs_deps_total call fid deps (V : gset Z) : forall st,
  (forall d st', d ∉ d_visited st' -> V ⊆ d_visited st' ->
     exists r, call d st' = Done r ∧ d_visited st' ⊆ d_visited r.2) ->
  V ⊆ d_visited st ->
  exists r, dfs_deps call fid deps st = Done r ∧ d_visited st ⊆ d_visited r.2.
Proof.
  induction deps as [|d deps IH]; intros st Hcall HV; simpl.
  - eexists. split; [done|]. done.
  - destruct (decide (d ∉ d_visited st)) as [Hd|Hd].
    + destruct (Hcall d st Hd HV) as ([[] st'] & -> & Hsub); simpl in *.
      * eexists. split; [done|]. done.
      * destruct (IH st' Hcall ltac:(set_solver)) as (r & -> & Hsub').
        eexists. split; [done|]. set_solver.
    + destruct (decide (d ∈ d_rec_stack st)).
      * eexists. split; [done|]. done.
      * by apply IH.
Qed.

Lemma dfs_total fm gas : forall fid st,
  fid ∉ d_visited st -> (unvisited fm st < gas)%nat ->
  exists r, dfs gas fm fid st = Done r ∧ d_visited st ⊆ d_visited r.2.
Proof.
  induction gas as [|gas IH]; intros fid st Hf Hg; [lia|].
  cbn [dfs]. destruct (fm !! fid) as [feature|] eqn:Hfid.
  - pose proof (unvisited_enter fm fid st ltac:(by eexists) Hf) as Hlt.
    destruct (dfs_deps_total (dfs gas fm) fid (deps_of feature)
                (d_visited (dfs_enter fid st)) (dfs_enter fid st))
      as (r & -> & Hsub); [|done|].
    + intros d st' Hd HV. apply IH; [done|].
      pose proof (unvisited_mono fm _ _ HV). lia.
    + eexists. split; [done|]. simpl in Hsub. set_solver.
  - eexists. split; [done|]. simpl. set_solver.
Qed.

Lemma detect_roots_total fm gas fs : forall st,
  (size (dom fm) < gas)%nat -> exists st', detect_roots gas fm fs st = Done st'.
Proof.
  induction fs as [|f fs IH]; intros st Hg; simpl; [by eexists|].
  destruct (decide (id f ∉ d_visited st)) as [Hf|Hf]; [|by apply IH].
  destruct (dfs_total fm gas (id f) st Hf) as (r & -> & _).
  - unfold unvisited.
    pose proof (subseteq_size (dom fm ∖ d_visited st) (dom fm) ltac:(set_solver)). lia.
  - simpl. by apply IH.
Qed.

Lemma size_list_to_set (l : list Z) : (size (list_to_set l : gset Z) <= length l)%nat.
Proof.
  induction l as [|x l IH]; [done|].
  rewrite list_to_set_cons. cbn [length].
  rewrite (size_union_alt {[x]} (list_to_set l : gset Z)), size_singleton.
  pose proof (subseteq_size (list_to_set l ∖ {[x]}) (list_to_set l : gset Z)
                ltac:(set_solver)). lia.
Qed.

Lemma detect_cycles_total features :
  exists cycles, _detect_cycles features = Done cycles.
Proof.
  unfold _detect_cycles, detect_cycles_gas.
  destruct (detect_roots_total (feature_map_of features) (S (length features)) features
              {| d_visited := ∅; d_rec_stack := ∅; d_path := []; d_cycles := [] |})
    as [st' ->].
  - rewrite feature_map_of_dom.
    pose proof (size_list_to_set (id <$> features)). rewrite length_fmap in *. lia.
  - by eexists.
Qed.

(** ** Claims on would_create_circular_dependency and the depth cap *)





(** ** The heap *)

Lemma heap_cmp_le a b :
  heap_cmp a b <= 0
  <-> priority a < priority b ∨ (priority a = priority b ∧ id a <= id b).
Proof. unfold heap_cmp. destruct (Z.eqb_spec (priority a) (priority b)); simpl; lia. Qed.

Lemma heap_cmp_lt a b :
  heap_cmp a b < 0
  <-> priority a < priority b ∨ (priority a = priority b ∧ id a < id b).
Proof. unfold heap_cmp. destruct (Z.eqb_spec (priority a) (priority b)); simpl; lia. Qed.

Lemma heap_min_spec h : forall x,
  heap_min x h ∈ x :: h ∧ forall y, y ∈ x :: h -> heap_cmp (heap_min x h) y <= 0.
Proof.
  induction h as [|z h IH]; intros x; simpl.
  - split; [apply list_elem_of_here|]. intros y Hy.
    apply list_elem_of_singleton in Hy as ->. apply heap_cmp_le. lia.
  - destruct (Z.ltb_spec (heap_cmp z x) 0) as [Hlt|Hge].
    + destruct (IH z) as [Hin Hmin]. split.
      * by apply list_elem_of_further.
      * intros y Hy. apply elem_of_cons in Hy as [->|Hy]; [|by apply Hmin].
        specialize (Hmin z (list_elem_of_here _ _)).
        apply heap_cmp_le. apply heap_cmp_le in Hmin. apply heap_cmp_lt in Hlt. lia.
    + destruct (IH x) as [Hin Hmin]. split.
      * apply elem_of_cons in Hin as [->|Hin]; [apply list_elem_of_here|].
        by do 2 apply list_elem_of_further.
      * intros y Hy. apply elem_of_cons in Hy as [->|Hy].
        { apply Hmin, list_elem_of_here. }
        apply elem_of_cons in Hy as [->|Hy]; [|by apply Hmin, list_elem_of_further].
        specialize (Hmin x (list_elem_of_here _ _)).
        apply heap_cmp_le. apply heap_cmp_le in Hmin.
        assert (¬ heap_cmp z x < 0) as Hn by lia. rewrite heap_cmp_lt in Hn. lia.
Qed.

Lemma heap_remove_perm x h : x ∈ h -> h ≡ₚ x :: heap_remove x h.
Proof.
  induction h as [|y h IH]; intros Hx; [by apply elem_of_nil in Hx|]. simpl.
  destruct (decide (y = x)) as [->|Hne]; [done|].
  apply elem_of_cons in Hx as [->|Hx]; [done|].
  rewrite (IH Hx) at 1. apply Permutation_swap.
Qed.

Lemma heap_pop_Some h c h' :
  heap_pop h = Some (c, h') ->
  h ≡ₚ c :: h' ∧ forall f, f ∈ h -> heap_cmp c f <= 0.
Proof.
  destruct h as [|y h]; [done|]. unfold heap_pop. intros [= <- <-].
  destruct (heap_min_spec h y) as [Hin Hmin]. split; [|exact Hmin].
  by apply heap_remove_perm.
Qed.

Lemma heap_pop_None h : heap_pop h = None -> h = [].
Proof. by destruct h. Qed.

(** ** The relaxation loop of Kahn's algorithm *)

Lemma cnt_cons x y l : cnt x (y :: l) = if decide (y = x) then S (cnt x l) else cnt x l.
Proof. unfold cnt. rewrite filter_cons. by destruct (decide (y = x)). Qed.

Lemma cnt_pos x l : x ∈ l <-> (0 < cnt x l)%nat.
Proof.
  unfold cnt. split.
  - intros Hx. assert (x ∈ filter (fun y => y = x) l) as H by by apply list_elem_of_filter.
    destruct (filter _ l); [by apply elem_of_nil in H|simpl; lia].
  - intros H. destruct (filter (fun y => y = x) l) as [|y k] eqn:E; [simpl in H; lia|].
    assert (y ∈ filter (fun y => y = x) l) as Hy by (rewrite E; apply list_elem_of_here).
    apply list_elem_of_filter in Hy as [-> Hy]. done.
Qed.

Lemma cnt_zero x l : x ∉ l -> cnt x l = 0%nat.
Proof. intros H. destruct (cnt x l) eqn:E; [done|]. destruct H. apply cnt_pos. lia. Qed.

Lemma degz_insert deg x v y :
  degz (<[x := v]> deg) y = if decide (x = y) then v else degz deg y.
Proof. unfold degz. rewrite lookup_insert. by case_decide. Qed.

Lemma relax_fold fm l : forall h deg,
  (forall x, x ∈ l -> exists f, fm !! x = Some f ∧ id f = x) ->
  (forall x, x ∈ l -> Z.of_nat (cnt x l) <= degz deg x) ->
  exists pushed deg',
    fold_left (relax fm) l (Some (h, deg)) = Some (h ++ pushed, deg')
    ∧ (forall x, degz deg' x = degz deg x - Z.of_nat (cnt x l))
    ∧ NoDup (id <$> pushed)
    ∧ (forall f, f ∈ pushed <-> fm !! id f = Some f ∧ id f ∈ l ∧ degz deg' (id f) = 0).
Proof.
  induction l as [|x l IH]; intros h deg Hfm Hpre.
  - exists [], deg. simpl. rewrite app_nil_r. split; [done|].
    split; [intros; unfold cnt; simpl; lia|]. split; [constructor|].
    intros f. split; [by intros H%elem_of_nil|]. by intros (_ & H%elem_of_nil & _).
  - cbn [fold_left relax]. fold (degz deg x).
    destruct (Hfm x (list_elem_of_here _ _)) as (fx & Hfx & Hidx).
    pose proof (Hpre x (list_elem_of_here _ _)) as Hx.
    rewrite cnt_cons, decide_True in Hx by done.
    assert (Hfm' : forall y, y ∈ l -> exists f, fm !! y = Some f ∧ id f = y).
    { intros y Hy. by apply Hfm, list_elem_of_further. }
    destruct (Z.eqb_spec (degz deg x - 1) 0) as [H0|Hn0].
    + rewrite Hfx.
      assert (x ∉ l) as Hxl.
      { intros Hin%cnt_pos. lia. }
      destruct (IH (heap_push h fx) (<[x := degz deg x - 1]> deg) Hfm')
        as (pushed & deg' & Hfold & Hdeg & Hnd & Hmem).
      { intros y Hy. rewrite degz_insert, decide_False by (by intros ->).
        specialize (Hpre y (list_elem_of_further _ _ _ Hy)).
        rewrite cnt_cons, decide_False in Hpre by (by intros ->). done. }
      exists (fx :: pushed), deg'. split.
      { rewrite Hfold. unfold heap_push. by rewrite <- app_assoc. }
      split.
      { intros y. rewrite Hdeg, degz_insert, cnt_cons.
        destruct (decide (x = y)) as [->|Hne]; [|done].
        rewrite (cnt_zero y l) by done. lia. }
      split.
      { rewrite fmap_cons. apply NoDup_cons. split; [|done].
        intros Hin. apply list_elem_of_fmap in Hin as (f & Hf & Hin).
        apply Hmem in Hin as (_ & Hin & _). rewrite <- Hf, Hidx in Hin. done. }
      intros f. rewrite elem_of_cons, Hmem. split.
      * intros [->|(H1 & H2 & H3)].
        -- rewrite Hidx. split; [done|]. split; [apply list_elem_of_here|].
           rewrite Hdeg, degz_insert, decide_True by done.
           rewrite (cnt_zero x l) by done. lia.
        -- split; [done|]. split; [by apply list_elem_of_further|done].
      * intros (H1 & H2 & H3). apply elem_of_cons in H2 as [H2|H2].
        -- left. rewrite H2, Hfx in H1. by injection H1.
        -- by right.
    + destruct (IH h (<[x := degz deg x - 1]> deg) Hfm')
        as (pushed & deg' & Hfold & Hdeg & Hnd & Hmem).
      { intros y Hy. rewrite degz_insert.
        specialize (Hpre y (list_elem_of_further _ _ _ Hy)). rewrite cnt_cons in Hpre.
        destruct (decide (x = y)) as [->|Hne]; [lia|done]. }
      exists pushed, deg'. split; [done|]. split.
      { intros y. rewrite Hdeg, degz_insert, cnt_cons.
        destruct (decide (x = y)) as [->|Hne]; [lia|done]. }
      split; [done|].
      intros f. rewrite Hmem. split.
      * intros (H1 & H2 & H3). split; [done|]. split; [by apply list_elem_of_further|done].
      * intros (H1 & H2 & H3). split; [done|]. split; [|done].
        apply elem_of_cons in H2 as [H2|H2]; [|done].
        destruct (decide (x ∈ l)) as [|Hxl]; [by rewrite H2|].
        rewrite Hdeg, H2, degz_insert, decide_True, (cnt_zero x l) in H3 by done. lia.
Qed.

(** ** The graph built by [resolve_dependencies] *)

Lemma adjz_insert adj x v y :
  adjz (<[x := v]> adj) y = if decide (x = y) then v else adjz adj y.
Proof. unfold adjz. rewrite lookup_insert. by case_decide. Qed.

Lemma cnt_app x l k : cnt x (l ++ k) = (cnt x l + cnt x k)%nat.
Proof. unfold cnt. by rewrite filter_app, length_app. Qed.

Lemma build_edge_in_degree fm f g d x :
  degz (g_in_degree (build_edge fm f g d)) x
  = degz (g_in_degree g) x
    + (if decide (x = id f ∧ is_Some (fm !! d)) then 1 else 0).
Proof.
  unfold build_edge. destruct (fm !! d) as [dep|] eqn:E; simpl.
  - rewrite degz_insert. destruct (decide (id f = x)) as [<-|Hne].
    + rewrite decide_True; [done|]. split; [done|by eexists].
    + rewrite decide_False; [lia|]. by intros [-> _].
  - rewrite decide_False; [lia|]. intros [_ [? ?]]. done.
Qed.

Lemma build_edge_adjacency fm f g d k y :
  cnt y (adjz (g_adjacency (build_edge fm f g d)) k)
  = (cnt y (adjz (g_adjacency g) k)
     + (if decide (k = d ∧ is_Some (fm !! d) ∧ y = id f) then 1 else 0))%nat.
Proof.
  unfold build_edge. destruct (fm !! d) as [dep|] eqn:E; simpl.
  - rewrite adjz_insert. destruct (decide (d = k)) as [<-|Hne].
    + fold (adjz (g_adjacency g) d). rewrite cnt_app.
      unfold cnt at 2. rewrite filter_cons, filter_nil.
      destruct (decide (id f = y)) as [<-|Hne].
      * rewrite decide_True; [done|]. split; [done|]. split; [by eexists|done].
      * rewrite decide_False; [done|]. by intros (_ & _ & ->).
    + rewrite decide_False; [lia|]. by intros [-> _].
  - rewrite decide_False; [lia|]. intros (_ & [? ?] & _). done.
Qed.

Lemma build_edge_blocked fm f g d x :
  blockedz (g_blocked (build_edge fm f g d)) x
  = blockedz (g_blocked g) x
    ++ (if decide (x = id f ∧ blocksb fm d = true) then [d] else []).
Proof.
  unfold build_edge, blocksb. destruct (fm !! d) as [dep|] eqn:E; simpl.
  - destruct (passes dep); simpl.
    + rewrite decide_False; [by rewrite app_nil_r|]. by intros [_ ?].
    + unfold blockedz. rewrite lookup_insert. destruct (decide (id f = x)) as [<-|Hne].
      * by rewrite decide_True.
      * rewrite decide_False; [by rewrite app_nil_r|]. by intros [-> _].
  - rewrite decide_False; [by rewrite app_nil_r|]. by intros [_ ?].
Qed.

Lemma build_edge_keys fm f g d x :
  is_Some (g_in_degree g !! x) -> is_Some (g_in_degree (build_edge fm f g d) !! x).
Proof.
  intros H. unfold build_edge. destruct (fm !! d); simpl; [|done].
  rewrite lookup_insert. by case_decide.
Qed.

Lemma build_edge_adjacency_ids fm f g d (ids : list Z) :
  id f ∈ ids ->
  (forall k y, y ∈ adjz (g_adjacency g) k -> y ∈ ids) ->
  forall k y, y ∈ adjz (g_adjacency (build_edge fm f g d)) k -> y ∈ ids.
Proof.
  intros Hf Hg k y. unfold build_edge. destruct (fm !! d); simpl; [|apply Hg].
  rewrite adjz_insert. case_decide as Hk; [|apply Hg]. subst k.
  intros [Hy|Hy]%elem_of_app; [by eapply Hg|].
  by apply list_elem_of_singleton in Hy as ->.
Qed.

Lemma build_feature_in_degree_fold fm f deps : forall g x,
  degz (g_in_degree (fold_left (build_edge fm f) deps g)) x
  = degz (g_in_degree g) x
    + (if decide (x = id f)
       then Z.of_nat (length (filter (fun d => is_Some (fm !! d)) deps)) else 0).
Proof.
  induction deps as [|d deps IH]; intros g x; simpl.
  - case_decide; simpl; lia.
  - rewrite IH, build_edge_in_degree, filter_cons.
    destruct (decide (x = id f)) as [->|Hne].
    + destruct (decide (is_Some (fm !! d))).
      * rewrite decide_True by done. simpl. lia.
      * rewrite decide_False by (by intros [_ ?]). lia.
    + rewrite decide_False by (by intros [? _]). lia.
Qed.

Lemma build_feature_adjacency_fold fm f deps : forall g k y,
  cnt y (adjz (g_adjacency (fold_left (build_edge fm f) deps g)) k)
  = (cnt y (adjz (g_adjacency g) k)
     + (if decide (y = id f ∧ is_Some (fm !! k)) then cnt k deps else 0))%nat.
Proof.
  induction deps as [|d deps IH]; intros g k y; simpl.
  - case_decide; unfold cnt; simpl; lia.
  - rewrite IH, build_edge_adjacency, cnt_cons.
    destruct (decide (y = id f ∧ is_Some (fm !! k))) as [[-> Hk]|Hn].
    + destruct (decide (d = k)) as [->|Hne].
      * rewrite decide_True by done. lia.
      * rewrite decide_False by (by intros [-> _]). lia.
    + rewrite decide_False; [lia|]. intros (-> & ? & ->). by destruct Hn.
Qed.

Lemma build_feature_blocked_fold fm f deps : forall g x,
  blockedz (g_blocked (fold_left (build_edge fm f) deps g)) x
  = blockedz (g_blocked g) x
    ++ (if decide (x = id f) then filter (fun d => blocksb fm d = true) deps else []).
Proof.
  induction deps as [|d deps IH]; intros g x; simpl.
  - case_decide; by rewrite app_nil_r.
  - rewrite IH, build_edge_blocked, filter_cons, <- app_assoc. f_equal.
    destruct (decide (x = id f)) as [->|Hne].
    + destruct (decide (blocksb fm d = true)).
      * by rewrite decide_True.
      * by rewrite decide_False by (by intros [_ ?]).
    + by rewrite decide_False by (by intros [? _]).
Qed.

Lemma build_feature_keys_fold fm f deps : forall g x,
  is_Some (g_in_degree g !! x) ->
  is_Some (g_in_degree (fold_left (build_edge fm f) deps g) !! x).
Proof.
  induction deps as [|d deps IH]; intros g x H; simpl; [done|].
  by apply IH, build_edge_keys.
Qed.

Lemma build_feature_adjacency_ids_fold fm f deps (ids : list Z) : forall g,
  id f ∈ ids ->
  (forall k y, y ∈ adjz (g_adjacency g) k -> y ∈ ids) ->
  forall k y, y ∈ adjz (g_adjacency (fold_left (build_edge fm f) deps g)) k -> y ∈ ids.
Proof.
  induction deps as [|d deps IH]; intros g Hf Hg; simpl; [done|].
  apply IH; [done|]. by apply build_edge_adjacency_ids.
Qed.

Lemma build_feature_in_degree fm f g x :
  degz (g_in_degree (build_feature fm g f)) x
  = degz (g_in_degree g) x
    + (if decide (x = id f)
       then Z.of_nat (length (filter (fun d => is_Some (fm !! d)) (deps_of f))) else 0).
Proof. apply build_feature_in_degree_fold. Qed.

Lemma build_feature_adjacency fm f g k y :
  cnt y (adjz (g_adjacency (build_feature fm g f)) k)
  = (cnt y (adjz (g_adjacency g) k)
     + (if decide (y = id f ∧ is_Some (fm !! k)) then cnt k (deps_of f) else 0))%nat.
Proof. apply build_feature_adjacency_fold. Qed.

Lemma build_feature_blocked fm f g x :
  blockedz (g_blocked (build_feature fm g f)) x
  = blockedz (g_blocked g) x
    ++ (if decide (x = id f) then filter (fun d => blocksb fm d = true) (deps_of f)
        else []).
Proof. apply build_feature_blocked_fold. Qed.

Lemma build_feature_keys fm f g x :
  is_Some (g_in_degree g !! x) -> is_Some (g_in_degree (build_feature fm g f) !! x).
Proof. apply build_feature_keys_fold. Qed.

Lemma build_feature_adjacency_ids fm f g (ids : list Z) :
  id f ∈ ids ->
  (forall k y, y ∈ adjz (g_adjacency g) k -> y ∈ ids) ->
  forall k y, y ∈ adjz (g_adjacency (build_feature fm g f)) k -> y ∈ ids.
Proof. apply build_feature_adjacency_ids_fold. Qed.

(** The effect of the whole graph build on a snapshot with unique ids. *)
Lemma build_features_spec fm fs : forall g,
  NoDup (id <$> fs) ->
  (forall f, f ∈ fs ->
     degz (g_in_degree (fold_left (build_feature fm) fs g)) (id f)
     = degz (g_in_degree g) (id f)
       + Z.of_nat (length (filter (fun d => is_Some (fm !! d)) (deps_of f))))
  ∧ (forall f k, f ∈ fs -> is_Some (fm !! k) ->
     cnt (id f) (adjz (g_adjacency (fold_left (build_feature fm) fs g)) k)
     = (cnt (id f) (adjz (g_adjacency g) k) + cnt k (deps_of f))%nat)
  ∧ (forall f, f ∈ fs ->
     blockedz (g_blocked (fold_left (build_feature fm) fs g)) (id f)
     = blockedz (g_blocked g) (id f)
       ++ filter (fun d => blocksb fm d = true) (deps_of f))
  ∧ (forall x, x ∉ id <$> fs ->
     degz (g_in_degree (fold_left (build_feature fm) fs g)) x = degz (g_in_degree g) x
     ∧ (forall k, cnt x (adjz (g_adjacency (fold_left (build_feature fm) fs g)) k)
                  = cnt x (adjz (g_adjacency g) k))
     ∧ blockedz (g_blocked (fold_left (build_feature fm) fs g)) x
       = blockedz (g_blocked g) x).
Proof.
  induction fs as [|f0 fs IH]; intros g Hnd.
  - split; [by intros f H%elem_of_nil|]. split; [by intros f k H%elem_of_nil|].
    split; [by intros f H%elem_of_nil|]. done.
  - rewrite fmap_cons in Hnd. apply NoDup_cons in Hnd as [Hf0 Hnd].
    cbn [fold_left].
    destruct (IH (build_feature fm g f0) Hnd) as (Hdeg & Hadj & Hblk & Hother).
    assert (Hne : forall f, f ∈ fs -> id f ≠ id f0).
    { intros f Hf Heq. apply Hf0. rewrite <- Heq. apply list_elem_of_fmap. by exists f. }
    split; [|split; [|split]].
    + intros f [->|Hf]%elem_of_cons.
      * destruct (Hother (id f0) Hf0) as (-> & _ & _).
        rewrite build_feature_in_degree. by rewrite decide_True.
      * rewrite (Hdeg f Hf).
        rewrite build_feature_in_degree, decide_False by by apply Hne. lia.
    + intros f k [->|Hf]%elem_of_cons Hk.
      * destruct (Hother (id f0) Hf0) as (_ & -> & _).
        rewrite build_feature_adjacency. by rewrite decide_True.
      * rewrite (Hadj f k Hf Hk).
        rewrite build_feature_adjacency, decide_False; [lia|].
        intros [? _]. by eapply Hne.
    + intros f [->|Hf]%elem_of_cons.
      * destruct (Hother (id f0) Hf0) as (_ & _ & ->).
        rewrite build_feature_blocked. by rewrite decide_True.
      * rewrite (Hblk f Hf).
        rewrite build_feature_blocked, decide_False by by apply Hne.
        by rewrite app_nil_r.
    + intros x Hx. rewrite fmap_cons in Hx. apply not_elem_of_cons in Hx as [Hx0 Hx].
      destruct (Hother x Hx) as (-> & Ha & ->).
      rewrite build_feature_in_degree, build_feature_blocked.
      rewrite !decide_False by done. split; [lia|]. split; [|by rewrite app_nil_r].
      intros k. rewrite Ha, build_feature_adjacency.
      rewrite decide_False; [lia|]. by intros [? _].
Qed.

Lemma init_graph_in_degree (features : list Feature) : forall (m : gmap Z Z) x,
  (forall k v, m !! k = Some v -> v = 0) ->
  degz (fold_left (fun m f => <[id f := 0]> m) features m) x = 0
  ∧ ((x ∈ id <$> features ∨ is_Some (m !! x)) ->
     is_Some (fold_left (fun m f => <[id f := 0]> m) features m !! x)).
Proof.
  induction features as [|f fs IH]; intros m x Hm; simpl.
  - split.
    + unfold degz. destruct (m !! x) eqn:E; simpl; [by eapply Hm|done].
    + intros [H%elem_of_nil|H]; done.
  - destruct (IH (<[id f := 0]> m) x) as [H1 H2].
    { intros k v. rewrite lookup_insert. case_decide; [by intros [= <-]|apply Hm]. }
    split; [done|]. intros [H|H]; apply H2.
    + apply elem_of_cons in H as [->|H]; [right|by left].
      rewrite lookup_insert_eq. by eexists.
    + right. rewrite lookup_insert. by case_decide.
Qed.

Lemma init_graph_adjacency (features : list Feature) : forall (m : gmap Z (list Z)) k,
  (forall k v, m !! k = Some v -> v = []) ->
  adjz (fold_left (fun m f => <[id f := []]> m) features m) k = [].
Proof.
  induction features as [|f fs IH]; intros m k Hm; simpl.
  - unfold adjz. destruct (m !! k) eqn:E; simpl; [by eapply Hm|done].
  - apply IH. intros k' v. rewrite lookup_insert.
    case_decide; [by intros [= <-]|apply Hm].
Qed.

Lemma build_features_keys fm fs : forall g x,
  is_Some (g_in_degree g !! x) ->
  is_Some (g_in_degree (fold_left (build_feature fm) fs g) !! x).
Proof.
  induction fs as [|f fs IH]; intros g x H; simpl; [done|].
  by apply IH, build_feature_keys.
Qed.

Lemma build_features_adjacency_ids fm fs (ids : list Z) : forall g,
  (forall f, f ∈ fs -> id f ∈ ids) ->
  (forall k y, y ∈ adjz (g_adjacency g) k -> y ∈ ids) ->
  forall k y, y ∈ adjz (g_adjacency (fold_left (build_feature fm) fs g)) k -> y ∈ ids.
Proof.
  induction fs as [|f fs IH]; intros g Hfs Hg; simpl; [done|].
  apply IH.
  - intros f' Hf'. by apply Hfs, list_elem_of_further.
  - apply build_feature_adjacency_ids; [|done]. apply Hfs, list_elem_of_here.
Qed.

Lemma build_graph_spec features :
  NoDup (id <$> features) ->
  let g := build_graph features in
  let fm := feature_map_of features in
  (forall f, f ∈ features ->
     g_in_degree g !! id f
     = Some (Z.of_nat (length (filter (fun d => is_Some (fm !! d)) (deps_of f)))))
  ∧ (forall f c, f ∈ features -> c ∈ features ->
       cnt (id f) (adjz (g_adjacency g) (id c)) = cnt (id c) (deps_of f))
  ∧ (forall k y, y ∈ adjz (g_adjacency g) k -> y ∈ id <$> features)
  ∧ (forall f, f ∈ features ->
       blockedz (g_blocked g) (id f) = filter (fun d => blocksb fm d = true) (deps_of f)).
Proof.
  intros Hnd g fm. subst g. unfold build_graph. fold fm.
  destruct (build_features_spec fm features (init_graph features) Hnd)
    as (Hdeg & Hadj & Hblk & _).
  split; [|split; [|split]].
  - intros f Hf.
    destruct (build_features_keys fm features (init_graph features) (id f)) as [v Hv].
    { apply init_graph_in_degree; [by intros ? ? ?|].
      left. apply list_elem_of_fmap. by exists f. }
    specialize (Hdeg f Hf). unfold degz at 1 in Hdeg. rewrite Hv in Hdeg. simpl in Hdeg.
    rewrite Hv, Hdeg. f_equal.
    destruct (init_graph_in_degree features ∅ (id f)) as [H0 _]; [by intros ? ? ?|].
    simpl. rewrite H0. lia.
  - intros f c Hf Hc. rewrite (Hadj f (id c) Hf).
    + simpl. rewrite init_graph_adjacency by by intros ? ? ?. done.
    + apply feature_map_of_is_Some, list_elem_of_fmap. by exists c.
  - apply build_features_adjacency_ids.
    + intros f Hf. apply list_elem_of_fmap. by exists f.
    + intros k y. simpl. rewrite init_graph_adjacency by by intros ? ? ?.
      by intros H%elem_of_nil.
  - intros f Hf. by rewrite (Hblk f Hf).
Qed.

(** ** The invariant of the heap loop *)

Lemma filter_length_split (Q : Z -> Prop) `{!forall d, Decision (Q d)} c l :
  Q c ->
  length (filter Q l) = (cnt c l + length (filter (fun d => Q d ∧ d ≠ c) l))%nat.
Proof.
  intros Hc. induction l as [|d l IH]; [done|].
  rewrite cnt_cons, !filter_cons. destruct (decide (d = c)) as [->|Hne].
  - rewrite decide_True by done. rewrite decide_False by (by intros [_ ?]).
    simpl. lia.
  - destruct (decide (Q d)).
    + rewrite decide_True by done. simpl. lia.
    + rewrite decide_False by (by intros [? _]). done.
Qed.

Lemma unprocessed_deps_snoc features pre c f :
  id c ∈ id <$> features -> id c ∉ id <$> pre ->
  length (unprocessed_deps features pre f)
  = (cnt (id c) (deps_of f) + length (unprocessed_deps features (pre ++ [c]) f))%nat.
Proof.
  intros Hc Hpre. unfold unprocessed_deps.
  rewrite (filter_length_split _ (id c)) by done. f_equal. f_equal.
  apply list_filter_iff. intros d. rewrite fmap_app, not_elem_of_app.
  rewrite fmap_cons, fmap_nil, list_elem_of_singleton. tauto.
Qed.

Lemma greedy_snoc features l c :
  greedy features l ->
  unprocessed_deps features l c = [] ->
  (forall f, f ∈ features -> f ∉ l -> unprocessed_deps features l f = [] ->
     heap_cmp c f <= 0) ->
  greedy features (l ++ [c]).
Proof.
  intros Hg Hc Hmin pre c' post.
  destruct post as [|x post _] using rev_ind; intros Heq.
  - apply app_inj_tail in Heq as [<- <-]. done.
  - rewrite app_comm_cons, app_assoc in Heq. apply app_inj_tail in Heq as [-> _].
    by eapply Hg.
Qed.

Section kahn.
Variable features : list Feature.
Hypothesis Hnd : NoDup (id <$> features).
Let fm := feature_map_of features.
Variable adjacency : gmap Z (list Z).
Hypothesis Hadj : forall f c, f ∈ features -> c ∈ features ->
  cnt (id f) (adjz adjacency (id c)) = cnt (id c) (deps_of f).
Hypothesis Hids : forall k y, y ∈ adjz adjacency k -> y ∈ id <$> features.

Lemma features_id_inj f g : f ∈ features -> g ∈ features -> id f = id g -> f = g.
Proof.
  intros Hf Hg Heq.
  pose proof (feature_map_of_NoDup features f Hnd Hf) as H1.
  pose proof (feature_map_of_NoDup features g Hnd Hg) as H2.
  rewrite Heq in H1. congruence.
Qed.

Lemma kahn_step st c h :
  kahn_inv features st ->
  heap_pop (k_heap st) = Some (c, h) ->
  exists h' deg',
    fold_left (relax fm) (default [] (adjacency !! id c)) (Some (h, k_in_degree st))
    = Some (h', deg')
    ∧ kahn_inv features
        {| k_heap := h'; k_in_degree := deg'; k_ordered := k_ordered st ++ [c] |}.
Proof.
  intros [Hsub Hnodup Hdeg Hzero Hgreedy] Hpop.
  apply heap_pop_Some in Hpop as [Hperm Hmin].
  set (ordered := k_ordered st) in *. set (heap := k_heap st) in *.
  set (deg := k_in_degree st) in *.
  assert (c ∈ heap) as Hc_heap by (rewrite Hperm; apply list_elem_of_here).
  assert (c ∈ features) as Hc by (apply Hsub, elem_of_app; by right).
  assert (id c ∈ id <$> features) as Hc_ids by (apply list_elem_of_fmap; by exists c).
  assert (id c ∉ id <$> ordered) as Hc_new.
  { rewrite fmap_app in Hnodup. apply NoDup_app in Hnodup as (_ & Hdisj & _).
    intros Hin. apply (Hdisj _ Hin). apply list_elem_of_fmap. by exists c. }
  fold (adjz adjacency (id c)). set (l := adjz adjacency (id c)).
  assert (Hl : forall x, x ∈ l -> exists f, f ∈ features ∧ id f = x).
  { intros x Hx. apply Hids in Hx. apply list_elem_of_fmap in Hx as (f & -> & Hf).
    by exists f. }
  destruct (relax_fold fm l h deg) as (pushed & deg' & Hfold & Hdeg' & Hpnd & Hpmem).
  { intros x Hx. destruct (Hl x Hx) as (f & Hf & <-). exists f.
    split; [by apply feature_map_of_NoDup|done]. }
  { intros x Hx. destruct (Hl x Hx) as (f & Hf & <-).
    rewrite (Hdeg f Hf). unfold l. rewrite (Hadj f c Hf Hc).
    rewrite (unprocessed_deps_snoc features ordered c f Hc_ids Hc_new). lia. }
  exists (h ++ pushed), deg'. split; [done|].
  assert (Hdeg_new : forall f, f ∈ features ->
    degz deg' (id f)
    = Z.of_nat (length (unprocessed_deps features (ordered ++ [c]) f))).
  { intros f Hf. rewrite Hdeg', (Hdeg f Hf). unfold l. rewrite (Hadj f c Hf Hc).
    rewrite (unprocessed_deps_snoc features ordered c f Hc_ids Hc_new). lia. }
  assert (Hpushed : forall f, f ∈ pushed -> f ∈ features ∧ 0 < degz deg (id f)).
  { intros f Hf. apply Hpmem in Hf as (Hfm & Hin & Hz).
    apply feature_map_of_lookup in Hfm as [Hf _]. split; [done|].
    rewrite Hdeg' in Hz. apply cnt_pos in Hin. lia. }
  assert (Hold : forall f, f ∈ ordered ++ heap <-> f ∈ (ordered ++ [c]) ++ h).
  { intros f. rewrite Hperm, !elem_of_app, elem_of_cons, list_elem_of_singleton. tauto. }
  constructor; simpl.
  - intros f. rewrite app_assoc, elem_of_app. intros [Hf|Hf].
    + by apply Hsub, Hold.
    + by apply Hpushed.
  - rewrite app_assoc, fmap_app. apply NoDup_app. split; [|split; [|done]].
    + assert (id <$> ((ordered ++ [c]) ++ h) ≡ₚ id <$> (ordered ++ heap)) as ->; [|done].
      apply fmap_Permutation. rewrite Hperm.
      by rewrite <- app_assoc.
    + intros x Hx Hx'.
      apply list_elem_of_fmap in Hx as (g & -> & Hg).
      apply list_elem_of_fmap in Hx' as (f & Heq & Hf).
      apply Hold in Hg. destruct (Hpushed f Hf) as [Hff Hpos].
      assert (g = f) as -> by (apply features_id_inj; [by apply Hsub|done..]).
      apply (Hzero f Hff) in Hg. lia.
  - exact Hdeg_new.
  - intros f Hf. rewrite app_assoc, elem_of_app, <- Hold. split.
    + intros [Hin|Hin].
      * apply (Hzero f Hf) in Hin. rewrite Hdeg', Hin.
        pose proof (Hdeg_new f Hf) as Hn. rewrite Hdeg', Hin in Hn. lia.
      * by apply Hpmem in Hin as (_ & _ & ?).
    + intros Hz. destruct (decide (degz deg (id f) = 0)) as [H0|Hn0].
      * left. by apply Hzero.
      * right. apply Hpmem. split; [by apply feature_map_of_NoDup|].
        split; [|done]. apply cnt_pos. rewrite Hdeg' in Hz.
        pose proof (Hdeg f Hf). lia.
  - apply greedy_snoc; [done| |].
    + assert (degz deg (id c) = 0) as Hz.
      { apply (Hzero c Hc), elem_of_app. by right. }
      rewrite (Hdeg c Hc) in Hz. by destruct (unprocessed_deps features ordered c).
    + intros f Hf Hnot Hun. apply Hmin.
      assert (degz deg (id f) = 0) as Hz by (by rewrite (Hdeg f Hf), Hun).
      apply (Hzero f Hf), elem_of_app in Hz as [Hz|Hz]; done.
Qed.

Lemma kahn_inv_length st :
  kahn_inv features st ->
  (length (k_ordered st) + length (k_heap st) <= length features)%nat.
Proof.
  intros [Hsub Hnodup _ _ _].
  rewrite <- length_app, <- (length_fmap id), <- (length_fmap id features).
  apply submseteq_length, NoDup_submseteq; [done|].
  intros x (f & -> & Hf)%list_elem_of_fmap.
  apply list_elem_of_fmap. exists f. split; [done|]. by apply Hsub.
Qed.

Lemma kahn_loop_total gas : forall st,
  kahn_inv features st ->
  (length features <= gas + length (k_ordered st))%nat ->
  exists st',
    kahn_loop gas fm adjacency st = Done st'
    ∧ kahn_inv features st' ∧ k_heap st' = [].
Proof.
  induction gas as [|gas IH]; intros st Hinv Hgas.
  - pose proof (kahn_inv_length st Hinv) as Hlen.
    assert (k_heap st = []) as Hh.
    { destruct (k_heap st); [done|]. simpl in Hlen. lia. }
    exists st. simpl. by rewrite Hh.
  - cbn [kahn_loop]. destruct (heap_pop (k_heap st)) as [[c h]|] eqn:Hpop.
    + destruct (kahn_step st c h Hinv Hpop) as (h' & deg' & -> & Hinv').
      apply IH; [done|]. simpl. rewrite length_app. simpl. lia.
    + exists st. split; [done|]. split; [done|]. by apply heap_pop_None.
Qed.
End kahn.

(** ** resolve_dependencies on a snapshot with unique ids *)

Lemma seed_heap_filter deg features :
  seed_heap deg features = filter (fun f => deg !! id f = Some 0) features.
Proof.
  unfold seed_heap. rewrite <- (app_nil_l (filter _ _)).
  generalize (@nil Feature) as acc.
  induction features as [|f fs IH]; intros acc; cbn [fold_left].
  - by rewrite filter_nil, app_nil_r.
  - rewrite IH, filter_cons. destruct (decide (deg !! id f = Some 0)); [|done].
    unfold heap_push. by rewrite <- app_assoc.
Qed.

Lemma kahn_inv_init features :
  NoDup (id <$> features) ->
  kahn_inv features
    {| k_heap := seed_heap (g_in_degree (build_graph features)) features;
       k_in_degree := g_in_degree (build_graph features);
       k_ordered := [] |}.
Proof.
  intros Hnd. destruct (build_graph_spec features Hnd) as (Hdeg & _ & _ & _).
  rewrite seed_heap_filter.
  assert (Hdz : forall f, f ∈ features ->
    degz (g_in_degree (build_graph features)) (id f)
    = Z.of_nat (length (unprocessed_deps features [] f))).
  { intros f Hf. unfold degz. rewrite (Hdeg f Hf). simpl. do 2 f_equal.
    apply list_filter_iff. intros d. rewrite feature_map_of_is_Some.
    split; [|tauto]. intros H. split; [done|]. by intros ?%elem_of_nil. }
  constructor; simpl.
  - intros f Hf. by apply list_elem_of_filter in Hf as [_ Hf].
  - eapply sublist_NoDup; [exact Hnd|]. apply fmap_sublist, sublist_filter.
  - exact Hdz.
  - intros f Hf. rewrite list_elem_of_filter.
    unfold degz. rewrite (Hdeg f Hf). simpl. split.
    + by intros [[= ->] _].
    + intros ->. done.
  - intros pre c post H. by destruct pre.
Qed.

Lemma resolve_dependencies_spec features :
  NoDup (id <$> features) ->
  exists r sorted,
    resolve_dependencies features = Done r
    ∧ ordered_features r = sorted ++ residual features sorted
    ∧ blocked_features r = g_blocked (build_graph features)
    ∧ (forall f, f ∈ sorted -> f ∈ features)
    ∧ NoDup (id <$> sorted)
    ∧ greedy features sorted
    ∧ (forall f, f ∈ features -> f ∉ sorted -> unprocessed_deps features sorted f ≠ []).
Proof.
  intros Hnd. destruct (build_graph_spec features Hnd) as (_ & Hadj & Hids & _).
  destruct (kahn_loop_total features Hnd (g_adjacency (build_graph features)) Hadj Hids
              (length features) _ (kahn_inv_init features Hnd))
    as (st' & Hloop & Hinv & Hheap); [simpl; lia|].
  destruct Hinv as [Hsub Hnodup Hdeg Hzero Hgreedy]. rewrite Hheap, app_nil_r in *.
  assert (Hres : forall f, f ∈ features -> f ∉ k_ordered st' ->
            unprocessed_deps features (k_ordered st') f ≠ []).
  { intros f Hf Hnot Hun. apply Hnot, (Hzero f Hf). by rewrite (Hdeg f Hf), Hun. }
  assert (Hrem : filter (fun f => includes (k_ordered st') f = false) features
                 = residual features (k_ordered st')).
  { apply list_filter_iff. intros f. unfold includes.
    by rewrite bool_decide_eq_false. }
  unfold resolve_dependencies. rewrite Hloop. cbn [mbind outcome_bind].
  destruct (Z.ltb_spec (Z.of_nat (length (k_ordered st'))) (Z.of_nat (length features)))
    as [Hlt|Hge].
  - destruct (detect_cycles_total
                (filter (fun f => includes (k_ordered st') f = false) features))
      as [cycles ->].
    cbn [mbind outcome_bind mret outcome_ret].
    eexists _, (k_ordered st'). split; [done|]. simpl. rewrite Hrem. done.
  - cbn [mret outcome_ret].
    eexists _, (k_ordered st'). split; [done|]. simpl.
    assert (residual features (k_ordered st') = []) as ->; [|by rewrite app_nil_r].
    assert (k_ordered st' ≡ₚ features) as Hperm.
    { apply submseteq_length_Permutation; [|lia].
      apply NoDup_submseteq; [by eapply NoDup_fmap_1|done]. }
    unfold residual.
    destruct (filter (fun f => f ∉ k_ordered st') features) as [|f k] eqn:E; [done|].
    assert (f ∈ filter (fun f => f ∉ k_ordered st') features) as Hf
      by (rewrite E; apply list_elem_of_here).
    apply list_elem_of_filter in Hf as [Hnot Hf]. destruct Hnot. by rewrite Hperm.
Qed.

Lemma unprocessed_deps_nil features pre f :
  unprocessed_deps features pre f = []
  <-> forall d, d ∈ deps_of f -> d ∈ id <$> features -> d ∈ id <$> pre.
Proof.
  unfold unprocessed_deps. split.
  - intros H d Hd Hin. destruct (decide (d ∈ id <$> pre)) as [|Hn]; [done|].
    assert (d ∈ filter (fun d => d ∈ id <$> features ∧ d ∉ id <$> pre) (deps_of f)) as Hf
      by by apply list_elem_of_filter.
    rewrite H in Hf. by apply elem_of_nil in Hf.
  - intros H.
    destruct (filter (fun d => d ∈ id <$> features ∧ d ∉ id <$> pre) (deps_of f))
      as [|d k] eqn:E; [done|].
    assert (d ∈ filter (fun d => d ∈ id <$> features ∧ d ∉ id <$> pre) (deps_of f)) as Hf
      by (rewrite E; apply list_elem_of_here).
    apply list_elem_of_filter in Hf as [[Hin Hn] Hd]. destruct Hn. by apply H.
Qed.

Lemma sorted_residual_perm features sorted :
  NoDup (id <$> features) -> NoDup (id <$> sorted) ->
  (forall f, f ∈ sorted -> f ∈ features) ->
  sorted ++ residual features sorted ≡ₚ features.
Proof.
  intros Hnd Hns Hsub. apply NoDup_fmap_1 in Hnd, Hns.
  apply NoDup_Permutation; [|done|].
  - apply NoDup_app. split; [done|]. split; [|by apply NoDup_filter].
    intros f Hf Hr. by apply list_elem_of_filter in Hr as [Hn _].
  - intros f. rewrite elem_of_app. unfold residual. rewrite list_elem_of_filter. split.
    + intros [H|[_ H]]; [by apply Hsub|done].
    + intros Hf. destruct (decide (f ∈ sorted)); [by left|by right].
Qed.

Lemma dep_edge_target features x y :
  tc (dep_edge (feature_map_of features)) x y -> y ∈ features ≫= deps_of.
Proof.
  induction 1 as [x y (f & Hf & Hy)|x y z _ _ IH]; [|done].
  apply feature_map_of_lookup in Hf as [Hf _].
  apply list_elem_of_bind. by exists f.
Qed.

Lemma residual_empty features sorted :
  NoDup (id <$> features) -> acyclic features ->
  (forall f, f ∈ features -> f ∉ sorted -> unprocessed_deps features sorted f ≠ []) ->
  residual features sorted = [].
Proof.
  intros Hnd Hacyc Hres.
  assert (Hsn : forall x, sn (dep_edge (feature_map_of features)) x).
  { intros x. apply tc_finite_sn; [exact Hacyc|].
    exists (features ≫= deps_of). intros y. apply dep_edge_target. }
  assert (Hall : forall x, sn (dep_edge (feature_map_of features)) x ->
            forall f, f ∈ features -> id f = x -> f ∉ sorted -> False).
  { intros x Hx. induction Hx as [x _ IH]. intros f Hf Hid Hnot.
    specialize (Hres f Hf Hnot).
    destruct (unprocessed_deps features sorted f) as [|d k] eqn:E; [done|].
    assert (d ∈ unprocessed_deps features sorted f) as Hd
      by (rewrite E; apply list_elem_of_here).
    apply list_elem_of_filter in Hd as [[Hin Hn] Hd].
    apply list_elem_of_fmap in Hin as (g & -> & Hg).
    apply (IH (id g)) with g; [|done..|].
    - exists f. split; [|done]. rewrite <- Hid. by apply feature_map_of_NoDup.
    - intros Hgs. apply Hn. apply list_elem_of_fmap. by exists g. }
  unfold residual.
  destruct (filter (fun f => f ∉ sorted) features) as [|f k] eqn:E; [done|].
  assert (f ∈ filter (fun f => f ∉ sorted) features) as Hf
    by (rewrite E; apply list_elem_of_here).
  apply list_elem_of_filter in Hf as [Hnot Hf].
  destruct (Hall (id f) (Hsn (id f)) f Hf eq_refl Hnot).
Qed.

Lemma sorted_of_prefixes {A} (R : relation A) (l : list A) :
  (forall pre c post, l = pre ++ c :: post -> forall f, f ∈ post -> R c f) ->
  StronglySorted R l.
Proof.
  induction l as [|x l IH]; intros H; constructor.
  - apply IH. intros pre c post -> f Hf. by apply (H (x :: pre) c post).
  - apply Forall_forall. intros f Hf. by apply (H [] x l).
Qed.

(** C3: on an acyclic snapshot with unique ids, [resolve_dependencies]
    returns an order in which every feature comes after its in-snapshot
    dependencies and, at every position, is the least for (priority, then
    id) among the features not yet output whose in-snapshot dependencies
    are all output; in particular its priority is the lowest among them.
    Without any dependency the output is sorted by ascending priority. *)
Theorem resolve_dependencies_priority_order features :
  NoDup (id <$> features) -> acyclic features ->
  exists r,
    resolve_dependencies features = Done r
    ∧ (forall pre c post, ordered_features r = pre ++ c :: post ->
         (forall d, d ∈ deps_of c -> d ∈ id <$> features -> d ∈ id <$> pre)
         ∧ forall f, f ∈ features -> f ∉ pre ->
             (forall d, d ∈ deps_of f -> d ∈ id <$> features -> d ∈ id <$> pre) ->
             heap_cmp c f <= 0 ∧ priority c <= priority f)
    ∧ ((forall f, f ∈ features -> deps_of f = []) ->
       StronglySorted (fun a b => priority a <= priority b) (ordered_features r)).
Proof.
  intros Hnd Hacyc.
  destruct (resolve_dependencies_spec features Hnd)
    as (r & sorted & Hr & Hord & _ & Hsub & Hns & Hgreedy & Hres).
  rewrite (residual_empty features sorted Hnd Hacyc Hres), app_nil_r in Hord.
  exists r. split; [done|]. rewrite Hord.
  assert (Hpos : forall pre c post, sorted = pre ++ c :: post ->
    (forall d, d ∈ deps_of c -> d ∈ id <$> features -> d ∈ id <$> pre)
    ∧ forall f, f ∈ features -> f ∉ pre ->
        (forall d, d ∈ deps_of f -> d ∈ id <$> features -> d ∈ id <$> pre) ->
        heap_cmp c f <= 0 ∧ priority c <= priority f).
  { intros pre c post Heq. destruct (Hgreedy pre c post Heq) as [Hc Hmin].
    split; [by apply unprocessed_deps_nil|].
    intros f Hf Hnot Hdeps.
    assert (heap_cmp c f <= 0) as Hcmp.
    { apply Hmin; [done..|]. by apply unprocessed_deps_nil. }
    split; [done|]. apply heap_cmp_le in Hcmp. lia. }
  split; [exact Hpos|].
  intros Hnodeps. apply sorted_of_prefixes. intros pre c post Heq f Hf.
  destruct (Hpos pre c post Heq) as [_ Hmin].
  apply NoDup_fmap_1 in Hns. rewrite Heq in Hns, Hsub.
  apply Hmin.
  - apply Hsub. rewrite elem_of_app, elem_of_cons. auto.
  - apply NoDup_app in Hns as (_ & Hdisj & _). intros Hpre.
    apply (Hdisj f Hpre). by apply list_elem_of_further.
  - rewrite Hnodeps.
    + by intros d ?%elem_of_nil.
    + apply Hsub. rewrite elem_of_app, elem_of_cons. auto.
Qed.

Lemma resolve_dependencies_priority_order_witness :
  NoDup (id <$> priority_snapshot) ∧ acyclic priority_snapshot
  ∧ (exists r,
       resolve_dependencies priority_snapshot = Done r
       ∧ StronglySorted (fun a b => priority a <= priority b) (ordered_features r))
  ∧ ordered_ids (resolve_dependencies priority_snapshot) = Some [3; 2; 1].
Proof.
  assert (NoDup (id <$> priority_snapshot)) as Hnd.
  { apply (bool_decide_unpack (NoDup (id <$> priority_snapshot))). vm_compute. exact I. }
  assert (forall f, f ∈ priority_snapshot -> deps_of f = []) as Hnodeps.
  { intros f Hf. unfold priority_snapshot in Hf.
    repeat (apply elem_of_cons in Hf as [->|Hf]; [reflexivity|]).
    by apply elem_of_nil in Hf. }
  assert (acyclic priority_snapshot) as Hacyc.
  { intros x Hx. apply dep_edge_target in Hx.
    apply list_elem_of_bind in Hx as (f & Hd & Hf).
    rewrite (Hnodeps f Hf) in Hd. by apply elem_of_nil in Hd. }
  split; [exact Hnd|]. split; [exact Hacyc|]. split; [|vm_compute; reflexivity].
  destruct (resolve_dependencies_priority_order priority_snapshot Hnd Hacyc)
    as (r & Hr & _ & Hsorted).
  exists r. split; [exact Hr|]. exact (Hsorted Hnodeps).
Defined.

(** ** Blockers *)

Lemma blocksb_spec features d :
  NoDup (id <$> features) ->
  blocksb (feature_map_of features) d = true
  <-> exists g, g ∈ features ∧ id g = d ∧ passes g = false.
Proof.
  intros Hnd. unfold blocksb. split.
  - destruct (feature_map_of features !! d) as [dep|] eqn:E; [|done].
    apply feature_map_of_lookup in E as [Hin Hid]. intros H%negb_true_iff.
    by exists dep.
  - intros (g & Hg & <- & Hp). rewrite (feature_map_of_NoDup features g Hnd Hg).
    by rewrite Hp.
Qed.

(** C6, as the code has it: in the [blocked_features] map of
    [resolve_dependencies] (snapshot with unique ids) the entry of a
    feature lists, in order, exactly those of its dependency ids that are
    ids of features of the snapshot that are not passing; the [blocked_by]
    list of [get_blocked_features] lists, for each feature that is not
    passing, exactly those of its dependency ids that are not ids of passing
    features, ids absent from the snapshot included, and the feature is
    reported when that list is not empty. *)
Theorem blockers_reported :
  (forall features,
     NoDup (id <$> features) ->
     exists r,
       resolve_dependencies features = Done r
       ∧ (forall f, f ∈ features ->
            default [] (blocked_features r !! id f)
            = filter (fun d => blocksb (feature_map_of features) d = true) (deps_of f))
       ∧ (forall d, blocksb (feature_map_of features) d = true
                    <-> exists g, g ∈ features ∧ id g = d ∧ passes g = false))
  ∧ (forall features f b,
       (f, b) ∈ get_blocked_features features
       <-> f ∈ features ∧ passes f = false ∧ b ≠ []
           ∧ b = blocking_of (passing_ids_of features) f)
  ∧ (forall features f d,
       d ∈ blocking_of (passing_ids_of features) f
       <-> d ∈ deps_of f ∧ ¬ exists g, g ∈ features ∧ id g = d ∧ passes g = true).
Proof.
  split; [|split].
  - intros features Hnd.
    destruct (resolve_dependencies_spec features Hnd) as (r & sorted & Hr & _ & Hb & _).
    destruct (build_graph_spec features Hnd) as (_ & _ & _ & Hblk).
    exists r. split; [done|]. split; [|intros d; by apply blocksb_spec].
    intros f Hf. rewrite Hb. apply (Hblk f Hf).
  - intros features f b. rewrite get_blocked_features_eq, list_elem_of_fmap. split.
    + intros (g & [= -> ->] & Hg). apply list_elem_of_filter in Hg as [[Hp Hne] Hg].
      done.
    + intros (Hf & Hp & Hne & ->). exists f. split; [done|].
      by apply list_elem_of_filter.
  - intros features f d. apply elem_of_blocking_of.
Qed.

Lemma blockers_reported_witness :
  NoDup (id <$> cyclic_snapshot)
  ∧ exists r,
      resolve_dependencies cyclic_snapshot = Done r
      ∧ default [] (blocked_features r !! 1) = [2].
Proof.
  assert (NoDup (id <$> cyclic_snapshot)) as Hnd.
  { apply (bool_decide_unpack (NoDup (id <$> cyclic_snapshot))). vm_compute. exact I. }
  split; [exact Hnd|].
  destruct (proj1 blockers_reported cyclic_snapshot Hnd) as (r & Hr & Hb & _).
  exists r. split; [exact Hr|].
  etransitivity;
    [exact (Hb (new_Feature 1 1 false false (Some [2])) (list_elem_of_here _ _))|].
  vm_compute. reflexivity.
Defined.

(** C6 as stated fails for [get_blocked_features]: the dependency id 999 is
    absent from the snapshot and is reported in [blocked_by]. *)
Lemma blocked_by_missing_counterexample :
  get_blocked_features [missing_dep_feature] = [(missing_dep_feature, [999])]
  ∧ 999 ∉ id <$> [missing_dep_feature].
Proof.
  split; [vm_compute; reflexivity|].
  intros H. apply list_elem_of_singleton in H. discriminate.
Qed.

(** ** Termination of the queue loop on acyclic snapshots *)

















(** * Further properties of the engine and of the tools *)

(** ** Checks on one feature *)

Lemma forallb_filter_nil {A} (P : A -> Prop) `{!forall x, Decision (P x)} (l : list A) :
  forallb (fun x => bool_decide (P x)) l = true <-> filter (fun x => ¬ P x) l = [].
Proof.
  induction l as [|x l IH]; [done|].
  cbn [forallb]. rewrite filter_cons. rewrite andb_true_iff, bool_decide_eq_true, IH.
  destruct (decide (¬ P x)) as [Hn|Hp]; [|apply dec_stable in Hp]; split; try done.
  - by intros [? _].
  - tauto.
Qed.

(** X1: with the set of passing ids of a snapshot supplied, neither check
    throws; [are_dependencies_satisfied] answers [true] exactly when
    [get_blocking_dependencies] returns the empty list; readiness as
    [get_ready_features] decides it is that answer for a feature that is
    neither passing nor in progress; and [get_blocked_features] lists a
    feature, with [get_blocking_dependencies] as its [blocked_by], exactly
    when the feature is in the snapshot, not passing, and the answer is
    [false]. *)
Theorem dependencies_satisfied_iff_no_blockers features f :
  let passing_ids := passing_ids_of features in
  exists b blocking,
    are_dependencies_satisfied f (Some passing_ids) = Returned b
    ∧ get_blocking_dependencies f (Some passing_ids) = Returned blocking
    ∧ (b = true <-> blocking = [])
    ∧ is_ready passing_ids f = negb (passes f || in_progress f) && b
    ∧ ((f, blocking) ∈ get_blocked_features features
       <-> f ∈ features ∧ passes f = false ∧ b = false).
Proof.
  intros passing_ids.
  exists (forallb (fun dep_id => bool_decide (dep_id ∈ passing_ids)) (deps_of f)),
         (blocking_of passing_ids f).
  assert (Hiff : forallb (fun dep_id => bool_decide (dep_id ∈ passing_ids)) (deps_of f) = true
                 <-> blocking_of passing_ids f = []).
  { unfold blocking_of. apply (forallb_filter_nil (fun d => d ∈ passing_ids)). }
  split; [|split; [done|split; [exact Hiff|split]]].
  - unfold are_dependencies_satisfied. destruct (deps_of f); done.
  - unfold is_ready. by destruct (passes f || in_progress f).
  - rewrite get_blocked_features_eq, list_elem_of_fmap. fold passing_ids. split.
    + intros (g & [= <- _] & Hg). apply list_elem_of_filter in Hg as [[Hp Hb] Hg].
      do 2 (split; [done|]). apply not_true_is_false. by rewrite Hiff.
    + intros (Hf & Hp & Hb). exists f. split; [done|].
      apply list_elem_of_filter. split; [|done]. split; [done|].
      rewrite <- Hiff. by rewrite Hb.
Qed.

(** ** validate_dependencies *)

Lemma size_list_to_set_NoDup (l : list Z) :
  length l = size (list_to_set l : gset Z) <-> NoDup l.
Proof.
  split.
  - induction l as [|x l IH]; [constructor|].
    rewrite list_to_set_cons. cbn [length]. intros H.
    pose proof (size_list_to_set l) as Hle.
    rewrite (size_union_alt {[x]} (list_to_set l : gset Z)), size_singleton in H.
    pose proof (subseteq_size (list_to_set l ∖ {[x]}) (list_to_set l : gset Z)
                  ltac:(set_solver)) as Hsub.
    assert (size (list_to_set l ∖ {[x]} : gset Z) = size (list_to_set l : gset Z)) as Heq
      by lia.
    constructor; [|apply IH; lia].
    intros Hx. assert (list_to_set l ∖ {[x]} ⊂ (list_to_set l : gset Z)) as Hss.
    { rewrite <- (elem_of_list_to_set (C:=gset Z)) in Hx. set_solver. }
    apply subset_size in Hss. lia.
  - intros H. symmetry. by apply fin_sets.size_list_to_set.
Qed.

Lemma validate_dependencies_spec feature_id dependency_ids all_feature_ids :
  let r := validate_dependencies feature_id dependency_ids all_feature_ids in
  (r.1 = true
   <-> (Z.of_nat (length dependency_ids) <= MAX_DEPENDENCIES
        ∧ (feature_id ∉ dependency_ids)
        ∧ Forall (fun d => d ∈ all_feature_ids) dependency_ids
        ∧ NoDup dependency_ids))
  ∧ (r.1 = true <-> r.2 = "").
Proof.
  unfold validate_dependencies.
  destruct (Z.gtb_spec (Z.of_nat (length dependency_ids)) MAX_DEPENDENCIES) as [Hgt|Hle].
  { simpl. split; split; try done. intros [? _]. lia. }
  destruct (decide (feature_id ∈ dependency_ids)) as [Hin|Hnin].
  { rewrite bool_decide_eq_true_2 by done. simpl. split; split; try done. tauto. }
  rewrite bool_decide_eq_false_2 by done.
  destruct (filter (fun d => d ∉ all_feature_ids) dependency_ids) as [|m ms] eqn:Hm.
  - assert (Forall (fun d => d ∈ all_feature_ids) dependency_ids) as Hall.
    { apply Forall_forall. intros d Hd. destruct (decide (d ∈ all_feature_ids)); [done|].
      assert (d ∈ filter (fun d => d ∉ all_feature_ids) dependency_ids) as H
        by by apply list_elem_of_filter.
      rewrite Hm in H. by apply elem_of_nil in H. }
    cbn [length Nat.ltb Nat.leb].
    destruct (Nat.eqb_spec (length dependency_ids)
                (size (list_to_set dependency_ids : gset Z))) as [Heq|Hne]; simpl.
    + apply size_list_to_set_NoDup in Heq. split; split; done.
    + split; split; try done. intros (_ & _ & _ & Hnd).
      by apply size_list_to_set_NoDup in Hnd.
  - cbn [length Nat.ltb Nat.leb]. simpl. split; split; try done.
    intros (_ & _ & Hall & _).
    assert (m ∈ filter (fun d => d ∉ all_feature_ids) dependency_ids) as H
      by (rewrite Hm; apply list_elem_of_here).
    apply list_elem_of_filter in H as [Hn Hd]. by eapply Forall_forall in Hall.
Qed.

(** X2: [validate_dependencies] accepts a list exactly when it has at most
    [MAX_DEPENDENCIES] entries, does not contain the feature itself, names
    only known ids and has no duplicate; the message is empty exactly when
    the list is accepted. *)
Theorem validate_dependencies_accepts feature_id dependency_ids all_feature_ids :
  let r := validate_dependencies feature_id dependency_ids all_feature_ids in
  (r.1 = true
   <-> (Z.of_nat (length dependency_ids) <= MAX_DEPENDENCIES
        ∧ (feature_id ∉ dependency_ids)
        ∧ Forall (fun d => d ∈ all_feature_ids) dependency_ids
        ∧ NoDup dependency_ids))
  ∧ (r.1 = true <-> r.2 = "").
Proof. apply validate_dependencies_spec. Qed.

(** ** [feature_set_dependencies] and [validate_dependencies] *)

Lemma check_cycles_None test_features feature_id dependency_ids :
  check_cycles test_features feature_id dependency_ids = None
  <-> Forall (fun dep_id =>
        would_create_circular_dependency test_features feature_id dep_id = Done false)
        dependency_ids.
Proof.
  induction dependency_ids as [|d ds IH]; simpl; [by split|].
  rewrite Forall_cons, <- IH.
  destruct (would_create_total test_features feature_id d) as [[] ->]; split; try done.
  - by intros [? _].
  - by intros [_ ?].
Qed.

(** X3: on a feature that exists, [feature_set_dependencies] succeeds
    exactly when [validate_dependencies] accepts the list against the ids
    of the table and no listed id already reaches the feature. *)
Theorem set_dependencies_agrees_with_validate feature_id dependency_ids s :
  is_Some (select_by_id s feature_id) ->
  let all_feature_ids : gset Z := list_to_set (id <$> rows s) in
  let test_features :=
    (fun f => if decide (id f = feature_id)
              then set_dependencies (Some dependency_ids) f else f) <$> rows s in
  (exists deps, (feature_set_dependencies feature_id dependency_ids s).2 = Ok deps)
  <-> ((validate_dependencies feature_id dependency_ids all_feature_ids).1 = true
       ∧ Forall (fun dep_id =>
           would_create_circular_dependency test_features feature_id dep_id = Done false)
           dependency_ids).
Proof.
  intros [f Hf] all_feature_ids test_features.
  destruct (validate_dependencies_spec feature_id dependency_ids all_feature_ids)
    as [Hv _]. rewrite Hv. clear Hv.
  rewrite <- check_cycles_None.
  unfold feature_set_dependencies. rewrite Hf. fold all_feature_ids test_features.
  destruct (decide (feature_id ∈ dependency_ids)) as [Hin|Hnin].
  { rewrite bool_decide_eq_true_2 by done. simpl.
    split; [by intros [? ?]|]. tauto. }
  rewrite bool_decide_eq_false_2 by done.
  destruct (Z.gtb_spec (Z.of_nat (length dependency_ids)) MAX_DEPENDENCIES) as [Hgt|Hle].
  { simpl. split; [by intros [? ?]|]. intros [[? _] _]. lia. }
  destruct (decide (NoDup dependency_ids)) as [Hnd|Hnd].
  2:{ rewrite bool_decide_eq_false_2 by done. simpl.
      split; [by intros [? ?]|]. tauto. }
  rewrite bool_decide_eq_true_2 by done. cbn [negb].
  destruct (filter (fun d => d ∉ all_feature_ids) dependency_ids) as [|m ms] eqn:Hm;
    cbn [length Nat.ltb Nat.leb].
  - assert (Forall (fun d => d ∈ all_feature_ids) dependency_ids) as Hall.
    { apply Forall_forall. intros d Hd. destruct (decide (d ∈ all_feature_ids)); [done|].
      assert (d ∈ filter (fun d => d ∉ all_feature_ids) dependency_ids) as H
        by by apply list_elem_of_filter.
      rewrite Hm in H. by apply elem_of_nil in H. }
    destruct (check_cycles test_features feature_id dependency_ids) eqn:Hc; simpl.
    + split; [by intros [? ?]|]. by intros [_ ?].
    + split; [done|]. intros _. by eexists.
  - simpl. split; [by intros [? ?]|]. intros [(_ & _ & Hall & _) _].
    assert (m ∈ filter (fun d => d ∉ all_feature_ids) dependency_ids) as H
      by (rewrite Hm; apply list_elem_of_here).
    apply list_elem_of_filter in H as [Hn Hd]. by eapply Forall_forall in Hall.
Qed.

Lemma set_dependencies_agrees_with_validate_witness :
  is_Some (select_by_id sample_store 3)
  ∧ ((exists deps, (feature_set_dependencies 3 [1; 2] sample_store).2 = Ok deps)
     <-> ((validate_dependencies 3 [1; 2]
             (list_to_set (id <$> rows sample_store) : gset Z)).1 = true
          ∧ Forall (fun dep_id =>
              would_create_circular_dependency
                ((fun f => if decide (id f = 3)
                           then set_dependencies (Some [1; 2]) f else f)
                   <$> rows sample_store) 3 dep_id = Done false) [1; 2])).
Proof.
  assert (is_Some (select_by_id sample_store 3)) as H by (eexists; reflexivity).
  split; [exact H|].
  exact (set_dependencies_agrees_with_validate 3 [1; 2] sample_store H).
Defined.

(** ** build_graph_data *)

Lemma build_graph_data_fold (P : gset Z) features : forall g,
  fold_left
    (fun g f =>
       let deps := deps_of f in
       {| nodes :=
            nodes g ++ [ {| node_id := id f; node_name := name f;
                            node_category := category f;
                            node_status := status_of P f;
                            node_priority := priority f;
                            node_dependencies := deps |} ];
          edges := edges g ++ ((fun dep_id => {| source := dep_id; target := id f |}) <$> deps) |})
    features g
  = {| nodes := nodes g ++ (node_of P <$> features);
       edges := edges g
                ++ (features ≫= fun f =>
                      (fun dep_id => {| source := dep_id; target := id f |}) <$> deps_of f) |}.
Proof.
  induction features as [|f fs IH]; intros g; cbn [fold_left].
  - simpl. rewrite !app_nil_r. by destruct g.
  - rewrite IH. cbn [nodes edges]. rewrite fmap_cons, bind_cons, <- !app_assoc. done.
Qed.

Lemma build_graph_data_eq features :
  build_graph_data features
  = {| nodes := node_of (passing_ids_of features) <$> features;
       edges := features ≫= fun f =>
                  (fun dep_id => {| source := dep_id; target := id f |}) <$> deps_of f |}.
Proof. unfold build_graph_data. by rewrite build_graph_data_fold. Qed.

(** X4: [build_graph_data] makes one node per feature, in order; a node is
    ["done"] exactly when its feature passes, ["pending"] exactly when
    [get_ready_features] counts the feature as ready, and ["blocked"]
    exactly when [get_blocked_features] lists the feature; every status is
    one of the four. *)
Theorem graph_status_agrees features :
  let passing_ids := passing_ids_of features in
  Forall2
    (fun f n =>
       node_id n = id f
       ∧ (node_status n = "done" <-> passes f = true)
       ∧ (node_status n = "pending" <-> is_ready passing_ids f = true)
       ∧ (node_status n = "blocked" <-> f ∈ (get_blocked_features features).*1)
       ∧ node_status n ∈ ["done"; "blocked"; "in_progress"; "pending"])
    features (nodes (build_graph_data features)).
Proof.
  intros passing_ids. rewrite build_graph_data_eq. cbn [nodes].
  apply Forall2_fmap_r, Forall_Forall2_diag, Forall_forall. intros f Hf.
  fold passing_ids. cbn [node_of node_id node_status].
  assert (Hb : f ∈ (get_blocked_features features).*1
               <-> passes f = false ∧ blocking_of passing_ids f ≠ []).
  { rewrite get_blocked_features_eq, <- list_fmap_compose, list_elem_of_fmap.
    fold passing_ids. split.
    - intros (g & -> & Hg). by apply list_elem_of_filter in Hg as [? _].
    - intros H. exists f. split; [done|]. by apply list_elem_of_filter. }
  assert (Hr : forallb (fun dep_id => bool_decide (dep_id ∈ passing_ids)) (deps_of f) = true
               <-> blocking_of passing_ids f = []).
  { apply (forallb_filter_nil (fun d => d ∈ passing_ids)). }
  unfold compose. cbn [node_of node_id node_status].
  rewrite Hb. unfold status_of, is_ready. fold (blocking_of passing_ids f).
  split; [done|].
  destruct (passes f); simpl.
  { repeat split; try done; try (by intros [? _]). set_solver. }
  destruct (blocking_of passing_ids f) as [|b bl] eqn:Hbl; cbn [length Nat.ltb Nat.leb].
  - destruct (in_progress f); simpl.
    + repeat split; try done; try (by intros [_ ?]). set_solver.
    + repeat split; try done; try (by intros [_ ?]); try (by rewrite Hr). set_solver.
  - assert (forallb (fun dep_id => bool_decide (dep_id ∈ passing_ids)) (deps_of f) = false)
      as Hfalse.
    { apply not_true_is_false. by rewrite Hr. }
    repeat split; try done.
    + destruct (in_progress f); by rewrite ?Hfalse.
    + set_solver.
Qed.

(** X5: the edges of [build_graph_data] are the dependency entries of the
    features, one edge per entry, each from the dependency to the
    dependent; on a snapshot with unique ids they are exactly the
    dependency edges of the snapshot, whether or not the dependency exists. *)
Theorem graph_edges_are_dependencies features :
  NoDup (id <$> features) ->
  let g := build_graph_data features in
  (forall d x,
     {| source := d; target := x |} ∈ edges g <-> dep_edge (feature_map_of features) x d)
  ∧ length (edges g) = sum_list ((fun f => length (deps_of f)) <$> features).
Proof.
  intros Hnd g. subst g. rewrite build_graph_data_eq. cbn [edges]. split.
  - intros d x. rewrite list_elem_of_bind. split.
    + intros (f & He & Hf). apply list_elem_of_fmap in He as (d' & [= -> ->] & Hd).
      exists f. split; [by apply feature_map_of_NoDup|done].
    + intros (f & Hf & Hd). apply feature_map_of_lookup in Hf as [Hf <-].
      exists f. split; [|done]. apply list_elem_of_fmap. by exists d.
  - clear Hnd. induction features as [|f fs IH]; [done|].
    rewrite bind_cons, length_app, length_fmap, fmap_cons. simpl. by rewrite IH.
Qed.

Lemma graph_edges_are_dependencies_witness :
  NoDup (id <$> independent_snapshot)
  ∧ {| source := 1; target := 2 |} ∈ edges (build_graph_data independent_snapshot).
Proof.
  assert (NoDup (id <$> independent_snapshot)) as Hnd.
  { apply (bool_decide_unpack (NoDup (id <$> independent_snapshot))). vm_compute. exact I. }
  split; [exact Hnd|].
  apply (proj1 (graph_edges_are_dependencies independent_snapshot Hnd) 1 2).
  exists (new_Feature 2 2 false false (Some [1])). split; [reflexivity|].
  apply list_elem_of_here.
Defined.

(** ** build_reverse_adjacency *)

Lemma fold_insert_const_dom {A} (v : A) (features : list Feature) : forall (m : gmap Z A),
  dom (fold_left (fun m f => <[id f := v]> m) features m)
  = list_to_set (id <$> features) ∪ dom m.
Proof.
  induction features as [|g fs IH]; intros m; simpl; [set_solver|].
  rewrite IH, dom_insert_L. set_solver.
Qed.

Lemma add_dependent_dom f rev d : dom (add_dependent f rev d) = dom rev.
Proof.
  unfold add_dependent. destruct (rev !! d); [|done]. apply dom_alter_L.
Qed.

Lemma add_dependent_fold_dom f ds : forall rev,
  dom (fold_left (add_dependent f) ds rev) = dom rev.
Proof.
  induction ds as [|d ds IH]; intros rev; simpl; [done|].
  by rewrite IH, add_dependent_dom.
Qed.

Lemma reverse_fold_dom fs : forall rev,
  dom (fold_left (fun reverse feature =>
                    fold_left (add_dependent feature) (deps_of feature) reverse) fs rev)
  = dom rev.
Proof.
  induction fs as [|f fs IH]; intros rev; simpl; [done|].
  by rewrite IH, add_dependent_fold_dom.
Qed.

Lemma build_reverse_adjacency_dom features :
  dom (build_reverse_adjacency features) = list_to_set (id <$> features).
Proof.
  unfold build_reverse_adjacency. rewrite reverse_fold_dom, fold_insert_const_dom.
  set_solver.
Qed.

Lemma build_edge_add_dependent fm f g d :
  dom (g_adjacency g) = dom fm ->
  g_adjacency (build_edge fm f g d) = add_dependent f (g_adjacency g) d.
Proof.
  intros Hdom. unfold build_edge, add_dependent.
  destruct (fm !! d) as [dep|] eqn:E; simpl.
  - assert (is_Some (g_adjacency g !! d)) as [l Hl].
    { apply elem_of_dom. rewrite Hdom. apply elem_of_dom. by eexists. }
    rewrite Hl. simpl. apply map_eq. intros k.
    rewrite lookup_insert, lookup_alter. case_decide; [|done]. subst k. by rewrite Hl.
  - assert (g_adjacency g !! d = None) as ->; [|done].
    apply not_elem_of_dom. rewrite Hdom. by apply not_elem_of_dom.
Qed.

Lemma build_feature_add_dependent fm f ds : forall g,
  dom (g_adjacency g) = dom fm ->
  g_adjacency (fold_left (build_edge fm f) ds g)
  = fold_left (add_dependent f) ds (g_adjacency g).
Proof.
  induction ds as [|d ds IH]; intros g Hdom; simpl; [done|].
  rewrite IH, build_edge_add_dependent; [done..|].
  by rewrite build_edge_add_dependent, add_dependent_dom.
Qed.

Lemma build_features_add_dependent fm fs : forall g,
  dom (g_adjacency g) = dom fm ->
  g_adjacency (fold_left (build_feature fm) fs g)
  = fold_left (fun reverse feature =>
                 fold_left (add_dependent feature) (deps_of feature) reverse)
      fs (g_adjacency g).
Proof.
  induction fs as [|f fs IH]; intros g Hdom; simpl; [done|].
  assert (g_adjacency (build_feature fm g f)
          = fold_left (add_dependent f) (deps_of f) (g_adjacency g)) as Hf
    by by apply build_feature_add_dependent.
  rewrite IH; [by rewrite Hf|]. by rewrite Hf, add_dependent_fold_dom.
Qed.

Lemma build_graph_adjacency features :
  g_adjacency (build_graph features) = build_reverse_adjacency features.
Proof.
  unfold build_graph, build_reverse_adjacency.
  rewrite build_features_add_dependent; [done|]. simpl.
  rewrite fold_insert_const_dom, feature_map_of_dom, dom_empty_L. set_solver.
Qed.

Lemma link_add_dependent f cp d : (link f cp d).1 = add_dependent f cp.1 d.
Proof.
  destruct cp as [children parents]. unfold link, add_dependent. simpl.
  by destruct (children !! d).
Qed.

Lemma link_fold_add_dependent f ds : forall cp,
  (fold_left (link f) ds cp).1 = fold_left (add_dependent f) ds cp.1.
Proof.
  induction ds as [|d ds IH]; intros cp; simpl; [done|].
  by rewrite IH, link_add_dependent.
Qed.

Lemma build_links_fold_add_dependent fs : forall cp,
  (fold_left (fun cp f => fold_left (link f) (deps_of f) cp) fs cp).1
  = fold_left (fun reverse feature =>
                 fold_left (add_dependent feature) (deps_of feature) reverse) fs cp.1.
Proof.
  induction fs as [|f fs IH]; intros cp; simpl; [done|].
  by rewrite IH, link_fold_add_dependent.
Qed.

Lemma build_links_children_eq features :
  (build_links features).1 = build_reverse_adjacency features.
Proof. unfold build_links. by rewrite build_links_fold_add_dependent. Qed.

(** X6: the map of dependents that [build_reverse_adjacency] returns is the
    [adjacency] map that [resolve_dependencies] builds for Kahn's algorithm
    and the [children] map of [compute_scheduling_scores]; its keys are the
    ids of the snapshot. *)
Theorem reverse_adjacency_agrees features :
  build_reverse_adjacency features = g_adjacency (build_graph features)
  ∧ build_reverse_adjacency features = (build_links features).1
  ∧ dom (build_reverse_adjacency features) = list_to_set (id <$> features).
Proof.
  split; [by rewrite build_graph_adjacency|].
  split; [by rewrite build_links_children_eq|apply build_reverse_adjacency_dom].
Qed.

Lemma build_adjacency_list_fold fs : forall (m : gmap Z Feature),
  fold_left (fun m f => <[id f := deps_of f]> m) fs (deps_of <$> m)
  = deps_of <$> fold_left (fun m f => <[id f := f]> m) fs m.
Proof.
  induction fs as [|f fs IH]; intros m; simpl; [done|].
  by rewrite <- IH, fmap_insert.
Qed.

Lemma build_adjacency_list_eq features :
  build_adjacency_list features = deps_of <$> feature_map_of features.
Proof.
  unfold build_adjacency_list, feature_map_of.
  by rewrite <- build_adjacency_list_fold, fmap_empty.
Qed.

(** X7: on a snapshot with unique ids [build_adjacency_list] maps every
    feature to its dependency list, and [build_reverse_adjacency] is its
    transpose restricted to the ids of the snapshot: [y] is listed among
    the dependents of [x] exactly when [x] is an id of the snapshot and is
    listed among the dependencies of [y], as many times as it is listed
    there. *)
Theorem reverse_adjacency_transposes features :
  NoDup (id <$> features) ->
  let reverse := build_reverse_adjacency features in
  let adjacency := build_adjacency_list features in
  dom reverse = dom adjacency
  ∧ (forall f, f ∈ features -> adjacency !! id f = Some (deps_of f))
  ∧ (forall x y, y ∈ adjz reverse x <-> (x ∈ dom adjacency ∧ x ∈ adjz adjacency y))
  ∧ (forall x y, x ∈ dom adjacency -> cnt y (adjz reverse x) = cnt x (adjz adjacency y)).
Proof.
  intros Hnd reverse adjacency. subst reverse adjacency.
  assert (Hdom : dom (build_adjacency_list features) = list_to_set (id <$> features)).
  { by rewrite build_adjacency_list_eq, dom_fmap_L, feature_map_of_dom. }
  assert (Hadj : forall f, f ∈ features ->
            build_adjacency_list features !! id f = Some (deps_of f)).
  { intros f Hf. rewrite build_adjacency_list_eq, lookup_fmap.
    by rewrite (feature_map_of_NoDup features f Hnd Hf). }
  assert (Hnone : forall y, y ∉ id <$> features ->
            adjz (build_adjacency_list features) y = []).
  { intros y Hy. unfold adjz.
    assert (build_adjacency_list features !! y = None) as ->; [|done].
    apply not_elem_of_dom. rewrite Hdom. by rewrite elem_of_list_to_set. }
  destruct (build_graph_spec features Hnd) as (_ & Hcnt & Hids & _).
  rewrite build_graph_adjacency in Hcnt, Hids.
  assert (Hc : forall x y, x ∈ dom (build_adjacency_list features) ->
            cnt y (adjz (build_reverse_adjacency features) x)
            = cnt x (adjz (build_adjacency_list features) y)).
  { intros x y Hx. rewrite Hdom, elem_of_list_to_set in Hx.
    apply list_elem_of_fmap in Hx as (c & -> & Hc).
    destruct (decide (y ∈ id <$> features)) as [Hy|Hy].
    - apply list_elem_of_fmap in Hy as (f & -> & Hf).
      rewrite (Hcnt f c Hf Hc). unfold adjz at 1. by rewrite (Hadj f Hf).
    - rewrite (Hnone y Hy). rewrite cnt_zero; [done|].
      intros H. by apply Hy, (Hids (id c)). }
  split; [by rewrite build_reverse_adjacency_dom, Hdom|].
  split; [exact Hadj|]. split; [|exact Hc].
  intros x y. split.
  - intros Hy. assert (x ∈ dom (build_adjacency_list features)) as Hx.
    { rewrite Hdom, <- build_reverse_adjacency_dom. apply elem_of_dom.
      unfold adjz in Hy. destruct (build_reverse_adjacency features !! x); [done|].
      by apply elem_of_nil in Hy. }
    split; [done|]. apply cnt_pos. rewrite <- (Hc x y Hx). by apply cnt_pos.
  - intros [Hx Hy]. apply cnt_pos. rewrite (Hc x y Hx). by apply cnt_pos.
Qed.

Lemma reverse_adjacency_transposes_witness :
  NoDup (id <$> scores_snapshot)
  ∧ adjz (build_reverse_adjacency scores_snapshot) 1 = [2; 3]
  ∧ 1 ∈ adjz (build_adjacency_list scores_snapshot) 3.
Proof.
  assert (NoDup (id <$> scores_snapshot)) as Hnd.
  { apply (bool_decide_unpack (NoDup (id <$> scores_snapshot))). vm_compute. exact I. }
  split; [exact Hnd|]. split; [vm_compute; reflexivity|].
  destruct (reverse_adjacency_transposes scores_snapshot Hnd) as (_ & _ & H & _).
  apply (H 1 3). assert (adjz (build_reverse_adjacency scores_snapshot) 1 = [2; 3]) as ->
    by (vm_compute; reflexivity).
  apply list_elem_of_further, list_elem_of_here.
Defined.

(** ** The missing dependencies reported by [resolve_dependencies] *)

Lemma build_edge_missing fm f g d x :
  g_missing (build_edge fm f g d) !! x
  = if decide (x = id f ∧ fm !! d = None)
    then Some (blockedz (g_missing g) x ++ [d]) else g_missing g !! x.
Proof.
  unfold build_edge. destruct (fm !! d) as [dep|] eqn:E; simpl.
  - rewrite decide_False; [done|]. by intros [_ ?].
  - rewrite lookup_insert. destruct (decide (id f = x)) as [<-|Hne].
    + by rewrite decide_True.
    + rewrite decide_False; [done|]. by intros [-> _].
Qed.

Lemma build_feature_missing_fold fm f deps : forall g x,
  g_missing (fold_left (build_edge fm f) deps g) !! x
  = if decide (x = id f ∧ filter (fun d => fm !! d = None) deps ≠ [])
    then Some (blockedz (g_missing g) x ++ filter (fun d => fm !! d = None) deps)
    else g_missing g !! x.
Proof.
  induction deps as [|d deps IH]; intros g x; simpl.
  - rewrite decide_False; [done|]. by intros [_ ?].
  - rewrite IH, filter_cons. unfold blockedz. rewrite !build_edge_missing.
    destruct (decide (x = id f)) as [->|Hne].
    2:{ rewrite !decide_False; [done|by intros [? _]..]. }
    destruct (decide (fm !! d = None)) as [Hd|Hd].
    + rewrite (decide_True (P := id f = id f ∧ fm !! d = None)) by done.
      rewrite (decide_True (P := id f = id f ∧ d :: _ ≠ [])) by done. simpl.
      destruct (filter (fun d => fm !! d = None) deps) as [|m ms].
      * rewrite decide_False by (by intros [_ ?]). done.
      * rewrite decide_True by done. by rewrite <- app_assoc.
    + rewrite (decide_False (P := id f = id f ∧ fm !! d = None)) by (by intros [_ ?]).
      destruct (filter (fun d => fm !! d = None) deps) as [|m ms].
      * rewrite !decide_False by (by intros [_ ?]). done.
      * by rewrite !decide_True.
Qed.

Lemma build_features_missing fm fs : forall g,
  NoDup (id <$> fs) ->
  (forall f, f ∈ fs ->
     g_missing (fold_left (build_feature fm) fs g) !! id f
     = if decide (filter (fun d => fm !! d = None) (deps_of f) ≠ [])
       then Some (blockedz (g_missing g) (id f)
                  ++ filter (fun d => fm !! d = None) (deps_of f))
       else g_missing g !! id f)
  ∧ (forall x, x ∉ id <$> fs ->
     g_missing (fold_left (build_feature fm) fs g) !! x = g_missing g !! x).
Proof.
  induction fs as [|f0 fs IH]; intros g Hnd.
  - split; [by intros f H%elem_of_nil|done].
  - rewrite fmap_cons in Hnd. apply NoDup_cons in Hnd as [Hf0 Hnd].
    cbn [fold_left]. destruct (IH (build_feature fm g f0) Hnd) as (Hin & Hout).
    assert (Hne : forall f, f ∈ fs -> id f ≠ id f0).
    { intros f Hf Heq. apply Hf0. rewrite <- Heq. apply list_elem_of_fmap. by exists f. }
    assert (Hother : forall x, x ≠ id f0 ->
              g_missing (build_feature fm g f0) !! x = g_missing g !! x).
    { intros x Hx. unfold build_feature. rewrite build_feature_missing_fold.
      rewrite decide_False; [done|]. by intros [? _]. }
    split.
    + intros f [->|Hf]%elem_of_cons.
      * rewrite (Hout (id f0) Hf0). unfold build_feature.
        rewrite build_feature_missing_fold.
        destruct (decide (filter (fun d => fm !! d = None) (deps_of f0) ≠ [])).
        -- by rewrite decide_True.
        -- rewrite decide_False; [done|]. by intros [_ ?].
      * rewrite (Hin f Hf). unfold blockedz.
        by rewrite (Hother (id f) (Hne f Hf)).
    + intros x Hx. rewrite fmap_cons in Hx. apply not_elem_of_cons in Hx as [Hx0 Hx].
      by rewrite (Hout x Hx), (Hother x Hx0).
Qed.

Lemma resolve_dependencies_missing features r :
  resolve_dependencies features = Done r ->
  missing_dependencies r = g_missing (build_graph features).
Proof.
  unfold resolve_dependencies.
  destruct (kahn_loop _ _ _ _) as [st| |]; [|done..]. cbn [mbind outcome_bind].
  destruct (_ <? _).
  - destruct (_detect_cycles _) as [cycles| |]; [|done..]. by intros [= <-].
  - by intros [= <-].
Qed.

Lemma g_missing_lookup features :
  NoDup (id <$> features) ->
  (forall f, f ∈ features ->
     g_missing (build_graph features) !! id f
     = let missing := filter (fun d => d ∉ id <$> features) (deps_of f) in
       if decide (missing = []) then None else Some missing)
  ∧ (forall k, is_Some (g_missing (build_graph features) !! k) -> k ∈ id <$> features).
Proof.
  intros Hnd. unfold build_graph.
  destruct (build_features_missing (feature_map_of features) features
              (init_graph features) Hnd) as (Hin & Hout).
  assert (Hflt : forall f,
            filter (fun d => feature_map_of features !! d = None) (deps_of f)
            = filter (fun d => d ∉ id <$> features) (deps_of f)).
  { intros f. apply list_filter_iff. intros d.
    rewrite <- feature_map_of_is_Some, eq_None_not_Some. done. }
  split.
  - intros f Hf. rewrite (Hin f Hf), Hflt. simpl.
    destruct (filter (fun d => d ∉ id <$> features) (deps_of f)) as [|m ms].
    + by repeat case_decide.
    + by repeat case_decide.
  - intros k Hk. destruct (decide (k ∈ id <$> features)) as [|Hn]; [done|].
    rewrite (Hout k Hn) in Hk. simpl in Hk. rewrite lookup_empty in Hk.
    by destruct Hk.
Qed.

(** X8: on a snapshot with unique ids, [missing_dependencies] has an entry
    for a feature exactly when one of its dependency ids is not an id of
    the snapshot, and the entry lists those ids in the order of the
    dependency list; it has no entry under any other key. *)
Theorem missing_dependencies_reported features :
  NoDup (id <$> features) ->
  exists r,
    resolve_dependencies features = Done r
    ∧ (forall f, f ∈ features ->
         missing_dependencies r !! id f
         = let missing := filter (fun d => d ∉ id <$> features) (deps_of f) in
           if decide (missing = []) then None else Some missing)
    ∧ (forall k, is_Some (missing_dependencies r !! k) -> k ∈ id <$> features).
Proof.
  intros Hnd. destruct (resolve_dependencies_spec features Hnd) as (r & _ & Hr & _).
  exists r. split; [exact Hr|].
  rewrite (resolve_dependencies_missing features r Hr). by apply g_missing_lookup.
Qed.

Lemma missing_dependencies_reported_witness :
  NoDup (id <$> [missing_dep_feature])
  ∧ exists r, resolve_dependencies [missing_dep_feature] = Done r
      ∧ missing_dependencies r !! 3 = Some [999].
Proof.
  assert (NoDup (id <$> [missing_dep_feature])) as Hnd.
  { apply (bool_decide_unpack (NoDup (id <$> [missing_dep_feature]))). vm_compute. exact I. }
  split; [exact Hnd|].
  destruct (missing_dependencies_reported [missing_dep_feature] Hnd) as (r & Hr & Hm & _).
  exists r. split; [exact Hr|].
  exact (Hm missing_dep_feature (list_elem_of_here _ _)).
Defined.

(** ** Sorting with a comparator *)

Lemma js_insert_StronglySorted {A} (le : A -> A -> bool) x l :
  (forall a b, le a b = false -> le b a = true) ->
  (forall a b c, le a b = true -> le b c = true -> le a c = true) ->
  StronglySorted (fun a b => le a b = true) l ->
  StronglySorted (fun a b => le a b = true) (js_insert le x l).
Proof.
  intros Htot Htrans. induction 1 as [|y l Hs IH Hall]; simpl.
  - repeat constructor.
  - destruct (le x y) eqn:E.
    + constructor; [by constructor|].
      constructor; [done|]. eapply Forall_impl; [exact Hall|].
      intros z Hz. by eapply Htrans.
    + constructor; [exact IH|].
      rewrite js_insert_perm. constructor; [by apply Htot|exact Hall].
Qed.

Lemma js_sort_StronglySorted {A} (le : A -> A -> bool) l :
  (forall a b, le a b = false -> le b a = true) ->
  (forall a b c, le a b = true -> le b c = true -> le a c = true) ->
  StronglySorted (fun a b => le a b = true) (js_sort le l).
Proof.
  intros Htot Htrans. unfold js_sort. induction l as [|x l IH]; simpl; [constructor|].
  by apply js_insert_StronglySorted.
Qed.

Lemma js_sort_ext {A} (le le' : A -> A -> bool) l :
  (forall a b, le a b = le' a b) -> js_sort le l = js_sort le' l.
Proof.
  intros Hext. unfold js_sort. induction l as [|x l IH]; simpl; [done|].
  rewrite IH. generalize (foldr (js_insert le') [] l) as k.
  induction k as [|y k IHk]; simpl; [done|]. by rewrite Hext, IHk.
Qed.

Lemma StronglySorted_impl {A} (R R' : relation A) l :
  (forall a b, R a b -> R' a b) -> StronglySorted R l -> StronglySorted R' l.
Proof.
  intros H. induction 1 as [|x l Hs IH Hall]; constructor; [done|].
  eapply Forall_impl; [exact Hall|]. intros y. apply H.
Qed.

Lemma slice_to_StronglySorted {A} (R : relation A) limit l :
  StronglySorted R l -> StronglySorted R (slice_to limit l).
Proof.
  intros H. unfold slice_to.
  destruct (limit <? 0);
    [rewrite <- (take_drop (Z.to_nat (Z.max 0 (Z.of_nat (length l) + limit))) l) in H
    |rewrite <- (take_drop (Z.to_nat limit) l) in H];
    by apply StronglySorted_app_1_l in H.
Qed.

(** ** The order of the ready list *)

Lemma inject_Z_le_0 z : Qle_bool (inject_Z z) 0 = true <-> z <= 0.
Proof. rewrite Qle_bool_iff. rewrite (Zle_Qle z 0). done. Qed.

Lemma ready_cmp_before scores a b :
  Qle_bool (ready_cmp scores a b) 0 = true <-> ready_before scores a b.
Proof.
  unfold ready_cmp, ready_before.
  generalize (default 0%Q (scores !! id a)) as sa.
  generalize (default 0%Q (scores !! id b)) as sb. intros sb sa.
  destruct (Qeq_bool (sb - sa) 0) eqn:E; simpl.
  - apply Qeq_bool_iff in E.
    destruct (Z.eqb_spec (priority a - priority b) 0) as [Hp|Hp]; simpl;
      rewrite inject_Z_le_0; split.
    + intros H. right. split; [lra|]. right. lia.
    + intros [H|[_ H]]; [lra|lia].
    + intros H. right. split; [lra|]. left. lia.
    + intros [H|[_ H]]; [lra|lia].
  - apply Qeq_bool_neq in E. rewrite Qle_bool_iff. split.
    + intros H. left. lra.
    + intros [H|[H _]]; [lra|]. destruct E. lra.
Qed.

Lemma ready_cmp_tool_before scores a b :
  Qle_bool (ready_cmp_tool scores a b) 0 = true <-> ready_before scores a b.
Proof.
  unfold ready_cmp_tool, ready_before.
  generalize (default 0%Q (scores !! id a)) as sa.
  generalize (default 0%Q (scores !! id b)) as sb. intros sb sa.
  destruct (Qeq_bool sa sb) eqn:E; simpl.
  - apply Qeq_bool_iff in E.
    destruct (Z.eqb_spec (priority a) (priority b)) as [Hp|Hp]; simpl;
      rewrite inject_Z_le_0; split.
    + intros H. right. split; [done|]. right. lia.
    + intros [H|[_ H]]; [lra|lia].
    + intros H. right. split; [done|]. left. lia.
    + intros [H|[_ H]]; [lra|lia].
  - apply Qeq_bool_neq in E. rewrite Qle_bool_iff. split.
    + intros H. left. lra.
    + intros [H|[H _]]; [lra|]. by destruct E.
Qed.

Lemma ready_cmp_agree scores a b :
  Qle_bool (ready_cmp scores a b) 0 = Qle_bool (ready_cmp_tool scores a b) 0.
Proof.
  apply eq_true_iff_eq. by rewrite ready_cmp_before, ready_cmp_tool_before.
Qed.

Lemma ready_before_total scores a b :
  Qle_bool (ready_cmp scores a b) 0 = false -> Qle_bool (ready_cmp scores b a) 0 = true.
Proof.
  intros H. apply ready_cmp_before. apply not_true_iff_false in H.
  rewrite ready_cmp_before in H. unfold ready_before in *.
  generalize dependent (default 0%Q (scores !! id a)).
  generalize dependent (default 0%Q (scores !! id b)). intros sb sa H.
  destruct (Qlt_le_dec sa sb) as [Hlt|Hle]; [by left|].
  destruct (Qlt_le_dec sb sa) as [Hlt'|Hle']; [destruct H; by left|].
  right. split; [lra|].
  destruct (Z.lt_trichotomy (priority a) (priority b)) as [Hp|[Hp|Hp]].
  - destruct H. right. split; [lra|]. by left.
  - right. split; [done|]. destruct (Z.le_gt_cases (id b) (id a)); [done|].
    destruct H. right. split; [lra|]. right. lia.
  - by left.
Qed.

Lemma ready_before_trans scores a b c :
  ready_before scores a b -> ready_before scores b c -> ready_before scores a c.
Proof.
  unfold ready_before.
  generalize (default 0%Q (scores !! id a)) as sa.
  generalize (default 0%Q (scores !! id b)) as sb.
  generalize (default 0%Q (scores !! id c)) as sc. intros sc sb sa.
  intros [H1|[E1 H1]] [H2|[E2 H2]].
  - left. lra.
  - left. lra.
  - left. lra.
  - right. split; [lra|]. lia.
Qed.

Lemma ready_sort_sorted scores l :
  StronglySorted (ready_before scores)
    (js_sort (fun a b => Qle_bool (ready_cmp scores a b) 0) l).
Proof.
  eapply StronglySorted_impl; [|apply js_sort_StronglySorted].
  - intros a b. apply ready_cmp_before.
  - apply ready_before_total.
  - intros a b c. rewrite !ready_cmp_before. apply ready_before_trans.
Qed.

(** X9: whenever [get_ready_features] returns, the list is in the order
    of highest scheduling score first, then lowest priority number, then
    lowest id, and it holds at most [limit] features when [limit] is not
    negative. *)
Theorem ready_features_in_schedule_order gas features limit r :
  get_ready_features gas features limit = Done r ->
  exists scores,
    compute_scheduling_scores gas features = Done scores
    ∧ StronglySorted (ready_before scores) r
    ∧ (0 <= limit -> Z.of_nat (length r) <= limit).
Proof.
  unfold get_ready_features.
  destruct (compute_scheduling_scores gas features) as [scores| |]; simpl; [|done..].
  intros [= <-]. exists scores. split; [done|]. split.
  - apply slice_to_StronglySorted, ready_sort_sorted.
  - intros Hl. unfold slice_to. destruct (Z.ltb_spec limit 0); [lia|].
    rewrite length_take. lia.
Qed.

Lemma ready_features_in_schedule_order_witness :
  get_ready_features 10 priority_snapshot 2
  = Done [new_Feature 3 1 false false None; new_Feature 2 5 false false None]
  ∧ exists scores,
      compute_scheduling_scores 10 priority_snapshot = Done scores
      ∧ StronglySorted (ready_before scores)
          [new_Feature 3 1 false false None; new_Feature 2 5 false false None].
Proof.
  assert (get_ready_features 10 priority_snapshot 2
          = Done [new_Feature 3 1 false false None; new_Feature 2 5 false false None]) as H
    by (vm_compute; reflexivity).
  split; [exact H|].
  destruct (ready_features_in_schedule_order _ _ _ _ H) as (scores & Hs & Hsorted & _).
  by exists scores.
Defined.

Lemma length_slice_to {A} limit (l : list A) :
  0 <= limit -> Z.of_nat (length (slice_to limit l)) = Z.min (Z.of_nat (length l)) limit.
Proof.
  intros H. unfold slice_to. destruct (Z.ltb_spec limit 0); [lia|].
  rewrite length_take. lia.
Qed.

(** X10: the tool [feature_get_ready] returns the list that
    [get_ready_features] returns on the rows of the table (the two
    comparators order every pair alike); [total_ready] is the number of
    ready features, and [count] is the length of the returned list unless
    [limit] is negative, when it is [limit] itself. *)
Theorem feature_get_ready_agrees gas limit s :
  match feature_get_ready gas limit s, get_ready_features gas (rows s) limit with
  | Done rr, Done r =>
      rr_features rr = r
      ∧ total_ready rr
        = Z.of_nat (length (filter (fun f => is_ready (passing_ids_of (rows s)) f = true)
                              (rows s)))
      ∧ rr_count rr = (if limit <? 0 then limit else Z.of_nat (length r))
  | OutOfGas, OutOfGas => True
  | NullDeref, NullDeref => True
  | _, _ => False
  end.
Proof.
  unfold feature_get_ready, get_ready_features.
  destruct (compute_scheduling_scores gas (rows s)) as [scores| |]; simpl; [|done..].
  rewrite <- (js_sort_ext _ _ _ (ready_cmp_agree scores)).
  split; [done|]. split.
  - by rewrite js_sort_perm.
  - destruct (Z.ltb_spec limit 0); [lia|]. rewrite length_slice_to by done. done.
Qed.

(** ** The views of the explorer *)

Lemma priority_id_total a b :
  ((let priorityDiff := priority a - priority b in
    if negb (priorityDiff =? 0) then priorityDiff else id a - id b) <=? 0) = true
  <-> (priority a < priority b ∨ (priority a = priority b ∧ id a <= id b)).
Proof.
  cbv zeta. destruct (Z.eqb_spec (priority a - priority b) 0); simpl;
    rewrite Z.leb_le; lia.
Qed.

(** X11: the two views of the explorer split the features between them:
    the completed view holds the passing features in ascending order of
    priority, then id; the pending view holds the others, highest score
    first. *)
Theorem explorer_views_partition features scores :
  let pending_view := getCurrentFeatures features scores pending in
  let completed_view := getCurrentFeatures features scores completed in
  pending_view ≡ₚ filter (fun f => passes f = false) features
  ∧ completed_view ≡ₚ filter (fun f => passes f = true) features
  ∧ pending_view ++ completed_view ≡ₚ features
  ∧ StronglySorted
      (fun a b => (default 0 (scores !! id b) <= default 0 (scores !! id a))%Q) pending_view
  ∧ StronglySorted
      (fun a b => priority a < priority b ∨ (priority a = priority b ∧ id a <= id b))
      completed_view.
Proof.
  cbv zeta. unfold getCurrentFeatures.
  split; [apply js_sort_perm|]. split; [apply js_sort_perm|]. split; [|split].
  - rewrite !js_sort_perm. clear scores.
    induction features as [|f fs IH]; [done|].
    rewrite !filter_cons. destruct (passes f); repeat case_decide; try done.
    + by rewrite <- Permutation_middle, IH.
    + simpl. by rewrite IH.
  - eapply StronglySorted_impl; [|apply js_sort_StronglySorted].
    + intros a b H. apply Qle_bool_iff in H. simpl in H. lra.
    + intros a b H. apply Qle_bool_iff. apply not_true_iff_false in H.
      rewrite Qle_bool_iff in H.
      generalize dependent (default 0%Q (scores !! id a)).
      generalize dependent (default 0%Q (scores !! id b)). intros; lra.
    + intros a b c. rewrite !Qle_bool_iff.
      generalize (default 0%Q (scores !! id a)).
      generalize (default 0%Q (scores !! id b)).
      generalize (default 0%Q (scores !! id c)). intros; lra.
  - eapply StronglySorted_impl; [|apply js_sort_StronglySorted].
    + intros a b. apply priority_id_total.
    + intros a b H. apply priority_id_total. apply not_true_iff_false in H.
      rewrite priority_id_total in H. lia.
    + intros a b c. rewrite !priority_id_total. lia.
Qed.

(** ** Reading a row back after an update *)

Lemma filter_fmap_id (g : Feature -> Feature) (fid : Z) (l : list Feature) :
  (forall f, id (g f) = id f) ->
  filter (fun f => id f = fid) (g <$> l) = g <$> filter (fun f => id f = fid) l.
Proof.
  intros Hg. induction l as [|f l IH]; [done|].
  rewrite fmap_cons, !filter_cons, Hg, IH.
  by destruct (decide (id f = fid)).
Qed.

Lemma select_by_id_update fid upd s x :
  (forall f, id (upd f) = id f) ->
  select_by_id (update_where_id fid upd s) x
  = (fun f => if decide (id f = fid) then upd f else f) <$> select_by_id s x.
Proof.
  intros Hupd. unfold select_by_id, update_where_id. cbn [rows].
  rewrite filter_fmap_id.
  - by destruct (filter (fun f => id f = x) (rows s)).
  - intros f. by destruct (decide (id f = fid)).
Qed.

Lemma select_by_id_None s fid :
  select_by_id s fid = None <-> fid ∉ id <$> rows s.
Proof.
  unfold select_by_id. split.
  - intros H (f & -> & Hf)%list_elem_of_fmap.
    assert (f ∈ filter (fun g => id g = id f) (rows s)) as Hin
      by by apply list_elem_of_filter.
    destruct (filter (fun g => id g = id f) (rows s)); [by apply elem_of_nil in Hin|done].
  - intros H. destruct (filter (fun f => id f = fid) (rows s)) as [|f l] eqn:E; [done|].
    assert (f ∈ filter (fun f => id f = fid) (rows s)) as Hin
      by (rewrite E; apply list_elem_of_here).
    apply list_elem_of_filter in Hin as [<- Hin]. destruct H.
    apply list_elem_of_fmap. by exists f.
Qed.

Lemma update_where_id_id fid upd s :
  (forall f, id (upd f) = id f) ->
  id <$> rows (update_where_id fid upd s) = id <$> rows s.
Proof.
  intros Hupd. unfold update_where_id. cbn [rows]. rewrite <- list_fmap_compose.
  apply list_fmap_ext. intros _ f _. simpl. by destruct (decide (id f = fid)).
Qed.

Lemma update_where_id_same fid upd s :
  (forall f, f ∈ rows s -> id f = fid -> upd f = f) ->
  update_where_id fid upd s = s.
Proof.
  intros Hupd. destruct s as [rws lr lk]. unfold update_where_id. cbn [rows last_rowid lock_held].
  f_equal. cbn [rows] in Hupd. induction rws as [|f l IH]; [done|].
  rewrite fmap_cons. f_equal.
  - destruct (decide (id f = fid)); [|done]. apply Hupd; [apply list_elem_of_here|done].
  - apply IH. intros g Hg. apply Hupd. by apply list_elem_of_further.
Qed.

Lemma update_where_id_absent fid upd s :
  fid ∉ id <$> rows s -> update_where_id fid upd s = s.
Proof.
  intros H. apply update_where_id_same. intros f Hf Hid. destruct H.
  apply list_elem_of_fmap. by exists f.
Qed.

Lemma id_inj_rows (l : list Feature) f g :
  NoDup (id <$> l) -> f ∈ l -> g ∈ l -> id f = id g -> f = g.
Proof.
  intros Hnd Hf Hg Heq.
  apply list_elem_of_lookup in Hf as [i Hi]. apply list_elem_of_lookup in Hg as [j Hj].
  assert (i = j) as ->.
  { eapply NoDup_lookup; [exact Hnd| |].
    - by rewrite list_lookup_fmap, Hi.
    - by rewrite list_lookup_fmap, Hj, Heq. }
  congruence.
Qed.

(** ** Refused calls *)

Lemma fetch_updated_Some fid upd s f :
  (forall f, id (upd f) = id f) ->
  select_by_id s fid = Some f ->
  fetch_updated fid (update_where_id fid upd s) = Reply (upd f).
Proof.
  intros Hupd Hsel. unfold fetch_updated. rewrite select_by_id_update, Hsel by done.
  simpl. apply select_by_id_Some in Hsel as [_ Hid]. by rewrite decide_True.
Qed.

(** X12: a call that a writing tool refuses leaves the table as it was. *)
Theorem refused_calls_change_nothing c s :
  refused c s = true -> run_call c s = s.
Proof.
  destruct c; cbn [refused run_call].
  - unfold feature_mark_passing. by destruct (select_by_id s feature_id).
  - unfold feature_mark_failing. destruct (select_by_id s feature_id) eqn:E; [|done].
    cbn [snd]. by erewrite fetch_updated_Some.
  - unfold feature_skip. destruct (select_by_id s feature_id); [|done].
    destruct (passes f); [done|]. by destruct (lockPriority s).
  - unfold feature_mark_in_progress. destruct (select_by_id s feature_id) eqn:E; [|done].
    destruct (passes f); [done|]. destruct (in_progress f); [done|].
    cbn [snd]. by erewrite fetch_updated_Some.
  - unfold feature_claim_and_get. destruct (select_by_id s feature_id) eqn:E; [|done].
    destruct (passes f); [done|]. cbn [snd]. destruct (in_progress f); cbn [negb].
    + unfold fetch_updated. by rewrite E.
    + by erewrite fetch_updated_Some.
  - unfold feature_clear_in_progress. destruct (select_by_id s feature_id) eqn:E; [|done].
    cbn [snd]. by erewrite fetch_updated_Some.
  - unfold feature_create_bulk. destruct (validate_bulk 0 features); [done|].
    destruct (lockPriority s); [|done].
    destruct (bulk_insert _ _ _ _ _) as [s2 created].
    by destruct (bulk_link _ _ _ _ _) as [s3 n].
  - unfold feature_create. destruct (lockPriority s) as [s1|]; [|done].
    pose proof (select_inserted (next_priority s1) c n d st s1) as Hsel.
    destruct (insert_feature (next_priority s1) c n d st s1) as [s2 row].
    simpl in Hsel. by rewrite Hsel.
  - unfold feature_add_dependency. destruct (feature_id =? dependency_id); [done|].
    destruct (select_by_id s feature_id); [|done].
    destruct (select_by_id s dependency_id); [|done].
    destruct (_ >=? _); [done|]. destruct (bool_decide _); [done|].
    by destruct (would_create_circular_dependency _ _ _) as [[]| |].
  - unfold feature_remove_dependency. destruct (select_by_id s feature_id); [|done].
    by destruct (negb _).
  - unfold feature_set_dependencies. destruct (bool_decide _); [done|].
    destruct (_ >? _); [done|]. destruct (negb _); [done|].
    destruct (select_by_id s feature_id); [|done].
    destruct (0 <? _)%nat; [done|]. by destruct (check_cycles _ _ _).
Qed.

Lemma refused_calls_change_nothing_witness :
  refused (CallAddDependency 2 3) sample_store = true
  ∧ run_call (CallAddDependency 2 3) sample_store = sample_store.
Proof.
  assert (refused (CallAddDependency 2 3) sample_store = true) as H
    by (vm_compute; reflexivity).
  split; [exact H|]. exact (refused_calls_change_nothing _ _ H).
Defined.

(** ** Claiming a feature *)

Lemma set_in_progress_undo f :
  in_progress f = false -> set_in_progress false (set_in_progress true f) = f.
Proof. intros H. destruct f. simpl in *. by subst. Qed.

(** X13: a feature can be claimed once: after [feature_mark_in_progress]
    succeeds, the feature is in progress and not passing, a second
    [feature_mark_in_progress] on it is refused and changes nothing,
    [feature_claim_and_get] returns it with [already_claimed], and, on a
    table with unique ids, [feature_clear_in_progress] gives back the table
    from before the claim. *)
Theorem claim_is_exclusive feature_id s s' f :
  NoDup (id <$> rows s) ->
  feature_mark_in_progress feature_id s = (s', Reply f) ->
  id f = feature_id ∧ in_progress f = true ∧ passes f = false
  ∧ feature_mark_in_progress feature_id s' = (s', Refused (AlreadyInProgress feature_id))
  ∧ feature_claim_and_get feature_id s' = (s', Reply (f, true))
  ∧ (feature_clear_in_progress feature_id s').1 = s.
Proof.
  intros Hnd. unfold feature_mark_in_progress at 1.
  destruct (select_by_id s feature_id) as [f0|] eqn:E; [|done].
  destruct (passes f0) eqn:Hp; [done|]. destruct (in_progress f0) eqn:Hip; [done|].
  rewrite (fetch_updated_Some _ _ _ f0) by done. intros [= <- <-].
  pose proof (select_by_id_Some _ _ _ E) as [Hin Hid].
  assert (Hsel : select_by_id (update_where_id feature_id (set_in_progress true) s) feature_id
                 = Some (set_in_progress true f0)).
  { rewrite select_by_id_update, E by done. simpl. by rewrite decide_True. }
  split; [done|]. split; [done|]. split; [done|]. split; [|split].
  - unfold feature_mark_in_progress. by rewrite Hsel; simpl; rewrite Hp.
  - unfold feature_claim_and_get. rewrite Hsel. simpl. rewrite Hp. simpl.
    unfold fetch_updated. by rewrite Hsel.
  - unfold feature_clear_in_progress. rewrite Hsel. cbn [fst].
    destruct s as [rws lr lk]. unfold update_where_id. cbn [rows last_rowid lock_held] in *.
    f_equal. rewrite <- list_fmap_compose. rewrite <- (list_fmap_id rws) at 2.
    apply list_fmap_ext. intros _ g Hg%list_elem_of_lookup_2. simpl.
    destruct (decide (id g = feature_id)) as [Hg'|Hg']; simpl.
    + rewrite decide_True by done.
      assert (g = f0) as -> by (eapply id_inj_rows; [exact Hnd|done..|congruence]).
      by apply set_in_progress_undo.
    + by rewrite decide_False.
Qed.

Lemma claim_is_exclusive_witness :
  NoDup (id <$> rows sample_store)
  ∧ feature_mark_in_progress 2
      (update_where_id 2 (set_in_progress true) sample_store)
    = (update_where_id 2 (set_in_progress true) sample_store,
       Refused (AlreadyInProgress 2)).
Proof.
  assert (NoDup (id <$> rows sample_store)) as Hnd.
  { apply (bool_decide_unpack (NoDup (id <$> rows sample_store))). vm_compute. exact I. }
  split; [exact Hnd|].
  assert (feature_mark_in_progress 2 sample_store
          = (update_where_id 2 (set_in_progress true) sample_store,
             Reply (new_Feature 2 2 false true None))) as H by reflexivity.
  exact (proj1 (proj2 (proj2 (proj2 (claim_is_exclusive 2 sample_store _ _ Hnd H))))).
Defined.

(** ** Adding and removing a dependency *)

Lemma sorted_perm_eq (l k : list Z) :
  StronglySorted Z.le l -> StronglySorted Z.le k -> l ≡ₚ k -> l = k.
Proof. intros Hl Hk Hp. by eapply (StronglySorted_unique Z.le). Qed.

Lemma filter_sort_snoc d l :
  StronglySorted Z.le l -> d ∉ l ->
  filter (fun x => x ≠ d) (sort_ids (l ++ [d])) = l.
Proof.
  intros Hs Hd. apply sorted_perm_eq; [|done|].
  - apply filter_sorted, sort_ids_sorted.
  - unfold sort_ids. rewrite js_sort_perm, filter_app, filter_cons_False by naive_solver.
    rewrite filter_nil, app_nil_r.
    clear Hs. induction l as [|x l IH]; [done|].
    apply not_elem_of_cons in Hd as [Hx Hd].
    rewrite filter_cons_True by done. by rewrite IH.
Qed.

(** X14: on a table with unique ids whose dependency lists are stored in
    ascending order and never stored empty, removing a dependency that was
    just added restores the table: [feature_remove_dependency] succeeds,
    replies with the dependency list from before, and the table is the one
    from before the addition. *)
Theorem add_then_remove_restores feature_id dependency_id s s1 deps1 :
  NoDup (id <$> rows s) ->
  deps_sorted s ->
  Forall (fun f => dependencies f ≠ Some []) (rows s) ->
  feature_add_dependency feature_id dependency_id s = (s1, Ok deps1) ->
  exists f,
    select_by_id s feature_id = Some f
    ∧ dependency_id ∈ deps1
    ∧ feature_remove_dependency feature_id dependency_id s1 = (s, Ok (deps_of f)).
Proof.
  intros Hnd Hsorted Hne. unfold feature_add_dependency.
  destruct (feature_id =? dependency_id); [done|].
  destruct (select_by_id s feature_id) as [f|] eqn:E; [|done].
  destruct (select_by_id s dependency_id); [|done].
  destruct (_ >=? _); [done|].
  destruct (decide (dependency_id ∈ deps_of f)) as [Hin|Hnin].
  { by rewrite bool_decide_eq_true_2. }
  rewrite bool_decide_eq_false_2 by done.
  destruct (would_create_circular_dependency _ _ _) as [[]| |]; try done.
  intros [= <- <-]. exists f. split; [done|].
  pose proof (select_by_id_Some _ _ _ E) as [Hf Hid].
  assert (Hsf : StronglySorted Z.le (deps_of f)).
  { unfold deps_sorted in Hsorted. by eapply Forall_forall in Hsorted. }
  split.
  { unfold sort_ids. rewrite js_sort_perm. apply elem_of_app. right. apply list_elem_of_here. }
  unfold feature_remove_dependency.
  rewrite select_by_id_update, E by done. simpl. rewrite decide_True by done.
  cbn [deps_of set_dependencies dependencies default].
  rewrite bool_decide_eq_true_2.
  2:{ unfold sort_ids. rewrite js_sort_perm. apply elem_of_app. right. apply list_elem_of_here. }
  cbn [negb]. unfold Datatypes.id. rewrite filter_sort_snoc by done. f_equal.
  destruct s as [rws lr lk]. unfold update_where_id. cbn [rows last_rowid lock_held] in *.
  f_equal. rewrite <- list_fmap_compose. rewrite <- (list_fmap_id rws) at 2.
  apply list_fmap_ext. intros _ g Hg%list_elem_of_lookup_2. simpl.
  destruct (decide (id g = feature_id)) as [Hg'|Hg']; simpl.
  - rewrite decide_True by done.
    assert (g = f) as -> by (eapply id_inj_rows; [exact Hnd|done..|congruence]).
    eapply Forall_forall in Hne; [|exact Hf].
    destruct f as [? ? ? ? ? ? ? ? [[|x l]|]]; simpl in *; done.
  - by rewrite decide_False.
Qed.

Lemma add_then_remove_restores_witness :
  NoDup (id <$> rows sample_store)
  ∧ deps_sorted sample_store
  ∧ exists s1,
      feature_add_dependency 3 1 sample_store = (s1, Ok [1; 2])
      ∧ feature_remove_dependency 3 1 s1 = (sample_store, Ok [2]).
Proof.
  assert (NoDup (id <$> rows sample_store)) as Hnd.
  { apply (bool_decide_unpack (NoDup (id <$> rows sample_store))). vm_compute. exact I. }
  assert (deps_sorted sample_store) as Hs.
  { unfold deps_sorted, sample_store. simpl. repeat constructor. }
  assert (Forall (fun f => dependencies f ≠ Some []) (rows sample_store)) as Hne.
  { unfold sample_store. simpl. repeat constructor; done. }
  split; [exact Hnd|]. split; [exact Hs|].
  eexists. split; [reflexivity|].
  destruct (add_then_remove_restores 3 1 sample_store _ _ Hnd Hs Hne eq_refl)
    as (f & Hf & _ & Hr).
  injection Hf as <-. exact Hr.
Defined.

(** ** Marking a feature as passing or failing *)

Lemma elem_of_update fid upd s g' :
  g' ∈ rows (update_where_id fid upd s)
  <-> exists g, g ∈ rows s ∧ g' = if decide (id g = fid) then upd g else g.
Proof.
  unfold update_where_id. cbn [rows]. rewrite list_elem_of_fmap. naive_solver.
Qed.

Lemma passing_ids_mark_passing fid s :
  fid ∈ id <$> rows s ->
  passing_ids_of (rows (update_where_id fid (set_status true false) s))
  = {[fid]} ∪ passing_ids_of (rows s).
Proof.
  intros Hfid. apply set_eq. intros d.
  rewrite elem_of_union, elem_of_singleton, !elem_of_passing_ids. split.
  - intros (g' & Hg' & <- & Hp). apply elem_of_update in Hg' as (g & Hg & ->).
    destruct (decide (id g = fid)); simpl in *; [by left|]. right. by exists g.
  - intros [->|(g & Hg & <- & Hp)].
    + apply list_elem_of_fmap in Hfid as (g & -> & Hg).
      exists (set_status true false g). split; [|done].
      apply elem_of_update. exists g. by rewrite decide_True.
    + exists (if decide (id g = fid) then set_status true false g else g).
      split; [apply elem_of_update; by exists g|].
      by destruct (decide (id g = fid)).
Qed.

Lemma passing_ids_mark_failing fid s :
  passing_ids_of (rows (update_where_id fid (set_status false false) s))
  = passing_ids_of (rows s) ∖ {[fid]}.
Proof.
  apply set_eq. intros d.
  rewrite elem_of_difference, elem_of_singleton, !elem_of_passing_ids. split.
  - intros (g' & Hg' & <- & Hp). apply elem_of_update in Hg' as (g & Hg & ->).
    destruct (decide (id g = fid)); simpl in *; [done|]. split; [by exists g|done].
  - intros [(g & Hg & <- & Hp) Hne].
    exists g. split; [|done]. apply elem_of_update. exists g. by rewrite decide_False.
Qed.

(** X15: when [feature_mark_passing] succeeds, the feature joins the
    passing ids and disappears from every list of blocking dependencies,
    which otherwise stay as they were; when [feature_mark_failing]
    succeeds, the feature leaves the passing ids and blocks again every
    feature that lists it. *)
Theorem marking_moves_blockers feature_id s :
  is_Some (select_by_id s feature_id) ->
  let passed := (feature_mark_passing feature_id s).1 in
  let failed := (feature_mark_failing feature_id s).1 in
  passing_ids_of (rows passed) = {[feature_id]} ∪ passing_ids_of (rows s)
  ∧ (forall g, blocking_of (passing_ids_of (rows passed)) g
               = filter (fun d => d ≠ feature_id) (blocking_of (passing_ids_of (rows s)) g))
  ∧ passing_ids_of (rows failed) = passing_ids_of (rows s) ∖ {[feature_id]}
  ∧ (forall g, feature_id ∈ deps_of g ->
               feature_id ∈ blocking_of (passing_ids_of (rows failed)) g).
Proof.
  intros [f Hf] passed failed. subst passed failed.
  unfold feature_mark_passing, feature_mark_failing. rewrite Hf. cbn [fst].
  assert (feature_id ∈ id <$> rows s) as Hin.
  { apply select_by_id_Some in Hf as [Hf <-]. apply list_elem_of_fmap. by exists f. }
  rewrite passing_ids_mark_passing by done. rewrite passing_ids_mark_failing.
  split; [done|]. split; [|split; [done|]].
  - intros g. unfold blocking_of. rewrite list_filter_filter.
    apply list_filter_iff. intros d. set_solver.
  - intros g Hg. unfold blocking_of. apply list_elem_of_filter. set_solver.
Qed.

Lemma marking_moves_blockers_witness :
  is_Some (select_by_id sample_store 2)
  ∧ blocking_of (passing_ids_of (rows sample_store)) (new_Feature 3 3 false false (Some [2]))
    = [2]
  ∧ blocking_of (passing_ids_of (rows (feature_mark_passing 2 sample_store).1))
      (new_Feature 3 3 false false (Some [2])) = [].
Proof.
  assert (is_Some (select_by_id sample_store 2)) as H by (by eexists).
  split; [exact H|]. split; [reflexivity|].
  destruct (marking_moves_blockers 2 sample_store H) as (_ & Hb & _).
  rewrite (Hb (new_Feature 3 3 false false (Some [2]))). reflexivity.
Defined.

(** ** The status counts of the three listing tools *)

Lemma feature_get_graph_eq s : feature_get_graph s = build_graph_data (rows s).
Proof. done. Qed.

Lemma feature_get_blocked_total limit s :
  total_blocked (feature_get_blocked limit s)
  = Z.of_nat (length (get_blocked_features (rows s))).
Proof. done. Qed.

Lemma count_status (P : gset Z) (Q : Feature -> Prop) `{!forall f, Decision (Q f)}
    (status : string) (l : list Feature) :
  Forall (fun f => status_of P f = status <-> Q f) l ->
  length (filter (fun n => node_status n = status) (node_of P <$> l))
  = length (filter Q l).
Proof.
  induction l as [|f l IH]; intros Hall; [done|].
  apply Forall_cons in Hall as [Hf Hall].
  rewrite fmap_cons, !filter_cons. cbn [node_of node_status]. specialize (IH Hall).
  destruct (decide (Q f)) as [Hq|Hq]; destruct (decide (status_of P f = status)) as [Hn|Hn];
    cbn [length]; rewrite ?IH; try done.
  - destruct Hn. by apply Hf.
  - destruct Hq. by apply Hf.
Qed.

Lemma status_of_cases (P : gset Z) f :
  (status_of P f = "done" <-> passes f = true)
  ∧ (status_of P f = "blocked" <-> (passes f = false ∧ blocking_of P f ≠ []))
  ∧ (status_of P f = "in_progress"
     <-> (passes f = false ∧ blocking_of P f = [] ∧ in_progress f = true))
  ∧ (status_of P f = "pending"
     <-> (passes f = false ∧ blocking_of P f = [] ∧ in_progress f = false)).
Proof.
  unfold status_of. fold (blocking_of P f).
  destruct (passes f); [by repeat split; intros; try done; naive_solver|].
  destruct (blocking_of P f) as [|b bl]; cbn [length Nat.ltb Nat.leb];
    [|by repeat split; intros; try done; naive_solver].
  destruct (in_progress f); by repeat split; intros; try done; naive_solver.
Qed.

Lemma filter_split4 {A} (P1 P2 P3 P4 : A -> Prop)
    `{!forall x, Decision (P1 x)} `{!forall x, Decision (P2 x)}
    `{!forall x, Decision (P3 x)} `{!forall x, Decision (P4 x)} (l : list A) :
  (forall x, (P1 x ∧ ¬ P2 x ∧ ¬ P3 x ∧ ¬ P4 x) ∨ (¬ P1 x ∧ P2 x ∧ ¬ P3 x ∧ ¬ P4 x)
             ∨ (¬ P1 x ∧ ¬ P2 x ∧ P3 x ∧ ¬ P4 x) ∨ (¬ P1 x ∧ ¬ P2 x ∧ ¬ P3 x ∧ P4 x)) ->
  (length (filter P1 l) + length (filter P2 l) + length (filter P3 l)
   + length (filter P4 l) = length l)%nat.
Proof.
  intros Hsplit. induction l as [|x l IH]; [done|].
  rewrite !filter_cons. cbn [length].
  destruct (Hsplit x) as [(?&?&?&?)|[(?&?&?&?)|[(?&?&?&?)|(?&?&?&?)]]];
    repeat case_decide; try done; cbn [length]; lia.
Qed.

(** X16: the three listing tools count alike: the nodes that
    [feature_get_graph] marks ["pending"] are as many as
    [feature_get_ready] reports in [total_ready], the nodes marked
    ["blocked"] as many as [feature_get_blocked] reports in
    [total_blocked], and the four statuses together account for every row. *)
Theorem status_counts_agree gas limit limit' s :
  let count := fun status =>
    Z.of_nat (length (filter (fun n => node_status n = status)
                        (nodes (feature_get_graph s)))) in
  match feature_get_ready gas limit s with
  | Done rr => count "pending" = total_ready rr
  | _ => True
  end
  ∧ count "blocked" = total_blocked (feature_get_blocked limit' s)
  ∧ count "done" + count "blocked" + count "in_progress" + count "pending"
    = Z.of_nat (length (rows s)).
Proof.
  intros count. subst count. cbv beta.
  rewrite feature_get_graph_eq, feature_get_blocked_total.
  rewrite build_graph_data_eq. cbn [nodes].
  rewrite get_blocked_features_eq, length_fmap.
  set (P := passing_ids_of (rows s)).
  assert (Hready : forall f, is_ready P f = true
            <-> (passes f = false ∧ blocking_of P f = [] ∧ in_progress f = false)).
  { intros f. unfold is_ready.
    pose proof (forallb_filter_nil (fun d => d ∈ P) (deps_of f)) as Hiff.
    fold (blocking_of P f) in Hiff. rewrite <- Hiff.
    destruct (passes f), (in_progress f); simpl; naive_solver. }
  rewrite (count_status P (fun f => passes f = true) "done")
    by (apply Forall_forall; intros f _; apply status_of_cases).
  rewrite (count_status P (fun f => passes f = false ∧ blocking_of P f ≠ []) "blocked")
    by (apply Forall_forall; intros f _; apply status_of_cases).
  rewrite (count_status P (fun f => passes f = false ∧ blocking_of P f = []
                                    ∧ in_progress f = true) "in_progress")
    by (apply Forall_forall; intros f _; apply status_of_cases).
  rewrite (count_status P (fun f => is_ready P f = true) "pending").
  2:{ apply Forall_forall. intros f _. rewrite Hready. apply status_of_cases. }
  split; [|split; [done|]].
  - unfold feature_get_ready. fold P.
    destruct (compute_scheduling_scores gas (rows s)); simpl; [|done..].
    by rewrite js_sort_perm.
  - rewrite <- !Nat2Z.inj_add. f_equal. apply filter_split4. intros f.
    rewrite Hready.
    destruct (passes f), (in_progress f), (blocking_of P f);
      first [ left; by intuition congruence
            | right; left; by intuition congruence
            | right; right; left; by intuition congruence
            | right; right; right; by intuition congruence ].
Qed.

(** ** Cycles after a change of edges *)

Lemma tc_first {A} (R : relation A) x z : tc R x z -> exists y, R x y ∧ rtc R y z.
Proof.
  intros H. destruct H as [x z H|x y z H Ht].
  - exists z. split; [done|apply rtc_refl].
  - exists y. split; [done|by apply tc_rtc].
Qed.

Section cycles.
Context (R R' : relation Z).

Lemma tc_subrel : (forall a b, R a b -> R' a b) -> forall x y, tc R x y -> tc R' x y.
Proof.
  intros H x y Hxy. induction Hxy as [x y Hxy|x y z Hxy _ IH].
  - by apply tc_once, H.
  - eapply tc_l; [by apply H|done].
Qed.

Lemma rtc_add_edge f d :
  (forall a b, R' a b -> R a b ∨ (a = f ∧ b = d)) ->
  ¬ rtc R d f ->
  forall a b, rtc R' a b -> rtc R a b ∨ (rtc R a f ∧ rtc R d b).
Proof.
  intros Hsub Hno a b Hab. induction Hab as [a|a y b Hay _ IH].
  - left. apply rtc_refl.
  - destruct (Hsub _ _ Hay) as [Hr|[-> ->]].
    + destruct IH as [IH|[IH1 IH2]]; [left|right; split; [|done]]; by eapply rtc_l.
    + destruct IH as [IH|[IH1 IH2]]; [|done]. right. split; [apply rtc_refl|done].
Qed.

(** One more edge [f -> d] keeps the graph acyclic when [d] did not reach [f]. *)
Lemma acyclic_add_edge f d :
  (forall a b, R' a b -> R a b ∨ (a = f ∧ b = d)) ->
  ¬ rtc R d f ->
  (forall x, ¬ tc R x x) -> forall x, ¬ tc R' x x.
Proof.
  intros Hsub Hno Hacyc x Hx.
  apply tc_first in Hx as (y & Hxy & Hyx).
  pose proof (rtc_add_edge f d Hsub Hno y x Hyx) as Hcase.
  destruct (Hsub _ _ Hxy) as [Hr|[-> ->]].
  - destruct Hcase as [H|[H1 H2]].
    + apply (Hacyc x). eapply tc_rtc_r; [by apply tc_once|done].
    + apply Hno. eapply rtc_trans; [exact H2|]. by eapply rtc_l.
  - destruct Hcase as [H|[H1 H2]]; by apply Hno.
Qed.

Lemma tc_replace_edges f (D : Z -> Prop) :
  (forall a b, R' a b -> (a ≠ f ∧ R a b) ∨ (a = f ∧ D b)) ->
  forall a b, tc R' a b -> tc R a b ∨ (rtc R' a f ∧ exists d, D d ∧ rtc R' d b).
Proof.
  intros Hsub a b Hab. induction Hab as [a b Hab|a y b Hay Hyb IH].
  - destruct (Hsub _ _ Hab) as [[Hne Hr]|[-> Hd]].
    + left. by apply tc_once.
    + right. split; [apply rtc_refl|]. exists b. split; [done|apply rtc_refl].
  - destruct (Hsub _ _ Hay) as [[Hne Hr]|[-> Hd]].
    + destruct IH as [IH|[IH1 IH2]]; [left; by eapply tc_l|].
      right. split; [by eapply rtc_l|done].
    + right. split; [apply rtc_refl|]. exists y. split; [done|by apply tc_rtc].
Qed.

(** New out-edges for [f] keep the graph acyclic when none of the new
    targets reaches [f]. *)
Lemma acyclic_replace_edges f (D : Z -> Prop) :
  (forall a b, R' a b -> (a ≠ f ∧ R a b) ∨ (a = f ∧ D b)) ->
  (forall d, D d -> ¬ rtc R' d f) ->
  (forall x, ¬ tc R x x) -> forall x, ¬ tc R' x x.
Proof.
  intros Hsub Hno Hacyc x Hx.
  destruct (tc_replace_edges f D Hsub x x Hx) as [H|[H1 (d & Hd & H2)]].
  - by apply (Hacyc x).
  - apply (Hno d Hd). by eapply rtc_trans.
Qed.

End cycles.

(** ** The feature map of a changed table *)

Lemma feature_map_fold_fmap (g : Feature -> Feature) l : forall (m : gmap Z Feature),
  (forall f, id (g f) = id f) ->
  fold_left (fun m f => <[id f := f]> m) (g <$> l) (g <$> m)
  = g <$> fold_left (fun m f => <[id f := f]> m) l m.
Proof.
  induction l as [|f l IH]; intros m Hg; simpl; [done|].
  rewrite Hg, <- fmap_insert. by apply IH.
Qed.

Lemma feature_map_of_fmap (g : Feature -> Feature) l :
  (forall f, id (g f) = id f) -> feature_map_of (g <$> l) = g <$> feature_map_of l.
Proof.
  intros Hg. unfold feature_map_of.
  rewrite <- (feature_map_fold_fmap g l ∅ Hg). by rewrite fmap_empty.
Qed.

Lemma feature_map_of_snoc l f :
  feature_map_of (l ++ [f]) = <[id f := f]> (feature_map_of l).
Proof. unfold feature_map_of. by rewrite fold_left_app. Qed.

Lemma feature_map_of_update fid upd s :
  (forall f, id (upd f) = id f) ->
  feature_map_of (rows (update_where_id fid upd s))
  = (fun f => if decide (id f = fid) then upd f else f) <$> feature_map_of (rows s).
Proof.
  intros Hupd. unfold update_where_id. cbn [rows]. apply feature_map_of_fmap.
  intros f. by destruct (decide (id f = fid)).
Qed.

Lemma dep_edge_update fid upd s a b :
  (forall f, id (upd f) = id f) ->
  dep_edge (feature_map_of (rows (update_where_id fid upd s))) a b
  <-> exists f, feature_map_of (rows s) !! a = Some f
                ∧ b ∈ deps_of (if decide (a = fid) then upd f else f).
Proof.
  intros Hupd. unfold dep_edge. rewrite feature_map_of_update by done.
  setoid_rewrite lookup_fmap. split.
  - intros (f' & Hf' & Hb).
    destruct (feature_map_of (rows s) !! a) as [f|] eqn:E; [|done].
    injection Hf' as <-. exists f. split; [done|].
    apply feature_map_of_lookup in E as [_ <-]. done.
  - intros (f & Hf & Hb). rewrite Hf. simpl. eexists. split; [done|].
    apply feature_map_of_lookup in Hf as [_ <-]. done.
Qed.

Lemma dep_edge_update_same fid upd s a b :
  (forall f, id (upd f) = id f) -> (forall f, deps_of (upd f) = deps_of f) ->
  dep_edge (feature_map_of (rows (update_where_id fid upd s))) a b
  <-> dep_edge (feature_map_of (rows s)) a b.
Proof.
  intros Hid Hdeps. rewrite dep_edge_update by done. unfold dep_edge.
  split; intros (f & Hf & Hb); exists f; (split; [done|]);
    destruct (decide (a = fid)); by rewrite ?Hdeps in *.
Qed.

Lemma acyclic_update_same fid upd s :
  (forall f, id (upd f) = id f) -> (forall f, deps_of (upd f) = deps_of f) ->
  acyclic (rows s) -> acyclic (rows (update_where_id fid upd s)).
Proof.
  intros Hid Hdeps Hacyc x Hx. apply (Hacyc x).
  eapply tc_subrel; [|exact Hx]. intros a b. by apply dep_edge_update_same.
Qed.

Lemma select_by_id_map s fid f :
  NoDup (id <$> rows s) ->
  select_by_id s fid = Some f -> feature_map_of (rows s) !! fid = Some f.
Proof.
  intros Hnd Hsel. apply select_by_id_Some in Hsel as [Hf <-].
  by apply feature_map_of_NoDup.
Qed.

(** ** A refusal-free search finds no path *)

Lemma would_create_false_no_path features source_id target_id :
  would_create_circular_dependency features source_id target_id = Done false ->
  is_Some (feature_map_of features !! source_id) ->
  ¬ reaches (feature_map_of features) target_id source_id.
Proof.
  unfold would_create_circular_dependency.
  destruct (Z.eqb_spec source_id target_id) as [|Hne]; [done|].
  intros Hw [fs Hs]. rewrite Hs in Hw.
  destruct (feature_map_of features !! target_id) as [ft|] eqn:Ht.
  - destruct (can_reach can_reach_gas (feature_map_of features) source_id target_id 0 ∅)
      as [[b v']| |] eqn:E; [|done..].
    simpl in Hw. injection Hw as ->. intros Hr.
    apply can_reach_false in E as [Hex Hin].
    pose proof (explored_closed _ _ _ _ _ Hex Hin Hr) as Hsrc.
    destruct Hex as [_ Hcl]. destruct (Hcl source_id Hsrc) as [Hcontra _]; [set_solver|].
    done.
  - intros Hr. apply rtc_inv in Hr as [->|(y & (f & Hf & _) & _)]; [done|].
    by rewrite Ht in Hf.
Qed.

(** ** What the writes keep of a well-formed table *)

Lemma table_ok_ext s s' :
  rows s = rows s' -> last_rowid s = last_rowid s' -> table_ok s -> table_ok s'.
Proof.
  intros Hr Hl [H1 H2 H3 H4 H5 H6 H7]. constructor; rewrite <- ?Hr, <- ?Hl; done.
Qed.

Lemma table_ok_lock s s1 : lockPriority s = Some s1 -> table_ok s -> table_ok s1.
Proof.
  unfold lockPriority. destruct (lock_held s); [done|]. intros [= <-].
  by apply table_ok_ext.
Qed.

Lemma table_ok_unlock s : table_ok s -> table_ok (unlockPriority s).
Proof. by apply table_ok_ext. Qed.

Lemma update_where_id_priority fid upd s :
  (forall f, priority (upd f) = priority f) ->
  priority <$> rows (update_where_id fid upd s) = priority <$> rows s.
Proof.
  intros Hupd. unfold update_where_id. cbn [rows]. rewrite <- list_fmap_compose.
  apply list_fmap_ext. intros _ f _. simpl. by destruct (decide (id f = fid)).
Qed.

Lemma table_ok_update fid upd s :
  table_ok s ->
  (forall f, id (upd f) = id f) ->
  (forall f, f ∈ rows s -> id f = fid -> row_ok (upd f)) ->
  NoDup (priority <$> rows (update_where_id fid upd s)) ->
  (forall f, f ∈ rows s -> id f = fid ->
     Forall (fun d => d ∈ id <$> rows s) (deps_of (upd f))) ->
  acyclic (rows (update_where_id fid upd s)) ->
  table_ok (update_where_id fid upd s).
Proof.
  intros [Hrows Hids Hlast Hrowid Hprio Hexist Hacyc] Hupd Hrow Hp Hdeps Ha.
  constructor; try done.
  - apply Forall_forall. intros g' (g & Hg & ->)%elem_of_update.
    destruct (decide (id g = fid)); [by apply Hrow|].
    by eapply Forall_forall in Hrows.
  - by rewrite update_where_id_id.
  - apply Forall_forall. intros g' (g & Hg & ->)%elem_of_update.
    assert (id (if decide (id g = fid) then upd g else g) = id g) as ->
      by by destruct (decide (id g = fid)).
    by eapply Forall_forall in Hrowid.
  - rewrite update_where_id_id by done.
    apply Forall_forall. intros g' (g & Hg & ->)%elem_of_update.
    destruct (decide (id g = fid)); [by apply Hdeps|].
    by eapply Forall_forall in Hexist.
Qed.

Lemma table_ok_status fid upd s :
  table_ok s ->
  (forall f, id (upd f) = id f ∧ priority (upd f) = priority f
             ∧ dependencies (upd f) = dependencies f) ->
  (forall f, f ∈ rows s -> id f = fid -> passes (upd f) = true -> in_progress (upd f) = false) ->
  table_ok (update_where_id fid upd s).
Proof.
  intros Hok Hupd Hst.
  assert (Hdeps : forall f, deps_of (upd f) = deps_of f).
  { intros f. unfold deps_of. by destruct (Hupd f) as (_ & _ & ->). }
  pose proof Hok as [Hrows Hids Hlast Hrowid Hprio Hexist Hacyc].
  apply table_ok_update; try done.
  - intros f. apply Hupd.
  - intros f Hf Hid. eapply Forall_forall in Hrows; [|exact Hf].
    destruct Hrows as (H1 & H2 & H3 & H4 & H5 & H6 & H7).
    destruct (Hupd f) as (Ei & Ep & Ed). unfold row_ok.
    rewrite Hdeps, Ei, Ep, Ed. split_and!; try done. exact (Hst f Hf Hid).
  - rewrite update_where_id_priority; [done|]. intros f. apply Hupd.
  - intros f Hf Hid. rewrite Hdeps. by eapply Forall_forall in Hexist.
  - apply acyclic_update_same; [|done..]. intros f. apply Hupd.
Qed.

Lemma table_ok_set_priority fid p s :
  table_ok s -> Forall (fun f => priority f < p) (rows s) -> 0 < p ->
  table_ok (update_where_id fid (set_priority p) s).
Proof.
  intros Hok Hlt Hp. pose proof Hok as [Hrows Hids Hlast Hrowid Hprio Hexist Hacyc].
  apply table_ok_update; try done.
  - intros f Hf Hid. eapply Forall_forall in Hrows; [|exact Hf].
    destruct Hrows as (H1 & H2 & H3 & H4 & H5 & H6 & H7). by split_and!.
  - unfold update_where_id. cbn [rows]. rewrite <- list_fmap_compose.
    apply NoDup_fmap_2_strong; [|by eapply NoDup_fmap_1].
    intros f g Hf Hg. simpl.
    pose proof (proj1 (Forall_forall _ _) Hlt f Hf) as Hf'.
    pose proof (proj1 (Forall_forall _ _) Hlt g Hg) as Hg'. simpl in *.
    destruct (decide (id f = fid)) as [Ef|Ef], (decide (id g = fid)) as [Eg|Eg];
      simpl; intros Heq; try lia.
    + eapply id_inj_rows; [exact Hids|done..|congruence].
    + apply list_elem_of_lookup in Hf as [i Hi]. apply list_elem_of_lookup in Hg as [j Hj].
      assert (i = j) as ->; [|congruence].
      eapply NoDup_lookup; [exact Hprio| |].
      * by rewrite list_lookup_fmap, Hi.
      * by rewrite list_lookup_fmap, Hj, Heq.
  - intros f Hf Hid. exact (proj1 (Forall_forall _ _) Hexist f Hf).
  - by apply acyclic_update_same.
Qed.

Lemma table_ok_set_dependencies fid deps s :
  table_ok s ->
  NoDup (default [] deps) ->
  Z.of_nat (length (default [] deps)) <= MAX_DEPENDENCIES ->
  StronglySorted Z.le (default [] deps) ->
  deps ≠ Some [] ->
  Forall (fun d => d ∈ id <$> rows s) (default [] deps) ->
  acyclic (rows (update_where_id fid (set_dependencies deps) s)) ->
  table_ok (update_where_id fid (set_dependencies deps) s).
Proof.
  intros Hok Hnd Hmax Hsort Hne Hex Ha.
  pose proof Hok as [Hrows Hids Hlast Hrowid Hprio Hexist Hacyc].
  apply table_ok_update; try done.
  - intros f Hf Hid. eapply Forall_forall in Hrows; [|exact Hf].
    destruct Hrows as (H1 & H2 & H3 & H4 & H5 & H6 & H7). by split_and!.
  - by rewrite update_where_id_priority.
Qed.

Lemma insert_feature_rows p c n d st s :
  rows (insert_feature p c n d st s).1 = rows s ++ [(insert_feature p c n d st s).2]
  ∧ last_rowid (insert_feature p c n d st s).1 = id (insert_feature p c n d st s).2
  ∧ priority (insert_feature p c n d st s).2 = p
  ∧ dependencies (insert_feature p c n d st s).2 = None
  ∧ passes (insert_feature p c n d st s).2 = false
  ∧ in_progress (insert_feature p c n d st s).2 = false
  ∧ last_rowid s < id (insert_feature p c n d st s).2.
Proof.
  unfold insert_feature. cbn. repeat split; try done.
  pose proof (fold_max_ge (id <$> rows s) (last_rowid s)). lia.
Qed.

Lemma table_ok_insert p c n d st s :
  table_ok s -> Forall (fun f => priority f < p) (rows s) -> 0 < p ->
  table_ok (insert_feature p c n d st s).1.
Proof.
  intros [Hrows Hids Hlast Hrowid Hprio Hexist Hacyc] Hlt Hp.
  pose proof (insert_feature_fresh p c n d st s) as Hfresh.
  destruct (insert_feature_rows p c n d st s) as (Hr & Hl & Epr & Ed & Eps & Eip & Hnew).
  set (row := (insert_feature p c n d st s).2) in *.
  assert (Hdeps : deps_of row = []) by (unfold deps_of; by rewrite Ed).
  constructor; rewrite ?Hr, ?Hl.
  - apply Forall_app. split; [done|]. constructor; [|done].
    unfold row_ok. rewrite Hdeps, Epr, Ed, Eps.
    split_and!; try done; try constructor; lia.
  - rewrite fmap_app. apply NoDup_app. split; [done|]. split; [|by apply NoDup_singleton].
    intros x Hx Hx'. apply list_elem_of_singleton in Hx' as ->.
    apply list_elem_of_fmap in Hx as (f & Heq & Hf).
    eapply Forall_forall in Hfresh; [|exact Hf]. cbv beta in Hfresh. unfold row in *. lia.
  - lia.
  - apply Forall_app. split; [|by constructor].
    eapply Forall_impl; [exact Hrowid|]. intros f Hf. simpl in *. lia.
  - rewrite fmap_app. apply NoDup_app. split; [done|]. split; [|by apply NoDup_singleton].
    intros x Hx Hx'. apply list_elem_of_singleton in Hx' as ->.
    apply list_elem_of_fmap in Hx as (f & Heq & Hf).
    eapply Forall_forall in Hlt; [|exact Hf]. cbv beta in Hlt. unfold row in *. lia.
  - apply Forall_app. split.
    + eapply Forall_impl; [exact Hexist|]. intros f Hf. simpl in *.
      eapply Forall_impl; [exact Hf|]. intros x Hx. simpl in *.
      rewrite fmap_app. apply elem_of_app. by left.
    + constructor; [|done]. by rewrite Hdeps.
  - intros x Hx. apply (Hacyc x). eapply tc_subrel; [|exact Hx].
    intros a b (f & Hf & Hb). rewrite feature_map_of_snoc, lookup_insert in Hf.
    case_decide as Ha; [|by exists f].
    injection Hf as <-. rewrite Hdeps in Hb. by apply elem_of_nil in Hb.
Qed.

Lemma table_ok_empty : table_ok empty_store.
Proof.
  constructor; simpl; try done; try constructor.
  intros x Hx. apply tc_first in Hx as (y & (f & Hf & _) & _).
  unfold feature_map_of in Hf. simpl in Hf. by rewrite lookup_empty in Hf.
Qed.

(** ** Every writing tool keeps the table well-formed *)

Lemma next_priority_pos s :
  Forall (fun f => 0 < priority f) (rows s) -> 0 < next_priority s.
Proof.
  intros Hpos. pose proof (next_priority_above s) as Hab.
  destruct (rows s) as [|f l] eqn:E.
  - rewrite next_priority_empty by done. lia.
  - apply Forall_cons in Hpos as [Hf _]. rewrite fmap_cons in Hab.
    apply Forall_cons in Hab as [Hab _]. lia.
Qed.

Lemma table_ok_positive s : table_ok s -> Forall (fun f => 0 < priority f) (rows s).
Proof.
  intros [Hrows _ _ _ _ _ _]. eapply Forall_impl; [exact Hrows|].
  by intros f (_ & H & _).
Qed.

Lemma next_priority_above_rows s : Forall (fun f => priority f < next_priority s) (rows s).
Proof. pose proof (next_priority_above s) as H. by rewrite Forall_fmap in H. Qed.

Lemma table_ok_mark_passing fid s : table_ok s -> table_ok (feature_mark_passing fid s).1.
Proof.
  intros Hok. unfold feature_mark_passing. destruct (select_by_id s fid); [|done].
  by apply table_ok_status.
Qed.

Lemma table_ok_mark_failing fid s : table_ok s -> table_ok (feature_mark_failing fid s).1.
Proof.
  intros Hok. unfold feature_mark_failing. destruct (select_by_id s fid); [|done].
  by apply table_ok_status.
Qed.

Lemma table_ok_claim fid s f :
  table_ok s -> select_by_id s fid = Some f -> passes f = false ->
  table_ok (update_where_id fid (set_in_progress true) s).
Proof.
  intros Hok Hsel Hp. apply table_ok_status; [done..|].
  intros g Hg Hid. simpl. intros Hpg.
  apply select_by_id_Some in Hsel as [Hf Hidf].
  assert (g = f) as -> by (eapply id_inj_rows; [apply Hok|done..|congruence]).
  congruence.
Qed.

Lemma table_ok_mark_in_progress fid s :
  table_ok s -> table_ok (feature_mark_in_progress fid s).1.
Proof.
  intros Hok. unfold feature_mark_in_progress.
  destruct (select_by_id s fid) as [f|] eqn:E; [|done].
  destruct (passes f) eqn:Hp; [done|]. destruct (in_progress f); [done|].
  by eapply table_ok_claim.
Qed.

Lemma table_ok_claim_and_get fid s :
  table_ok s -> table_ok (feature_claim_and_get fid s).1.
Proof.
  intros Hok. unfold feature_claim_and_get.
  destruct (select_by_id s fid) as [f|] eqn:E; [|done].
  destruct (passes f) eqn:Hp; [done|]. cbn [fst].
  destruct (in_progress f); [done|]. by eapply table_ok_claim.
Qed.

Lemma table_ok_clear_in_progress fid s :
  table_ok s -> table_ok (feature_clear_in_progress fid s).1.
Proof.
  intros Hok. unfold feature_clear_in_progress. destruct (select_by_id s fid); [|done].
  by apply table_ok_status.
Qed.

Lemma table_ok_skip fid s : table_ok s -> table_ok (feature_skip fid s).1.
Proof.
  intros Hok. unfold feature_skip. destruct (select_by_id s fid) as [f|]; [|done].
  destruct (passes f); [done|]. destruct (lockPriority s) as [s1|] eqn:E; [|done].
  cbn [fst]. apply table_ok_unlock. pose proof (table_ok_lock _ _ E Hok) as Hok1.
  apply table_ok_set_priority; [done|apply next_priority_above_rows|].
  by apply next_priority_pos, table_ok_positive.
Qed.

Lemma table_ok_create c n d st s : table_ok s -> table_ok (feature_create c n d st s).1.
Proof.
  intros Hok. unfold feature_create. destruct (lockPriority s) as [s1|] eqn:E; [|done].
  pose proof (table_ok_lock _ _ E Hok) as Hok1.
  pose proof (table_ok_insert (next_priority s1) c n d st s1 Hok1
                (next_priority_above_rows s1)
                (next_priority_pos s1 (table_ok_positive s1 Hok1))) as Hins.
  destruct (insert_feature (next_priority s1) c n d st s1) as [s2 row].
  destruct (select_by_id s2 (id row)); by apply table_ok_unlock.
Qed.

Lemma sort_ids_perm l : sort_ids l ≡ₚ l.
Proof. apply js_sort_perm. Qed.

Lemma table_ok_add_dependency fid d s :
  table_ok s -> table_ok (feature_add_dependency fid d s).1.
Proof.
  intros Hok. unfold feature_add_dependency.
  destruct (Z.eqb_spec fid d) as [|Hne]; [done|].
  destruct (select_by_id s fid) as [f|] eqn:Ef; [|done].
  destruct (select_by_id s d) as [fd|] eqn:Ed; [|done].
  destruct (Z.geb_spec (Z.of_nat (length (deps_of f))) MAX_DEPENDENCIES) as [|Hlen]; [done|].
  destruct (decide (d ∈ deps_of f)) as [Hin|Hnin]; [by rewrite bool_decide_eq_true_2|].
  rewrite bool_decide_eq_false_2 by done.
  destruct (would_create_circular_dependency (rows s) fid d) as [[]| |] eqn:Ew; try done.
  cbn [fst].
  pose proof Hok as [Hrows Hids Hlast Hrowid Hprio Hexist Hacyc].
  pose proof (select_by_id_Some _ _ _ Ef) as [Hf Hidf].
  pose proof (select_by_id_Some _ _ _ Ed) as [Hfd Hidd].
  pose proof (select_by_id_map _ _ _ Hids Ef) as Hmf.
  pose proof (proj1 (Forall_forall _ _) Hrows f Hf) as (_ & _ & Hnd & _ & _ & _ & _).
  apply table_ok_set_dependencies; try done; cbn [default]; unfold Datatypes.id.
  - rewrite sort_ids_perm. apply NoDup_app. split; [done|].
    split; [|apply NoDup_singleton]. intros x Hx ->%list_elem_of_singleton. done.
  - rewrite sort_ids_perm, length_app. simpl. lia.
  - apply sort_ids_sorted.
  - intros [= H]. apply (f_equal length) in H.
    rewrite sort_ids_perm, length_app in H. simpl in H. lia.
  - rewrite sort_ids_perm. apply Forall_app. split.
    + exact (proj1 (Forall_forall _ _) Hexist f Hf).
    + constructor; [|done]. apply list_elem_of_fmap. by exists fd.
  - unfold acyclic.
    apply (acyclic_add_edge (dep_edge (feature_map_of (rows s))) _ fid d); [| |exact Hacyc].
    + intros a b Hab. apply dep_edge_update in Hab as (g & Hg & Hb); [|done].
      destruct (decide (a = fid)) as [->|Ha]; [|left; by exists g].
      rewrite Hmf in Hg. injection Hg as <-. cbn [deps_of set_dependencies dependencies default] in Hb.
      rewrite sort_ids_perm in Hb. apply elem_of_app in Hb as [Hb|Hb%list_elem_of_singleton].
      * left. by exists f.
      * by right.
    + apply would_create_false_no_path; [done|]. by rewrite Hmf.
Qed.

Lemma table_ok_remove_dependency fid d s :
  table_ok s -> table_ok (feature_remove_dependency fid d s).1.
Proof.
  intros Hok. unfold feature_remove_dependency.
  destruct (select_by_id s fid) as [f|] eqn:Ef; [|done].
  destruct (negb _); [done|]. cbn [fst].
  pose proof Hok as [Hrows Hids Hlast Hrowid Hprio Hexist Hacyc].
  pose proof (select_by_id_Some _ _ _ Ef) as [Hf Hidf].
  pose proof (select_by_id_map _ _ _ Hids Ef) as Hmf.
  pose proof (proj1 (Forall_forall _ _) Hrows f Hf) as (_ & _ & Hnd & Hmax & Hsort & _ & _).
  set (updated := filter (fun x => x ≠ d) (deps_of f)).
  assert (Hdef : default [] (if (0 <? length updated)%nat then Some updated else None)
                 = updated).
  { by destruct updated. }
  apply table_ok_set_dependencies; try done; rewrite ?Hdef.
  - by apply NoDup_filter.
  - pose proof (length_filter (fun x => x ≠ d) (deps_of f)). fold updated in H. lia.
  - by apply filter_sorted.
  - by destruct updated.
  - apply Forall_forall. intros x [_ Hx]%list_elem_of_filter.
    exact (proj1 (Forall_forall _ _) (proj1 (Forall_forall _ _) Hexist f Hf) x Hx).
  - intros x Hx. apply (Hacyc x). eapply tc_subrel; [|exact Hx].
    intros a b Hab. apply dep_edge_update in Hab as (g & Hg & Hb); [|done].
    exists g. split; [done|]. destruct (decide (a = fid)) as [->|Ha]; [|done].
    rewrite Hmf in Hg. injection Hg as <-.
    unfold deps_of at 1 in Hb. cbn [set_dependencies dependencies] in Hb.
    rewrite Hdef in Hb. by apply list_elem_of_filter in Hb as [_ Hb].
Qed.

Lemma table_ok_feature_set_dependencies fid D s :
  table_ok s -> table_ok (feature_set_dependencies fid D s).1.
Proof.
  intros Hok. unfold feature_set_dependencies.
  destruct (decide (fid ∈ D)) as [|Hself]; [by rewrite bool_decide_eq_true_2|].
  rewrite bool_decide_eq_false_2 by done.
  destruct (Z.gtb_spec (Z.of_nat (length D)) MAX_DEPENDENCIES) as [|Hlen]; [done|].
  destruct (decide (NoDup D)) as [Hnd|]; [|by rewrite bool_decide_eq_false_2].
  rewrite bool_decide_eq_true_2 by done. cbn [negb].
  destruct (select_by_id s fid) as [f|] eqn:Ef; [|done].
  destruct (filter (fun d => d ∉ (list_to_set (id <$> rows s) : gset Z)) D) as [|m ms] eqn:Em;
    [|done].
  change (0 <? length (@nil Z))%nat with false. cbv iota.
  destruct (check_cycles _ fid D) eqn:Ec; [done|]. cbn [fst].
  apply check_cycles_None in Ec.
  pose proof Hok as [Hrows Hids Hlast Hrowid Hprio Hexist Hacyc].
  pose proof (select_by_id_Some _ _ _ Ef) as [Hf Hidf].
  pose proof (select_by_id_map _ _ _ Hids Ef) as Hmf.
  assert (Hall : Forall (fun d => d ∈ id <$> rows s) D).
  { apply Forall_forall. intros d Hd. destruct (decide (d ∈ id <$> rows s)); [done|].
    assert (d ∈ filter (fun d => d ∉ (list_to_set (id <$> rows s) : gset Z)) D) as H.
    { apply list_elem_of_filter. split; [|done]. by rewrite elem_of_list_to_set. }
    rewrite Em in H. by apply elem_of_nil in H. }
  set (sorted := if (0 <? length D)%nat then sort_ids D else []).
  assert (Hperm : sorted ≡ₚ D).
  { unfold sorted. destruct D; [done|]. cbn [length Nat.ltb Nat.leb]. apply sort_ids_perm. }
  assert (Hsorted : StronglySorted Z.le sorted).
  { unfold sorted. destruct (0 <? length D)%nat; [apply sort_ids_sorted|constructor]. }
  assert (Hdef : default [] (if (0 <? length sorted)%nat then Some sorted else None)
                 = sorted) by by destruct sorted.
  apply table_ok_set_dependencies; try done; rewrite ?Hdef; try done.
  - by rewrite Hperm.
  - by rewrite Hperm.
  - by destruct sorted.
  - by rewrite Hperm.
  - assert (Htest : acyclic (rows (update_where_id fid (set_dependencies (Some D)) s))).
    { unfold acyclic.
      apply (acyclic_replace_edges (dep_edge (feature_map_of (rows s))) _ fid (fun d => d ∈ D));
        [| |exact Hacyc].
      - intros a b Hab. apply dep_edge_update in Hab as (g & Hg & Hb); [|done].
        destruct (decide (a = fid)) as [->|Ha]; [by right|]. left. split; [done|by exists g].
      - intros d Hd. eapply Forall_forall in Ec; [|exact Hd].
        apply would_create_false_no_path in Ec; [done|].
        change (is_Some (feature_map_of
                  (rows (update_where_id fid (set_dependencies (Some D)) s)) !! fid)).
        rewrite feature_map_of_update, lookup_fmap, Hmf by done. by eexists. }
    intros x Hx. apply (Htest x). eapply tc_subrel; [|exact Hx].
    intros a b Hab. apply dep_edge_update in Hab as (g & Hg & Hb); [|done].
    apply dep_edge_update; [done|]. exists g. split; [done|].
    destruct (decide (a = fid)); [|done].
    unfold deps_of at 1 in Hb. cbn [set_dependencies dependencies] in Hb.
    rewrite Hdef, Hperm in Hb. done.
Qed.

(** *** [feature_create_bulk] *)

Lemma validate_indices_None i indices :
  validate_indices i indices = None ->
  Forall (fun idx => 0 <= idx < Z.of_nat i) indices.
Proof.
  induction indices as [|idx rest IH]; simpl; [constructor|].
  destruct (Z.ltb_spec idx 0); [done|].
  destruct (Z.geb_spec idx (Z.of_nat i)); [done|].
  intros Hrest. constructor; [lia|by apply IH].
Qed.

Lemma validate_bulk_None fds : forall i k fd,
  validate_bulk i fds = None -> fds !! k = Some fd ->
  let indices := default [] (depends_on_indices fd) in
  NoDup indices
  ∧ Z.of_nat (length indices) <= MAX_DEPENDENCIES
  ∧ Forall (fun idx => 0 <= idx < Z.of_nat (i + k)) indices.
Proof.
  induction fds as [|fd0 fds IH]; intros i k fd Hv Hk; [done|].
  cbn [validate_bulk] in Hv.
  destruct (falsy (fd_category fd0) || falsy (fd_name fd0) || falsy (fd_description fd0));
    [done|].
  assert (validate_bulk (S i) fds = None
          ∧ (NoDup (default [] (depends_on_indices fd0))
             ∧ Z.of_nat (length (default [] (depends_on_indices fd0))) <= MAX_DEPENDENCIES
             ∧ Forall (fun idx => 0 <= idx < Z.of_nat i)
                 (default [] (depends_on_indices fd0)))) as [Hrest Hhere].
  { cbv zeta in Hv.
    destruct (0 <? length (default [] (depends_on_indices fd0)))%nat eqn:El.
    - destruct (Z.gtb_spec (Z.of_nat (length (default [] (depends_on_indices fd0))))
                  MAX_DEPENDENCIES); [done|].
      destruct (decide (NoDup (default [] (depends_on_indices fd0)))) as [Hnd|Hnd];
        [|by rewrite bool_decide_eq_false_2 in Hv].
      rewrite bool_decide_eq_true_2 in Hv by done. cbn [negb] in Hv.
      destruct (validate_indices i (default [] (depends_on_indices fd0))) eqn:Evi; [done|].
      split; [done|]. split; [done|]. split; [lia|]. by apply validate_indices_None.
    - split; [done|]. destruct (default [] (depends_on_indices fd0)); [|done].
      split; [constructor|]. split; [simpl; unfold MAX_DEPENDENCIES; lia|constructor]. }
  destruct k as [|k]; simpl in Hk.
  - injection Hk as <-. cbv zeta. by rewrite Nat.add_0_r.
  - specialize (IH (S i) k fd Hrest Hk). cbv zeta in *.
    by replace (i + S k)%nat with (S i + k)%nat by lia.
Qed.

Lemma bulk_insert_ok fds : forall i s created start,
  start + Z.of_nat i = next_priority s -> table_ok s ->
  table_ok (bulk_insert start i fds s created).1
  ∧ exists new,
      rows (bulk_insert start i fds s created).1 = rows s ++ new
      ∧ (bulk_insert start i fds s created).2 = created ++ (id <$> new)
      ∧ length new = length fds
      ∧ Forall (fun f => deps_of f = []) new.
Proof.
  induction fds as [|fd fds IH]; intros i s created start Hst Hok; cbn [bulk_insert].
  - split; [done|]. exists []. by rewrite !app_nil_r.
  - pose proof (next_priority_insert (start + Z.of_nat i) (fd_category fd) (fd_name fd)
                  (fd_description fd) (fd_steps fd) s ltac:(lia)) as Hn.
    pose proof (table_ok_insert (start + Z.of_nat i) (fd_category fd) (fd_name fd)
                  (fd_description fd) (fd_steps fd) s Hok) as Hins.
    destruct (insert_feature_rows (start + Z.of_nat i) (fd_category fd) (fd_name fd)
                (fd_description fd) (fd_steps fd) s) as (Hr & _ & _ & Ed & _).
    destruct (insert_feature (start + Z.of_nat i) (fd_category fd) (fd_name fd)
                (fd_description fd) (fd_steps fd) s) as [s1 row].
    cbn [fst snd] in *.
    destruct (IH (S i) s1 (created ++ [id row]) start) as (Hok' & new & H1 & H2 & H3 & H4).
    { lia. }
    { apply Hins.
      - rewrite Hst. apply next_priority_above_rows.
      - rewrite Hst. by apply next_priority_pos, table_ok_positive. }
    split; [done|]. exists (row :: new).
    rewrite H1, H2, Hr, fmap_cons, <- !app_assoc. split; [done|]. split; [done|].
    split; [simpl; lia|]. constructor; [|done]. unfold deps_of. by rewrite Ed.
Qed.

Lemma lookup_total_default (l : list Z) (i : nat) (c : Z) :
  l !! i = Some c -> default 0 (l !! i) = c.
Proof. by intros ->. Qed.

Lemma bulk_link_ok created fds : forall i s n,
  table_ok s ->
  NoDup created ->
  (forall c, c ∈ created -> c ∈ id <$> rows s) ->
  length created = (i + length fds)%nat ->
  (forall k fd, fds !! k = Some fd ->
     NoDup (default [] (depends_on_indices fd))
     ∧ Z.of_nat (length (default [] (depends_on_indices fd))) <= MAX_DEPENDENCIES
     ∧ Forall (fun idx => 0 <= idx < Z.of_nat (i + k)) (default [] (depends_on_indices fd))) ->
  (forall f d k c, f ∈ rows s -> d ∈ deps_of f -> created !! k = Some c -> (i <= k)%nat ->
     d ≠ c) ->
  table_ok (bulk_link i fds created s n).1.
Proof.
  induction fds as [|fd fds IH]; intros i s n Hok Hnd Hin Hlen Hval Hinv;
    cbn [bulk_link]; [done|].
  cbn [length] in Hlen.
  assert (Hval' : forall k fd', fds !! k = Some fd' ->
     NoDup (default [] (depends_on_indices fd'))
     ∧ Z.of_nat (length (default [] (depends_on_indices fd'))) <= MAX_DEPENDENCIES
     ∧ Forall (fun idx => 0 <= idx < Z.of_nat (S i + k))
         (default [] (depends_on_indices fd'))).
  { intros k fd' Hk. specialize (Hval (S k) fd' Hk).
    by replace (i + S k)%nat with (S i + k)%nat in Hval by lia. }
  destruct (Hval 0%nat fd eq_refl) as (Hidx_nd & Hidx_len & Hidx).
  rewrite Nat.add_0_r in Hidx.
  destruct (0 <? length (default [] (depends_on_indices fd)))%nat eqn:El.
  2:{ apply IH; try done; [lia|].
      intros f d k c Hf Hd Hk Hle. eapply Hinv; [done..|lia]. }
  destruct (lookup_lt_is_Some_2 created i ltac:(lia)) as [ci Hci].
  rewrite (lookup_total_default _ _ _ Hci).
  set (indices := default [] (depends_on_indices fd)) in *.
  set (dep_ids := sort_ids ((fun idx => default 0 (created !! Z.to_nat idx)) <$> indices)).
  assert (Hdep : forall d, d ∈ dep_ids ->
            exists j, (j < i)%nat ∧ created !! j = Some d).
  { intros d Hd. unfold dep_ids in Hd. rewrite sort_ids_perm in Hd.
    apply list_elem_of_fmap in Hd as (idx & -> & Hidx').
    eapply Forall_forall in Hidx; [|exact Hidx'].
    destruct (lookup_lt_is_Some_2 created (Z.to_nat idx) ltac:(lia)) as [c Hc].
    exists (Z.to_nat idx). split; [lia|]. by rewrite Hc. }
  assert (Hci_not : ci ∉ dep_ids).
  { intros (j & Hj & Hcj)%Hdep.
    pose proof (NoDup_lookup _ _ _ _ Hnd Hci Hcj). lia. }
  pose proof Hok as [Hrows Hids Hlast Hrowid Hprio Hexist Hacyc].
  assert (Hok' : table_ok (update_where_id ci (set_dependencies (Some dep_ids)) s)).
  { apply table_ok_set_dependencies; try done; cbn [default]; unfold Datatypes.id.
    - unfold dep_ids. rewrite sort_ids_perm.
      apply NoDup_fmap_2_strong; [|done].
      intros x y Hx Hy Heq.
      pose proof (proj1 (Forall_forall _ _) Hidx x Hx) as Hx'.
      pose proof (proj1 (Forall_forall _ _) Hidx y Hy) as Hy'. simpl in *.
      destruct (lookup_lt_is_Some_2 created (Z.to_nat x) ltac:(lia)) as [cx Hcx].
      destruct (lookup_lt_is_Some_2 created (Z.to_nat y) ltac:(lia)) as [cy Hcy].
      rewrite Hcx, Hcy in Heq. simpl in Heq. subst cy.
      pose proof (NoDup_lookup _ _ _ _ Hnd Hcx Hcy). lia.
    - unfold dep_ids. by rewrite sort_ids_perm, length_fmap.
    - apply sort_ids_sorted.
    - intros [= H]. apply (f_equal length) in H. unfold dep_ids in H.
      rewrite sort_ids_perm, length_fmap in H. simpl in H.
      apply Nat.ltb_lt in El. fold indices in El. lia.
    - apply Forall_forall. intros d (j & _ & Hj)%Hdep.
      apply Hin. by eapply list_elem_of_lookup_2.
    - unfold acyclic.
      apply (acyclic_replace_edges (dep_edge (feature_map_of (rows s))) _ ci
               (fun d => d ∈ dep_ids)); [| |exact Hacyc].
      + intros a b Hab. apply dep_edge_update in Hab as (g & Hg & Hb); [|done].
        destruct (decide (a = ci)) as [->|Ha]; [by right|]. left. split; [done|by exists g].
      + intros d Hd Hr. apply rtc_inv_r in Hr as [->|(y & _ & Hy)]; [done|].
        apply dep_edge_update in Hy as (g & Hg & Hb); [|done].
        destruct (decide (y = ci)) as [->|Hyc]; [done|].
        apply feature_map_of_lookup in Hg as [Hg _].
        by eapply (Hinv g ci i ci). }
  apply IH; try done.
  - intros c Hc. rewrite update_where_id_id by done. by apply Hin.
  - lia.
  - intros f' d k c (g & Hg & ->)%elem_of_update Hd Hk Hle.
    destruct (decide (id g = ci)).
    + intros ->. apply Hdep in Hd as (j & Hj & Hcj).
      pose proof (NoDup_lookup _ _ _ _ Hnd Hk Hcj). lia.
    + eapply Hinv; [done..|lia].
Qed.

Lemma table_ok_create_bulk fds s : table_ok s -> table_ok (feature_create_bulk fds s).1.
Proof.
  intros Hok. unfold feature_create_bulk.
  destruct (validate_bulk 0 fds) eqn:Ev; [done|].
  destruct (lockPriority s) as [s1|] eqn:El; [|done].
  pose proof (table_ok_lock _ _ El Hok) as Hok1.
  destruct (bulk_insert_ok fds 0 s1 [] (next_priority s1) ltac:(simpl; lia) Hok1)
    as (Hok2 & new & Hr & Hc & Hlen & Hnone).
  destruct (bulk_insert (next_priority s1) 0 fds s1 []) as [s2 created].
  cbn [fst snd] in *. rewrite app_nil_l in Hc. subst created.
  pose proof (bulk_link_ok (id <$> new) fds 0 s2 0 Hok2) as Hlink.
  destruct (bulk_link 0 fds (id <$> new) s2 0) as [s3 deps_count].
  cbn [fst] in *. apply table_ok_unlock.
  pose proof Hok2 as [_ Hids2 _ _ _ _ _]. rewrite Hr, fmap_app in Hids2.
  apply NoDup_app in Hids2 as (Hids1 & Hdisj & Hnew).
  apply Hlink; try done.
  - intros c Hc. rewrite Hr, fmap_app. apply elem_of_app. by right.
  - by rewrite length_fmap.
  - intros k fd Hk. by apply (validate_bulk_None fds 0 k fd).
  - intros f d k c Hf Hd Hk _ ->. rewrite Hr in Hf.
    apply list_elem_of_lookup_2 in Hk.
    apply elem_of_app in Hf as [Hf|Hf].
    + apply (Hdisj c); [|done].
      pose proof Hok1 as [_ _ _ _ _ Hexist1 _].
      exact (proj1 (Forall_forall _ _) (proj1 (Forall_forall _ _) Hexist1 f Hf) c Hd).
    + eapply Forall_forall in Hnone; [|exact Hf]. rewrite Hnone in Hd.
      by apply elem_of_nil in Hd.
Qed.

Lemma table_ok_run_call c s : table_ok s -> table_ok (run_call c s).
Proof.
  destruct c; cbn [run_call].
  - apply table_ok_mark_passing.
  - apply table_ok_mark_failing.
  - apply table_ok_skip.
  - apply table_ok_mark_in_progress.
  - apply table_ok_claim_and_get.
  - apply table_ok_clear_in_progress.
  - apply table_ok_create_bulk.
  - apply table_ok_create.
  - apply table_ok_add_dependency.
  - apply table_ok_remove_dependency.
  - apply table_ok_feature_set_dependencies.
Qed.

Lemma table_ok_run_calls calls : forall s, table_ok s -> table_ok (run_calls calls s).
Proof.
  unfold run_calls. induction calls as [|c calls IH]; intros s Hok; simpl; [done|].
  by apply IH, table_ok_run_call.
Qed.

(** ** The cycles reported by [resolve_dependencies] *)

Lemma resolve_dependencies_cycles_spec features :
  NoDup (id <$> features) ->
  exists r sorted,
    resolve_dependencies features = Done r
    ∧ ordered_features r = sorted ++ residual features sorted
    ∧ (forall f, f ∈ sorted -> f ∈ features)
    ∧ NoDup (id <$> sorted)
    ∧ greedy features sorted
    ∧ (forall f, f ∈ features -> f ∉ sorted -> unprocessed_deps features sorted f ≠ [])
    ∧ (residual features sorted = [] -> circular_dependencies r = [])
    ∧ (residual features sorted ≠ [] ->
       _detect_cycles (residual features sorted) = Done (circular_dependencies r)).
Proof.
  intros Hnd. destruct (build_graph_spec features Hnd) as (_ & Hadj & Hids & _).
  destruct (kahn_loop_total features Hnd (g_adjacency (build_graph features)) Hadj Hids
              (length features) _ (kahn_inv_init features Hnd))
    as (st' & Hloop & Hinv & Hheap); [simpl; lia|].
  destruct Hinv as [Hsub Hnodup Hdeg Hzero Hgreedy]. rewrite Hheap, app_nil_r in *.
  assert (Hres : forall f, f ∈ features -> f ∉ k_ordered st' ->
            unprocessed_deps features (k_ordered st') f ≠ []).
  { intros f Hf Hnot Hun. apply Hnot, (Hzero f Hf). by rewrite (Hdeg f Hf), Hun. }
  assert (Hrem : filter (fun f => includes (k_ordered st') f = false) features
                 = residual features (k_ordered st')).
  { apply list_filter_iff. intros f. unfold includes.
    by rewrite bool_decide_eq_false. }
  pose proof (sorted_residual_perm features (k_ordered st') Hnd Hnodup Hsub) as Hperm.
  apply Permutation_length in Hperm. rewrite length_app in Hperm.
  unfold resolve_dependencies. rewrite Hloop. cbn [mbind outcome_bind].
  destruct (Z.ltb_spec (Z.of_nat (length (k_ordered st'))) (Z.of_nat (length features)))
    as [Hlt|Hge].
  - destruct (detect_cycles_total
                (filter (fun f => includes (k_ordered st') f = false) features))
      as [cycles Hc]. rewrite Hc.
    cbn [mbind outcome_bind mret outcome_ret].
    eexists _, (k_ordered st'). split; [done|]. simpl. rewrite Hrem in *.
    split_and!; try done.
    intros Hnil. rewrite Hnil in Hperm. simpl in Hperm. lia.
  - cbn [mret outcome_ret].
    eexists _, (k_ordered st'). split; [done|]. simpl.
    assert (residual features (k_ordered st') = []) as Hnil.
    { destruct (residual features (k_ordered st')); [done|]. simpl in Hperm. lia. }
    rewrite Hnil, app_nil_r. split_and!; done.
Qed.

(** ** Tables built by the tools *)

(** X17: in every table that calls of the writing tools build from the
    empty table, ids are unique, positive and at most the last rowid, and
    priorities are distinct and positive. *)
Theorem tool_runs_keep_ids_and_priorities calls :
  let s := run_calls calls empty_store in
  NoDup (id <$> rows s)
  ∧ NoDup (priority <$> rows s)
  ∧ Forall (fun f => 0 < id f <= last_rowid s ∧ 0 < priority f) (rows s).
Proof.
  intros s. destruct (table_ok_run_calls calls empty_store table_ok_empty)
    as [Hrows Hids _ Hrowid Hprio _ _]. fold s in Hrows, Hids, Hrowid, Hprio.
  split; [done|]. split; [done|].
  apply Forall_forall. intros f Hf.
  pose proof (proj1 (Forall_forall _ _) Hrows f Hf) as (H1 & H2 & _).
  pose proof (proj1 (Forall_forall _ _) Hrowid f Hf). simpl in *. lia.
Qed.

Lemma acyclic_no_self features f :
  NoDup (id <$> features) -> acyclic features -> f ∈ features -> id f ∉ deps_of f.
Proof.
  intros Hnd Hacyc Hf Hin. apply (Hacyc (id f)). apply tc_once.
  exists f. split; [by apply feature_map_of_NoDup|done].
Qed.

(** X18: in every table that calls of the writing tools build from the
    empty table, every dependency list is duplicate-free, in ascending
    order, of at most [MAX_DEPENDENCIES] entries, never stored empty, and
    names only ids of other rows of the table. *)
Theorem tool_runs_keep_dependencies_valid calls :
  let s := run_calls calls empty_store in
  Forall
    (fun f =>
       NoDup (deps_of f)
       ∧ StronglySorted Z.le (deps_of f)
       ∧ Z.of_nat (length (deps_of f)) <= MAX_DEPENDENCIES
       ∧ dependencies f ≠ Some []
       ∧ Forall (fun d => d ∈ id <$> rows s ∧ d ≠ id f) (deps_of f))
    (rows s).
Proof.
  intros s. destruct (table_ok_run_calls calls empty_store table_ok_empty)
    as [Hrows Hids _ _ _ Hexist Hacyc]. fold s in Hrows, Hids, Hexist, Hacyc.
  apply Forall_forall. intros f Hf.
  pose proof (proj1 (Forall_forall _ _) Hrows f Hf) as (_ & _ & H3 & H4 & H5 & H6 & _).
  split_and!; try done.
  apply Forall_forall. intros d Hd. split.
  - exact (proj1 (Forall_forall _ _) (proj1 (Forall_forall _ _) Hexist f Hf) d Hd).
  - intros ->. by apply (acyclic_no_self (rows s) f).
Qed.

(** X19: in every table that calls of the writing tools build from the
    empty table, no feature is both passing and in progress. *)
Theorem tool_runs_keep_status_exclusive calls :
  Forall (fun f => ¬ (passes f = true ∧ in_progress f = true))
    (rows (run_calls calls empty_store)).
Proof.
  destruct (table_ok_run_calls calls empty_store table_ok_empty) as [Hrows _ _ _ _ _ _].
  eapply Forall_impl; [exact Hrows|]. intros f (_ & _ & _ & _ & _ & _ & H) [Hp Hip].
  rewrite (H Hp) in Hip. done.
Qed.


(** X21: on every table that calls of the writing tools build from the
    empty table, [resolve_dependencies] reports no cycle and no missing
    dependency, and returns a rearrangement of the rows in which every
    feature comes after all of its dependencies. *)
Theorem tool_runs_resolve_cleanly calls :
  let s := run_calls calls empty_store in
  exists r,
    resolve_dependencies (rows s) = Done r
    ∧ circular_dependencies r = []
    ∧ missing_dependencies r = ∅
    ∧ ordered_features r ≡ₚ rows s
    ∧ forall pre c post, ordered_features r = pre ++ c :: post ->
        forall d, d ∈ deps_of c -> d ∈ id <$> pre.
Proof.
  intros s. pose proof (table_ok_run_calls calls empty_store table_ok_empty) as Hok.
  fold s in Hok. pose proof Hok as [Hrows Hids _ _ _ Hexist Hacyc].
  destruct (resolve_dependencies_spec (rows s) Hids)
    as (r & sorted & Hr & Hord & _ & Hsub & Hns & Hgreedy & Hres).
  destruct (resolve_dependencies_cycles_spec (rows s) Hids)
    as (r' & sorted' & Hr' & Hord' & Hsub' & Hns' & _ & Hres' & Hnil & _).
  rewrite Hr in Hr'. injection Hr' as <-.
  pose proof (residual_empty (rows s) sorted Hids Hacyc Hres) as Hempty.
  pose proof (residual_empty (rows s) sorted' Hids Hacyc Hres') as Hempty'.
  exists r. split; [done|]. split; [by apply Hnil|]. split; [|split].
  - rewrite (resolve_dependencies_missing (rows s) r Hr).
    destruct (g_missing_lookup (rows s) Hids) as [Hin Hout].
    apply map_empty. intros k. apply eq_None_not_Some. intros Hk.
    pose proof (Hout k Hk) as Hkin. apply list_elem_of_fmap in Hkin as (f & -> & Hf).
    rewrite (Hin f Hf) in Hk. cbv zeta in Hk.
    assert (filter (fun d => d ∉ id <$> rows s) (deps_of f) = []) as Hnone.
    { destruct (filter (fun d => d ∉ id <$> rows s) (deps_of f)) as [|m ms] eqn:E; [done|].
      assert (m ∈ filter (fun d => d ∉ id <$> rows s) (deps_of f)) as Hm
        by (rewrite E; apply list_elem_of_here).
      apply list_elem_of_filter in Hm as [Hn Hm]. destruct Hn.
      exact (proj1 (Forall_forall _ _) (proj1 (Forall_forall _ _) Hexist f Hf) m Hm). }
    rewrite Hnone in Hk. rewrite decide_True in Hk by done. by destruct Hk.
  - rewrite Hord. by apply sorted_residual_perm.
  - rewrite Hord, Hempty, app_nil_r. intros pre c post Heq d Hd.
    destruct (Hgreedy pre c post Heq) as [Hun _].
    apply (proj1 (unprocessed_deps_nil _ _ _) Hun d Hd).
    assert (c ∈ rows s) as Hc.
    { apply Hsub. rewrite Heq. apply elem_of_app. right. apply list_elem_of_here. }
    exact (proj1 (Forall_forall _ _) (proj1 (Forall_forall _ _) Hexist c Hc) d Hd).
Qed.

(** ** compute_depth on a graph without cycles *)

Lemma longest_path_unique graph x d1 d2 :
  longest_path graph x d1 -> longest_path graph x d2 -> d1 = d2.
Proof.
  intros (n1 & -> & [b1 H1] & U1) (n2 & -> & [b2 H2] & U2).
  pose proof (U1 _ _ H2). pose proof (U2 _ _ H1). lia.
Qed.

Lemma longest_path_leaf graph x : adjz graph x = [] -> longest_path graph x 0.
Proof.
  intros Hx. exists 0%nat. split; [done|]. split; [exists x; constructor|].
  intros m b Hm. destruct Hm as [|m a y b Hay _]; [done|].
  unfold adj_edge in Hay. rewrite Hx in Hay. by apply elem_of_nil in Hay.
Qed.

Lemma longest_path_step graph x (m : Z) :
  (exists y, y ∈ adjz graph x ∧ longest_path graph y m) ->
  (forall y, y ∈ adjz graph x -> exists d, longest_path graph y d ∧ d <= m) ->
  longest_path graph x (1 + m).
Proof.
  intros (y & Hy & (n & -> & [b Hb] & Hu)) Hall.
  exists (S n). split; [lia|]. split.
  - exists b. by eapply nsteps_l.
  - intros k c Hk. destruct Hk as [|k a z c Haz Hzc]; [lia|].
    destruct (Hall z Haz) as (d & (nz & -> & _ & Huz) & Hle).
    specialize (Huz _ _ Hzc). lia.
Qed.

Lemma longest_path_nonneg graph x d : longest_path graph x d -> 0 <= d.
Proof. intros (n & -> & _). lia. Qed.

Lemma max_dep_depths_correct graph (l : list Z) : forall acc memo,
  (forall y, y ∈ l -> forall memo, memo_ok graph memo ->
     exists d memo',
       (forall gas, d < Z.of_nat gas ->
          compute_depth gas y graph memo = Done (d, memo'))
       ∧ longest_path graph y d ∧ memo_ok graph memo') ->
  memo_ok graph memo ->
  exists m memo',
    (forall gas, m < Z.of_nat gas ->
       max_dep_depths (fun dep_id => compute_depth gas dep_id graph) l acc memo
       = Done (m, memo'))
    ∧ memo_ok graph memo'
    ∧ acc <= m
    ∧ (forall y, y ∈ l -> exists d, longest_path graph y d ∧ d <= m)
    ∧ (m = acc ∨ exists y, y ∈ l ∧ longest_path graph y m).
Proof.
  induction l as [|y l IH]; intros acc memo Hcall Hmemo.
  - exists acc, memo. split; [done|]. split; [done|]. split; [lia|].
    split; [by intros y ?%elem_of_nil|by left].
  - destruct (Hcall y (list_elem_of_here _ _) memo Hmemo)
      as (d & memo1 & Hrun1 & Hd & Hmemo1).
    destruct (IH (Z.max acc d) memo1) as (m & memo2 & Hrun2 & Hmemo2 & Hle & Hall & Hex).
    { intros z Hz. by apply Hcall, list_elem_of_further. }
    { done. }
    exists m, memo2. split; [|split; [done|split; [lia|split]]].
    + intros gas Hg. cbn [max_dep_depths]. rewrite Hrun1 by lia. by apply Hrun2.
    + intros z [-> |Hz]%elem_of_cons; [|by apply Hall]. exists d. split; [done|lia].
    + destruct Hex as [-> |(z & Hz & Hzm)].
      * destruct (Z.max_spec acc d) as [[_ ->]|[_ ->]]; [|by left].
        right. exists y. split; [apply list_elem_of_here|done].
      * right. exists z. split; [by apply list_elem_of_further|done].
Qed.

Lemma compute_depth_correct graph x :
  sn (adj_edge graph) x ->
  forall memo, memo_ok graph memo ->
  exists d memo',
    (forall gas, d < Z.of_nat gas -> compute_depth gas x graph memo = Done (d, memo'))
    ∧ longest_path graph x d ∧ memo_ok graph memo'.
Proof.
  induction 1 as [x _ IH]. intros memo Hmemo.
  destruct (memo !! x) as [d|] eqn:Em.
  { exists d, memo. split; [|split; [by apply Hmemo|done]].
    pose proof (longest_path_nonneg _ _ _ (Hmemo x d Em)).
    intros [|gas] Hg; [lia|]. cbn [compute_depth]. by rewrite Em. }
  destruct (adjz graph x) as [|dep0 deps] eqn:Ed.
  { exists 0, (<[x := 0]> memo). split; [|split].
    - intros [|gas] Hg; [lia|]. cbn [compute_depth]. rewrite Em.
      unfold adjz in Ed. by rewrite Ed.
    - by apply longest_path_leaf.
    - intros y d. rewrite lookup_insert. case_decide; [|apply Hmemo].
      intros [= <-]. subst y. by apply longest_path_leaf. }
  assert (Hsucc : forall y, y ∈ dep0 :: deps -> forall memo, memo_ok graph memo ->
     exists d memo',
       (forall gas, d < Z.of_nat gas ->
          compute_depth gas y graph memo = Done (d, memo'))
       ∧ longest_path graph y d ∧ memo_ok graph memo').
  { intros y Hy. apply IH. unfold adj_edge. simpl. by rewrite Ed. }
  destruct (Hsucc dep0 (list_elem_of_here _ _) memo Hmemo)
    as (d0 & memo0 & Hrun0 & Hd0 & Hmemo0).
  destruct (max_dep_depths_correct graph deps d0 memo0)
    as (m & memo1 & Hrun1 & Hmemo1 & Hle & Hall & Hex); [|done|].
  { intros y Hy. by apply Hsucc, list_elem_of_further. }
  assert (Hx : longest_path graph x (1 + m)).
  { apply longest_path_step.
    - rewrite Ed. destruct Hex as [-> |(y & Hy & Hym)].
      + exists dep0. split; [apply list_elem_of_here|done].
      + exists y. split; [by apply list_elem_of_further|done].
    - rewrite Ed. intros y [-> |Hy]%elem_of_cons; [|by apply Hall].
      exists d0. split; [done|lia]. }
  pose proof (longest_path_nonneg _ _ _ Hd0) as Hd0pos.
  exists (1 + m), (<[x := 1 + m]> memo1). split; [|split; [done|]].
  - intros [|gas] Hg; [lia|]. cbn [compute_depth]. rewrite Em.
    unfold adjz in Ed. rewrite Ed. rewrite Hrun0 by lia. by rewrite Hrun1 by lia.
  - intros y d. rewrite lookup_insert. case_decide; [|apply Hmemo1].
    intros [= <-]. by subst y.
Qed.

Lemma max_dep_depths_more_gas (call call' : Z -> gmap Z Z -> outcome (Z * gmap Z Z))
    (l : list Z) : forall acc memo r,
  (forall y memo r, call y memo = Done r -> call' y memo = Done r) ->
  max_dep_depths call l acc memo = Done r ->
  max_dep_depths call' l acc memo = Done r.
Proof.
  induction l as [|y l IH]; intros acc memo r Hcall; simpl; [done|].
  destruct (call y memo) as [[d memo']| |] eqn:E; [|done..].
  rewrite (Hcall _ _ _ E). by apply IH.
Qed.

Lemma compute_depth_more_gas graph gas : forall gas' x memo r,
  (gas <= gas')%nat ->
  compute_depth gas x graph memo = Done r ->
  compute_depth gas' x graph memo = Done r.
Proof.
  induction gas as [|gas IH]; intros gas' x memo r Hle; [done|].
  destruct gas' as [|gas']; [lia|]. cbn [compute_depth].
  destruct (memo !! x); [done|].
  destruct (default [] (graph !! x)) as [|dep0 deps]; [done|].
  destruct (compute_depth gas dep0 graph memo) as [[d0 memo0]| |] eqn:E0; [|done..].
  rewrite (IH gas' dep0 memo _ ltac:(lia) E0).
  destruct (max_dep_depths _ deps d0 memo0) as [[m memo1]| |] eqn:E1; [|done..].
  rewrite (max_dep_depths_more_gas _ (fun dep_id => compute_depth gas' dep_id graph)
             deps d0 memo0 _ ltac:(intros y mm rr; apply IH; lia) E1).
  done.
Qed.

Lemma adj_edge_adjacency_list features a b :
  adj_edge (build_adjacency_list features) a b <-> dep_edge (feature_map_of features) a b.
Proof.
  unfold adj_edge, adjz, dep_edge. rewrite build_adjacency_list_eq, lookup_fmap.
  destruct (feature_map_of features !! a) as [f|]; simpl.
  - split; [intros H; by exists f|]. by intros (f' & [= <-] & H).
  - split; [by intros ?%elem_of_nil|]. by intros (f' & ? & _).
Qed.

Lemma nsteps_iff {A} (R R' : relation A) n x y :
  (forall a b, R a b <-> R' a b) -> nsteps R n x y -> nsteps R' n x y.
Proof.
  intros H. induction 1 as [|n x y z Hxy _ IH]; [constructor|].
  eapply nsteps_l; [by apply H|done].
Qed.

(** X22: on a snapshot without dependency cycles, take the number [n] of
    edges of a longest dependency chain that starts at an id (0 for an id
    without dependencies or not in the snapshot). Where the call stack
    has room for more than [n] nested calls, [compute_depth] on the map of
    [build_adjacency_list] returns [n] for the id; and whenever it
    returns, on a stack of any depth, it returns [n]. *)
Theorem compute_depth_longest_chain features x :
  acyclic features ->
  let fm := feature_map_of features in
  let graph := build_adjacency_list features in
  exists n : nat,
    chain_from fm n x
    ∧ (forall m, chain_from fm m x -> (m <= n)%nat)
    ∧ (forall stack, (n < stack)%nat ->
         exists memo, compute_depth stack x graph ∅ = Done (Z.of_nat n, memo))
    ∧ (forall stack r, compute_depth stack x graph ∅ = Done r -> r.1 = Z.of_nat n).
Proof.
  intros Hacyc fm graph.
  assert (Hsn : sn (adj_edge graph) x).
  { apply tc_finite_sn.
    - intros y Hy. apply (Hacyc y). eapply tc_subrel; [|exact Hy].
      intros a b. apply adj_edge_adjacency_list.
    - exists (features ≫= deps_of). intros y Hy. apply (dep_edge_target features x).
      eapply tc_subrel; [|exact Hy]. intros a b. apply adj_edge_adjacency_list. }
  destruct (compute_depth_correct _ x Hsn ∅) as (d & memo & Hrun & Hd & _).
  { intros y d. by rewrite lookup_empty. }
  destruct Hd as (n & -> & [b Hb] & Hu).
  exists n. split; [|split; [|split]].
  - exists b. eapply nsteps_iff; [|exact Hb]. intros a c. apply adj_edge_adjacency_list.
  - intros m [c Hc]. apply (Hu m c). eapply nsteps_iff; [|exact Hc].
    intros a c'. symmetry. apply adj_edge_adjacency_list.
  - intros stack Hst. exists memo. apply Hrun. lia.
  - intros stack r Hr.
    pose proof (compute_depth_more_gas graph stack (Nat.max stack (S n)) x ∅ r
                  ltac:(lia) Hr) as Hr'.
    rewrite Hrun in Hr' by lia. by injection Hr' as <-.
Qed.

Lemma acyclic_of_decreasing features :
  Forall (fun f => Forall (fun d => d < id f) (deps_of f)) features -> acyclic features.
Proof.
  intros Hall x Hx.
  assert (forall a b, tc (dep_edge (feature_map_of features)) a b -> b < a) as Hlt.
  { intros a b H. induction H as [a b (f & Hf & Hb)|a b c (f & Hf & Hb) _ IH].
    - apply feature_map_of_lookup in Hf as [Hf <-].
      exact (proj1 (Forall_forall _ _) (proj1 (Forall_forall _ _) Hall f Hf) b Hb).
    - apply feature_map_of_lookup in Hf as [Hf <-].
      pose proof (proj1 (Forall_forall _ _) (proj1 (Forall_forall _ _) Hall f Hf) b Hb).
      simpl in *. lia. }
  specialize (Hlt x x Hx). lia.
Qed.

Lemma compute_depth_longest_chain_witness :
  acyclic scores_snapshot
  ∧ exists memo,
      compute_depth 3 3 (build_adjacency_list scores_snapshot) ∅ = Done (2, memo)
      ∧ chain_from (feature_map_of scores_snapshot) 2 3.
Proof.
  assert (acyclic scores_snapshot) as H.
  { apply acyclic_of_decreasing. unfold scores_snapshot. repeat constructor. }
  split; [exact H|].
  destruct (compute_depth_longest_chain scores_snapshot 3 H) as (n & Hc & _ & Hrun & Hval).
  assert (compute_depth 3 3 (build_adjacency_list scores_snapshot) ∅
          = Done (2, {[1 := 0; 2 := 1; 3 := 2]})) as E by (vm_compute; reflexivity).
  pose proof (Hval _ _ E) as Hn. simpl in Hn.
  assert (n = 2%nat) as -> by lia.
  exists {[1 := 0; 2 := 1; 3 := 2]}. split; [exact E|exact Hc].
Defined.

(** ** _detect_cycles reports a cycle exactly when there is one *)

(** [set_solver] from the hypotheses about sets alone. *)
Ltac set_solver_local :=
  repeat match goal with
         | H : forall _, _ |- _ => clear H
         | H : _ = Done _ |- _ => clear H
         | H : finished_ok _ _ |- _ => clear H
         end;
  set_solver.

Lemma dfs_deps_acyclic fm call fid deps : forall st r,
  (forall x, ¬ tc (dep_edge fm) x x) ->
  (forall d, d ∈ deps -> dep_edge fm fid d) ->
  (forall d st r, dep_edge fm fid d -> d ∉ d_visited st ->
     d_rec_stack st ⊆ d_visited st ->
     (forall x, x ∈ d_rec_stack st -> rtc (dep_edge fm) x d) ->
     call d st = Done r ->
     r.1 = false ∧ d_rec_stack r.2 = d_rec_stack st ∧ d_cycles r.2 = d_cycles st
     ∧ d_visited st ⊆ d_visited r.2) ->
  d_rec_stack st ⊆ d_visited st ->
  fid ∈ d_rec_stack st ->
  (forall x, x ∈ d_rec_stack st -> rtc (dep_edge fm) x fid) ->
  dfs_deps call fid deps st = Done r ->
  r.1 = false ∧ d_rec_stack r.2 = d_rec_stack st ∖ {[fid]} ∧ d_cycles r.2 = d_cycles st
  ∧ d_visited st ⊆ d_visited r.2.
Proof.
  induction deps as [|d deps IH]; intros st r Hacyc Hdeps Hcall Hsub Hfid Hreach; simpl.
  - intros [= <-]. simpl. done.
  - assert (Hd : dep_edge fm fid d) by apply Hdeps, list_elem_of_here.
    assert (Hdeps' : forall d', d' ∈ deps -> dep_edge fm fid d').
    { intros d' Hd'. by apply Hdeps, list_elem_of_further. }
    destruct (decide (d ∉ d_visited st)) as [Hnv|Hv].
    + destruct (call d st) as [[b st']| |] eqn:E; [|done..].
      destruct (Hcall d st (b, st') Hd Hnv Hsub) as (Hb & Hrs & Hcy & Hvis); [|done|].
      { intros x Hx. eapply rtc_r; [by apply Hreach|done]. }
      simpl in *. subst b. intros Hrun.
      destruct (IH st' r Hacyc Hdeps' Hcall) as (H1 & H2 & H3 & H4); try done.
      * rewrite Hrs. set_solver_local.
      * by rewrite Hrs.
      * intros x Hx. apply Hreach. by rewrite <- Hrs.
      * rewrite H2, H3, Hrs, Hcy. split_and!; try done. set_solver_local.
    + destruct (decide (d ∈ d_rec_stack st)) as [Hin|Hnin].
      * destruct (Hacyc fid). eapply tc_rtc_r; [by apply tc_once|by apply Hreach].
      * by apply IH.
Qed.

Lemma dfs_acyclic fm gas : forall fid st r,
  (forall x, ¬ tc (dep_edge fm) x x) ->
  fid ∉ d_visited st ->
  d_rec_stack st ⊆ d_visited st ->
  (forall x, x ∈ d_rec_stack st -> rtc (dep_edge fm) x fid) ->
  dfs gas fm fid st = Done r ->
  r.1 = false ∧ d_rec_stack r.2 = d_rec_stack st ∧ d_cycles r.2 = d_cycles st
  ∧ d_visited st ⊆ d_visited r.2.
Proof.
  induction gas as [|gas IH]; intros fid st r Hacyc Hnv Hsub Hreach; [done|].
  cbn [dfs]. destruct (fm !! fid) as [feature|] eqn:Ef.
  - intros Hrun.
    apply (dfs_deps_acyclic fm) in Hrun as (H1 & H2 & H3 & H4); try done.
    + simpl in *. split_and!; try done; set_solver_local.
    + intros d Hd. by exists feature.
    + intros d st' r' Hd. by apply IH.
    + simpl. set_solver_local.
    + simpl. set_solver_local.
    + simpl. intros x [->%elem_of_singleton|Hx]%elem_of_union; [apply rtc_refl|by apply Hreach].
  - intros [= <-]. simpl. split_and!; try done; set_solver_local.
Qed.

Lemma detect_roots_acyclic fm gas fs : forall st st',
  (forall x, ¬ tc (dep_edge fm) x x) ->
  d_rec_stack st = ∅ -> d_cycles st = [] ->
  detect_roots gas fm fs st = Done st' -> d_cycles st' = [].
Proof.
  induction fs as [|f fs IH]; intros st st' Hacyc Hrs Hcy; simpl.
  - by intros [= <-].
  - destruct (decide (id f ∉ d_visited st)) as [Hnv|]; [|by apply IH].
    destruct (dfs gas fm (id f) st) as [r| |] eqn:E; [|done..]. simpl.
    apply dfs_acyclic in E as (_ & H2 & H3 & _); try done.
    + apply IH; [done|by rewrite H2|by rewrite H3].
    + rewrite Hrs. set_solver_local.
    + rewrite Hrs. set_solver_local.
Qed.

Lemma dfs_deps_cycles_grow call fid deps : forall st r,
  (forall d st r, call d st = Done r ->
     (length (d_cycles st) <= length (d_cycles r.2))%nat
     ∧ (r.1 = true -> (length (d_cycles st) < length (d_cycles r.2))%nat)) ->
  dfs_deps call fid deps st = Done r ->
  (length (d_cycles st) <= length (d_cycles r.2))%nat
  ∧ (r.1 = true -> (length (d_cycles st) < length (d_cycles r.2))%nat).
Proof.
  induction deps as [|d deps IH]; intros st r Hcall; simpl.
  - intros [= <-]. simpl. split; [lia|done].
  - destruct (decide (d ∉ d_visited st)).
    + destruct (call d st) as [[[] st']| |] eqn:E; [| |done..].
      * intros [= <-]. by apply (Hcall d st (true, st')).
      * intros Hrun. destruct (Hcall d st (false, st') E) as [Hle _].
        destruct (IH st' r Hcall Hrun) as [Hle' Hlt']. simpl in *.
        split; [lia|]. intros Hr. specialize (Hlt' Hr). lia.
    + destruct (decide (d ∈ d_rec_stack st)); [|by apply IH].
      intros [= <-]. simpl. rewrite length_app. simpl. split; [lia|]. lia.
Qed.

Lemma dfs_cycles_grow fm gas : forall fid st r,
  dfs gas fm fid st = Done r ->
  (length (d_cycles st) <= length (d_cycles r.2))%nat
  ∧ (r.1 = true -> (length (d_cycles st) < length (d_cycles r.2))%nat).
Proof.
  induction gas as [|gas IH]; intros fid st r; [done|].
  cbn [dfs]. destruct (fm !! fid) as [feature|].
  - intros Hrun. by apply dfs_deps_cycles_grow in Hrun.
  - intros [= <-]. simpl. split; [lia|done].
Qed.

Lemma detect_roots_cycles_grow fm gas fs : forall st st',
  detect_roots gas fm fs st = Done st' ->
  (length (d_cycles st) <= length (d_cycles st'))%nat.
Proof.
  induction fs as [|f fs IH]; intros st st'; simpl.
  - intros [= <-]. lia.
  - destruct (decide (id f ∉ d_visited st)); [|by apply IH].
    destruct (dfs gas fm (id f) st) as [r| |] eqn:E; [|done..]. simpl.
    intros Hrun. apply dfs_cycles_grow in E as [Hle _]. apply IH in Hrun. lia.
Qed.

Lemma finished_leave fid st :
  fid ∈ d_visited st -> finished (dfs_leave fid st) = finished st ∪ {[fid]}.
Proof.
  intros Hv. unfold finished, dfs_leave. simpl. apply set_eq. intros x.
  rewrite elem_of_union, !elem_of_difference, elem_of_singleton.
  destruct (decide (x = fid)) as [->|]; set_solver_local.
Qed.

Lemma finished_ok_leave fm fid st :
  fid ∈ d_visited st -> fid ∈ d_rec_stack st ->
  finished_ok fm st ->
  (forall y, dep_edge fm fid y -> y ∈ finished st) ->
  finished_ok fm (dfs_leave fid st).
Proof.
  intros Hv Hr Hok Hsucc x. rewrite finished_leave by done.
  assert (Hclosed : forall a b, rtc (dep_edge fm) a b -> a ∈ finished st -> b ∈ finished st).
  { intros a b Hab. induction Hab as [|a c b Hac _ IH]; [done|].
    intros Ha. apply IH. by apply (Hok a). }
  intros [Hx| ->%elem_of_singleton]%elem_of_union.
  - destruct (Hok x Hx) as [Hcl Hac]. split; [|done].
    intros y Hy. apply elem_of_union. left. by apply Hcl.
  - split.
    + intros y Hy. apply elem_of_union. left. by apply Hsucc.
    + intros Hcyc. apply tc_first in Hcyc as (y & Hy & Hback).
      pose proof (Hclosed _ _ Hback (Hsucc y Hy)) as Hfin.
      unfold finished in Hfin. set_solver_local.
Qed.

Lemma dfs_deps_complete fm call fid deps : forall st r,
  (forall d st r, d ∉ d_visited st -> d_rec_stack st ⊆ d_visited st ->
     finished_ok fm st -> call d st = Done r ->
     length (d_cycles r.2) = length (d_cycles st) ->
     r.1 = false ∧ d_rec_stack r.2 = d_rec_stack st ∧ finished_ok fm r.2
     ∧ d ∈ finished r.2 ∧ d_visited st ⊆ d_visited r.2) ->
  (forall d st r, call d st = Done r ->
     (length (d_cycles st) <= length (d_cycles r.2))%nat
     ∧ (r.1 = true -> (length (d_cycles st) < length (d_cycles r.2))%nat)) ->
  d_rec_stack st ⊆ d_visited st ->
  fid ∈ d_rec_stack st ->
  finished_ok fm st ->
  (forall y, dep_edge fm fid y -> y ∈ deps ∨ y ∈ finished st) ->
  dfs_deps call fid deps st = Done r ->
  length (d_cycles r.2) = length (d_cycles st) ->
  r.1 = false ∧ d_rec_stack r.2 = d_rec_stack st ∖ {[fid]} ∧ finished_ok fm r.2
  ∧ fid ∈ finished r.2 ∧ d_visited st ⊆ d_visited r.2.
Proof.
  induction deps as [|d deps IH]; intros st r Hcall Hgrow Hsub Hfid Hok Hsucc; simpl.
  - intros [= <-] _. simpl. split; [done|]. split; [done|].
    assert (fid ∈ d_visited st) as Hv by set_solver_local.
    split; [|split; [|done]].
    + apply finished_ok_leave; try done. intros y Hy.
      destruct (Hsucc y Hy) as [?%elem_of_nil|]; done.
    + rewrite finished_leave by done. set_solver_local.
  - destruct (decide (d ∉ d_visited st)) as [Hnv|Hv].
    + destruct (call d st) as [[b st']| |] eqn:E; [|done..].
      destruct (Hgrow d st (b, st') E) as [Hle Hlt]. simpl in *.
      destruct b.
      { intros [= <-] Heq. simpl in *. specialize (Hlt eq_refl). lia. }
      intros Hrun Heq.
      pose proof (dfs_deps_cycles_grow call fid deps st' r Hgrow Hrun) as [Hle' _].
      destruct (Hcall d st (false, st') Hnv Hsub Hok E) as (_ & Hrs & Hok' & Hd & Hvis);
        [simpl; lia|]. simpl in *.
      assert (Hmono : finished st ⊆ finished st').
      { unfold finished. rewrite Hrs. set_solver_local. }
      destruct (IH st' r Hcall Hgrow) as (H1 & H2 & H3 & H4 & H5); try done.
      * rewrite Hrs. set_solver_local.
      * by rewrite Hrs.
      * intros y Hy. destruct (Hsucc y Hy) as [[-> |Hin]%elem_of_cons|Hfin];
          [by right|by left|right; by apply Hmono].
      * lia.
      * rewrite H2, Hrs. split_and!; try done. set_solver_local.
    + destruct (decide (d ∈ d_rec_stack st)) as [Hin|Hnin].
      * intros [= <-]. simpl. rewrite length_app. simpl. lia.
      * apply IH; try done. intros y Hy.
        destruct (Hsucc y Hy) as [[-> |Hyin]%elem_of_cons|Hfin]; [|by left|by right].
        right. unfold finished. apply dec_stable in Hv. set_solver_local.
Qed.

Lemma finished_enter fid st :
  fid ∉ d_visited st -> finished (dfs_enter fid st) = finished st.
Proof. intros Hv. unfold finished, dfs_enter. simpl. set_solver_local. Qed.

Lemma dfs_complete fm gas : forall fid st r,
  fid ∉ d_visited st -> d_rec_stack st ⊆ d_visited st ->
  finished_ok fm st -> dfs gas fm fid st = Done r ->
  length (d_cycles r.2) = length (d_cycles st) ->
  r.1 = false ∧ d_rec_stack r.2 = d_rec_stack st ∧ finished_ok fm r.2
  ∧ fid ∈ finished r.2 ∧ d_visited st ⊆ d_visited r.2.
Proof.
  induction gas as [|gas IH]; intros fid st r Hnv Hsub Hok; [done|].
  cbn [dfs].
  assert (Hok1 : finished_ok fm (dfs_enter fid st)).
  { intros x. rewrite finished_enter by done. apply Hok. }
  destruct (fm !! fid) as [feature|] eqn:Ef.
  - intros Hrun Heq.
    destruct (dfs_deps_complete fm (dfs gas fm) fid (deps_of feature)
                (dfs_enter fid st) r) as (H1 & H2 & H3 & H4 & H5); try done.
    + intros d st' r'. apply dfs_cycles_grow.
    + simpl. set_solver_local.
    + simpl. set_solver_local.
    + intros y (f & Hf & Hy). rewrite Ef in Hf. injection Hf as <-. by left.
    + simpl in *. split_and!; try done; set_solver_local.
  - intros [= <-] _. simpl. split; [done|].
    split; [set_solver_local|]. split; [|split; [|set_solver_local]].
    + apply finished_ok_leave; [simpl; set_solver_local..|done|].
      intros y (f & Hf & _). by rewrite Ef in Hf.
    + rewrite finished_leave by (simpl; set_solver_local). set_solver_local.
Qed.

Lemma detect_roots_complete fm gas fs : forall st st',
  d_rec_stack st = ∅ -> finished_ok fm st ->
  detect_roots gas fm fs st = Done st' ->
  length (d_cycles st') = length (d_cycles st) ->
  d_rec_stack st' = ∅ ∧ finished_ok fm st'
  ∧ d_visited st ⊆ d_visited st' ∧ forall f, f ∈ fs -> id f ∈ d_visited st'.
Proof.
  induction fs as [|f fs IH]; intros st st' Hrs Hok; simpl.
  - intros [= <-] _. split_and!; try done. by intros f ?%elem_of_nil.
  - destruct (decide (id f ∉ d_visited st)) as [Hnv|Hv].
    + destruct (dfs gas fm (id f) st) as [r| |] eqn:E; [|done..]. simpl.
      intros Hrun Heq.
      pose proof (dfs_cycles_grow _ _ _ _ _ E) as [Hle _].
      pose proof (detect_roots_cycles_grow _ _ _ _ _ Hrun) as Hle'.
      apply dfs_complete in E as (_ & H2 & H3 & H4 & H5); try done; [|set_solver_local|lia].
      destruct (IH r.2 st') as (I1 & I2 & I3 & I4); try done; [by rewrite H2|lia|].
      split_and!; try done; [set_solver_local|].
      intros g [-> |Hg]%elem_of_cons; [|by apply I4].
      apply I3. unfold finished in H4. set_solver_local.
    + intros Hrun Heq. destruct (IH st st') as (I1 & I2 & I3 & I4); try done.
      split_and!; try done.
      intros g [-> |Hg]%elem_of_cons; [|by apply I4].
      apply I3. by apply dec_stable in Hv.
Qed.

Lemma detect_cycles_gas_total stack features :
  (length features < stack)%nat ->
  exists cycles, detect_cycles_gas stack features = Done cycles.
Proof.
  intros Hst. unfold detect_cycles_gas.
  destruct (detect_roots_total (feature_map_of features) stack features
              {| d_visited := ∅; d_rec_stack := ∅; d_path := []; d_cycles := [] |})
    as [st' ->].
  - rewrite feature_map_of_dom.
    pose proof (size_list_to_set (id <$> features)). rewrite length_fmap in *. lia.
  - by eexists.
Qed.

Lemma detect_cycles_gas_spec stack features cycles :
  detect_cycles_gas stack features = Done cycles ->
  cycles = [] <-> acyclic features.
Proof.
  intros Hc. unfold detect_cycles_gas in Hc.
  destruct (detect_roots _ _ _ _) as [st'| |] eqn:E; [|done..].
  simpl in Hc. injection Hc as <-. split.
  - intros Hnil x Hx.
    apply detect_roots_complete in E as (Hrs & Hok & _ & Hall); [|done| |by rewrite Hnil].
    2:{ intros y Hy. unfold finished in Hy. simpl in Hy. set_solver. }
    assert (x ∈ finished st') as Hfin.
    { apply tc_first in Hx as (y & (f & Hf & _) & _).
      apply feature_map_of_lookup in Hf as [Hf <-].
      unfold finished. rewrite Hrs. specialize (Hall f Hf). set_solver. }
    by apply (Hok x Hfin).
  - intros Hacyc. by apply detect_roots_acyclic in E.
Qed.

(** X23: where the call stack has room for more nested calls than the
    snapshot has features, [_detect_cycles] returns; and whenever it
    returns, on a stack of any depth, the list it returns is empty exactly
    when no feature of the snapshot depends on itself through a chain of
    dependencies. *)
Theorem detect_cycles_iff_cyclic (stack : nat) features :
  ((length features < stack)%nat ->
   exists cycles, detect_cycles_gas stack features = Done cycles)
  ∧ (forall cycles,
       detect_cycles_gas stack features = Done cycles ->
       cycles = [] <-> acyclic features).
Proof.
  split; [apply detect_cycles_gas_total|apply detect_cycles_gas_spec].
Qed.

(** ** [resolve_dependencies] reports a cycle exactly when there is one *)

Lemma sn_no_cycle {A} (R : relation A) x : sn R x -> ¬ tc R x x.
Proof.
  induction 1 as [x _ IH]. intros Hx.
  pose proof Hx as Hx'. apply tc_first in Hx' as (y & Hxy & Hyx).
  apply (IH y Hxy). eapply tc_rtc_l; [exact Hyx|]. by apply tc_once.
Qed.

Lemma ordered_prefix_sn features sorted :
  NoDup (id <$> features) ->
  (forall f, f ∈ sorted -> f ∈ features) ->
  greedy features sorted ->
  forall pre post, sorted = pre ++ post ->
    forall f, f ∈ pre -> sn (dep_edge (feature_map_of features)) (id f).
Proof.
  intros Hnd Hsub Hgreedy pre.
  induction pre as [|c pre IH] using rev_ind; intros post Heq f Hf.
  { by apply elem_of_nil in Hf. }
  rewrite <- app_assoc in Heq. simpl in Heq.
  apply elem_of_app in Hf as [Hf|Hf%list_elem_of_singleton].
  { by apply (IH (c :: post)). }
  subst f. destruct (Hgreedy pre c post Heq) as [Hun _].
  constructor. intros y (g & Hg & Hy). simpl in *.
  assert (c ∈ features) as Hc.
  { apply Hsub. rewrite Heq. apply elem_of_app. right. apply list_elem_of_here. }
  rewrite (feature_map_of_NoDup features c Hnd Hc) in Hg. injection Hg as <-.
  destruct (decide (y ∈ id <$> features)) as [Hin|Hout].
  - pose proof (proj1 (unprocessed_deps_nil _ _ _) Hun y Hy Hin) as Hpre.
    apply list_elem_of_fmap in Hpre as (g & -> & Hg).
    by apply (IH (c :: post)).
  - constructor. intros z (g & Hg & _). simpl in *.
    apply feature_map_of_lookup in Hg as [Hg <-].
    destruct Hout. apply list_elem_of_fmap. by exists g.
Qed.

Lemma residual_cyclic features sorted :
  NoDup (id <$> features) ->
  (forall f, f ∈ features -> f ∉ sorted -> unprocessed_deps features sorted f ≠ []) ->
  residual features sorted ≠ [] ->
  ¬ acyclic (residual features sorted).
Proof.
  intros Hnd Hres Hne Hacyc.
  assert (Hndr : NoDup (id <$> residual features sorted)).
  { unfold residual. eapply sublist_NoDup; [exact Hnd|].
    apply fmap_sublist, sublist_filter. }
  assert (Hsn : forall x, sn (dep_edge (feature_map_of (residual features sorted))) x).
  { intros x. apply tc_finite_sn; [exact Hacyc|].
    exists (residual features sorted ≫= deps_of). intros y. apply dep_edge_target. }
  assert (Hall : forall x, sn (dep_edge (feature_map_of (residual features sorted))) x ->
            forall f, f ∈ residual features sorted -> id f = x -> False).
  { intros x Hx. induction Hx as [x _ IH]. intros f Hf Hid.
    pose proof Hf as Hf'. apply list_elem_of_filter in Hf' as [Hnot Hin].
    specialize (Hres f Hin Hnot).
    destruct (unprocessed_deps features sorted f) as [|d k] eqn:E; [done|].
    assert (d ∈ unprocessed_deps features sorted f) as Hd
      by (rewrite E; apply list_elem_of_here).
    apply list_elem_of_filter in Hd as [[Hdin Hn] Hd].
    apply list_elem_of_fmap in Hdin as (g & -> & Hg).
    apply (IH (id g)) with g; [| |done].
    - exists f. split; [|done]. rewrite <- Hid. by apply feature_map_of_NoDup.
    - apply list_elem_of_filter. split; [|done].
      intros Hgs. apply Hn. apply list_elem_of_fmap. by exists g. }
  destruct (residual features sorted) as [|f k] eqn:E; [done|].
  apply (Hall (id f) (Hsn _) f); [apply list_elem_of_here|done].
Qed.

Lemma resolve_dependencies_gas_spec stack features :
  NoDup (id <$> features) ->
  exists sorted,
    (forall f, f ∈ sorted -> f ∈ features)
    ∧ NoDup (id <$> sorted)
    ∧ greedy features sorted
    ∧ (forall f, f ∈ features -> f ∉ sorted -> unprocessed_deps features sorted f ≠ [])
    ∧ resolve_dependencies_gas stack features
      = if decide (residual features sorted = []) then
          Done {| ordered_features := sorted;
                  circular_dependencies := [];
                  blocked_features := g_blocked (build_graph features);
                  missing_dependencies := g_missing (build_graph features) |}
        else
          cycles ← detect_cycles_gas stack (residual features sorted);
          mret {| ordered_features := sorted ++ residual features sorted;
                  circular_dependencies := cycles;
                  blocked_features := g_blocked (build_graph features);
                  missing_dependencies := g_missing (build_graph features) |}.
Proof.
  intros Hnd. destruct (build_graph_spec features Hnd) as (_ & Hadj & Hids & _).
  destruct (kahn_loop_total features Hnd (g_adjacency (build_graph features)) Hadj Hids
              (length features) _ (kahn_inv_init features Hnd))
    as (st' & Hloop & Hinv & Hheap); [simpl; lia|].
  destruct Hinv as [Hsub Hnodup Hdeg Hzero Hgreedy]. rewrite Hheap, app_nil_r in *.
  assert (Hres : forall f, f ∈ features -> f ∉ k_ordered st' ->
            unprocessed_deps features (k_ordered st') f ≠ []).
  { intros f Hf Hnot Hun. apply Hnot, (Hzero f Hf). by rewrite (Hdeg f Hf), Hun. }
  assert (Hrem : filter (fun f => includes (k_ordered st') f = false) features
                 = residual features (k_ordered st')).
  { apply list_filter_iff. intros f. unfold includes.
    by rewrite bool_decide_eq_false. }
  pose proof (sorted_residual_perm features (k_ordered st') Hnd Hnodup Hsub) as Hperm.
  apply Permutation_length in Hperm. rewrite length_app in Hperm.
  exists (k_ordered st'). split_and!; try done.
  unfold resolve_dependencies_gas. rewrite Hloop. cbn [mbind outcome_bind].
  rewrite Hrem.
  destruct (Z.ltb_spec (Z.of_nat (length (k_ordered st'))) (Z.of_nat (length features)))
    as [Hlt|Hge].
  - rewrite decide_False; [done|].
    intros Hnil. rewrite Hnil in Hperm. simpl in Hperm. lia.
  - rewrite decide_True; [done|].
    destruct (residual features (k_ordered st')); [done|]. simpl in Hperm. lia.
Qed.

Lemma ordered_all_acyclic features sorted :
  NoDup (id <$> features) ->
  (forall f, f ∈ sorted -> f ∈ features) ->
  greedy features sorted ->
  residual features sorted = [] ->
  acyclic features.
Proof.
  intros Hnd Hsub Hgreedy Hrnil x. apply sn_no_cycle.
  destruct (decide (x ∈ id <$> features)) as [Hin|Hout].
  - apply list_elem_of_fmap in Hin as (f & -> & Hf).
    apply (ordered_prefix_sn features sorted Hnd Hsub Hgreedy sorted []);
      [by rewrite app_nil_r|].
    destruct (decide (f ∈ sorted)) as [|Hnot]; [done|].
    assert (f ∈ residual features sorted) as Hfr by by apply list_elem_of_filter.
    rewrite Hrnil in Hfr. by apply elem_of_nil in Hfr.
  - constructor. intros z (g & Hg & _). simpl in *.
    apply feature_map_of_lookup in Hg as [Hg <-].
    destruct Hout. apply list_elem_of_fmap. by exists g.
Qed.

Lemma residual_length features sorted :
  (length (residual features sorted) <= length features)%nat.
Proof. apply length_filter. Qed.

(** X24: on a snapshot with unique ids, [resolve_dependencies] returns
    where the snapshot has no dependency cycle or the call stack has room
    for more nested calls than the snapshot has features; and whenever it
    returns, on a stack of any depth, it reports circular dependencies
    exactly when some feature depends on itself through a chain of
    dependencies. *)
Theorem resolve_reports_cycles_iff_cyclic (stack : nat) features :
  NoDup (id <$> features) ->
  ((acyclic features ∨ (length features < stack)%nat) ->
   exists r, resolve_dependencies_gas stack features = Done r)
  ∧ (forall r,
       resolve_dependencies_gas stack features = Done r ->
       circular_dependencies r = [] <-> acyclic features).
Proof.
  intros Hnd.
  destruct (resolve_dependencies_gas_spec stack features Hnd)
    as (sorted & Hsub & Hns & Hgreedy & Hres & Hrun).
  rewrite Hrun. clear Hrun.
  destruct (decide (residual features sorted = [])) as [Hrnil|Hne].
  - pose proof (ordered_all_acyclic features sorted Hnd Hsub Hgreedy Hrnil) as Hacyc.
    split; [by eexists|]. by intros r [= <-].
  - assert (Hcyc : ¬ acyclic features).
    { intros Hacyc. apply Hne. by apply residual_empty. }
    split.
    + intros [Hacyc|Hst]; [done|].
      destruct (detect_cycles_gas_total stack (residual features sorted))
        as [cycles ->]; [|by eexists].
      pose proof (residual_length features sorted). lia.
    + intros r Hr.
      destruct (detect_cycles_gas stack (residual features sorted))
        as [cycles| |] eqn:Hc; [|done..].
      cbn [mbind outcome_bind mret outcome_ret] in Hr. injection Hr as <-.
      cbn [circular_dependencies]. split; [|done].
      intros ->. destruct (residual_cyclic features sorted Hnd Hres Hne).
      by apply (detect_cycles_gas_spec stack (residual features sorted) []).
Qed.

Lemma resolve_reports_cycles_iff_cyclic_witness :
  NoDup (id <$> cyclic_snapshot)
  ∧ exists r,
      resolve_dependencies_gas 5 cyclic_snapshot = Done r
      ∧ circular_dependencies r ≠ []
      ∧ ¬ acyclic cyclic_snapshot.
Proof.
  assert (NoDup (id <$> cyclic_snapshot)) as Hnd.
  { apply (bool_decide_unpack (NoDup _)). vm_compute. exact I. }
  split; [exact Hnd|].
  destruct (resolve_reports_cycles_iff_cyclic 5 cyclic_snapshot Hnd) as [Hret Hiff].
  destruct Hret as [r Hr]; [right; simpl; lia|].
  exists r. split; [exact Hr|].
  assert (circular_dependencies r ≠ []) as Hc.
  { assert (resolve_dependencies_gas 5 cyclic_snapshot
            = Done {| ordered_features := ordered_features r;
                      circular_dependencies := [[1; 2; 3]];
                      blocked_features := blocked_features r;
                      missing_dependencies := missing_dependencies r |}) as E.
    { rewrite Hr. vm_compute in Hr. injection Hr as <-. reflexivity. }
    rewrite Hr in E. injection E as E. by rewrite E. }
  split; [exact Hc|].
  intros Hacyc. apply Hc. by apply (Hiff r Hr).
Defined.

(** ** The cycle search and the call stack *)

Lemma chain_ids n : 1 <= n -> id <$> chain_snapshot n = seqZ 1 n.
Proof.
  intros Hn. unfold chain_snapshot. rewrite fmap_app, <- list_fmap_compose. simpl.
  replace (seqZ 1 n) with (seqZ 1 (n - 1) ++ seqZ (1 + (n - 1)) 1)
    by (rewrite <- seqZ_app by lia; f_equal; lia).
  f_equal; [by rewrite <- list_fmap_id; apply list_fmap_ext|].
  replace (1 + (n - 1)) with n by lia. reflexivity.
Qed.

Lemma ring_ids n : 1 <= n -> id <$> ring_snapshot n = seqZ 1 n.
Proof.
  intros Hn. unfold ring_snapshot. rewrite fmap_app, <- list_fmap_compose. simpl.
  replace (seqZ 1 n) with (seqZ 1 (n - 1) ++ seqZ (1 + (n - 1)) 1)
    by (rewrite <- seqZ_app by lia; f_equal; lia).
  f_equal; [by rewrite <- list_fmap_id; apply list_fmap_ext|].
  replace (1 + (n - 1)) with n by lia. reflexivity.
Qed.

Lemma chain_lookup n k :
  1 <= k < n ->
  exists f, feature_map_of (chain_snapshot n) !! k = Some f ∧ deps_of f = [k + 1].
Proof.
  intros Hk. exists (new_Feature k k false false (Some [k + 1])). split; [|done].
  apply (feature_map_of_NoDup (chain_snapshot n)
           (new_Feature k k false false (Some [k + 1]))).
  - rewrite chain_ids by lia. apply NoDup_seqZ.
  - apply elem_of_app. left. apply list_elem_of_fmap. exists k. split; [done|].
    apply elem_of_seqZ. lia.
Qed.

Lemma ring_lookup n k :
  1 <= k < n ->
  exists f, feature_map_of (ring_snapshot n) !! k = Some f ∧ deps_of f = [k + 1].
Proof.
  intros Hk. exists (new_Feature k k false false (Some [k + 1])). split; [|done].
  apply (feature_map_of_NoDup (ring_snapshot n)
           (new_Feature k k false false (Some [k + 1]))).
  - rewrite ring_ids by lia. apply NoDup_seqZ.
  - apply elem_of_app. left. apply list_elem_of_fmap. exists k. split; [done|].
    apply elem_of_seqZ. lia.
Qed.

(** On a map that chains the ids [k], [k + 1], ... up to [n], the search
    entered at [k] nests one call per id of the chain. *)
Lemma dfs_overflow fm n :
  (forall k, 1 <= k < n -> exists f, fm !! k = Some f ∧ deps_of f = [k + 1]) ->
  forall gas k st,
    1 <= k -> Z.of_nat gas <= n - k ->
    (forall j, k < j -> j ∉ d_visited st) ->
    dfs gas fm k st = OutOfGas.
Proof.
  intros Hfm. induction gas as [|gas IH]; intros k st Hk Hg Hv; [done|].
  cbn [dfs]. destruct (Hfm k ltac:(lia)) as (f & -> & ->).
  cbn [dfs_deps]. rewrite decide_True.
  - rewrite IH; [done|lia|lia|].
    intros j Hj. unfold dfs_enter. simpl.
    intros [?%elem_of_singleton|?]%elem_of_union; [lia|]. by apply (Hv j ltac:(lia)).
  - unfold dfs_enter. simpl.
    intros [?%elem_of_singleton|?]%elem_of_union; [lia|]. by apply (Hv (k + 1) ltac:(lia)).
Qed.

Lemma detect_cycles_gas_overflow (stack : nat) features f rest :
  features = f :: rest -> id f = 1 ->
  (forall k, 1 <= k < Z.of_nat stack + 1 ->
     exists g, feature_map_of features !! k = Some g ∧ deps_of g = [k + 1]) ->
  detect_cycles_gas stack features = OutOfGas.
Proof.
  intros Hl Hid Hfm. unfold detect_cycles_gas. rewrite Hl at 2. cbn [detect_roots].
  rewrite decide_True by (simpl; set_solver). rewrite Hid.
  rewrite (dfs_overflow _ (Z.of_nat stack + 1) Hfm); [done|lia|lia|].
  intros j _. simpl. set_solver.
Qed.

Lemma chain_head n :
  1 <= n -> exists f rest, chain_snapshot n = f :: rest ∧ id f = 1.
Proof.
  intros Hn. unfold chain_snapshot.
  destruct (decide (n = 1)) as [-> |Hne]; [by eexists _, _|].
  rewrite (seqZ_cons 1 (n - 1)) by lia. by eexists _, _.
Qed.

Lemma ring_head n :
  1 <= n -> exists f rest, ring_snapshot n = f :: rest ∧ id f = 1.
Proof.
  intros Hn. unfold ring_snapshot.
  destruct (decide (n = 1)) as [-> |Hne]; [by eexists _, _|].
  rewrite (seqZ_cons 1 (n - 1)) by lia. by eexists _, _.
Qed.

Lemma ring_unprocessed n f :
  1 <= n -> f ∈ ring_snapshot n -> unprocessed_deps (ring_snapshot n) [] f ≠ [].
Proof.
  intros Hn Hf Hun.
  assert (exists d, d ∈ deps_of f ∧ 1 <= d <= n) as (d & Hd & Hdn).
  { unfold ring_snapshot in Hf.
    apply elem_of_app in Hf as [Hf|Hf%list_elem_of_singleton].
    - apply list_elem_of_fmap in Hf as (k & -> & Hk%elem_of_seqZ).
      exists (k + 1). split; [apply list_elem_of_here|lia].
    - subst f. exists 1. split; [apply list_elem_of_here|lia]. }
  assert (d ∈ id <$> ring_snapshot n) as Hin.
  { rewrite ring_ids by done. apply elem_of_seqZ. lia. }
  apply (proj1 (unprocessed_deps_nil _ _ _) Hun d Hd) in Hin.
  simpl in Hin. by apply elem_of_nil in Hin.
Qed.

Lemma residual_nil features : residual features [] = features.
Proof.
  unfold residual. induction features as [|f l IH]; [done|].
  rewrite filter_cons_True by apply not_elem_of_nil. by rewrite IH.
Qed.

(** C1: [resolve_dependencies] does not return on every snapshot with
    unique ids. However many nested calls the call stack has room for, on
    the ring of one feature more, each depending on the next, the search
    of [_detect_cycles] exhausts it and the engine raises a [RangeError].
    Whenever the call returns, [ordered_features] is a rearrangement of
    the snapshot, the features the heap loop could not order last in
    snapshot order; and it does return where the stack has room for more
    nested calls than the snapshot has features. *)
Theorem resolve_dependencies_exhausts_stack :
  (forall stack : nat,
     let features := ring_snapshot (Z.of_nat stack + 1) in
     NoDup (id <$> features)
     ∧ length features = S stack
     ∧ resolve_dependencies_gas stack features = OutOfGas)
  ∧ (forall (stack : nat) features r,
       NoDup (id <$> features) ->
       resolve_dependencies_gas stack features = Done r ->
       ordered_features r ≡ₚ features
       ∧ exists sorted, ordered_features r = sorted ++ residual features sorted)
  ∧ (forall (stack : nat) features,
       NoDup (id <$> features) ->
       (length features < stack)%nat ->
       exists r, resolve_dependencies_gas stack features = Done r).
Proof.
  split; [|split].
  - intros stack features.
    assert (Hn : 1 <= Z.of_nat stack + 1) by lia.
    assert (Hnd : NoDup (id <$> features)).
    { unfold features. rewrite ring_ids by done. apply NoDup_seqZ. }
    split; [done|]. split.
    { rewrite <- (length_fmap id). unfold features. rewrite ring_ids by done.
      rewrite length_seqZ. lia. }
    destruct (resolve_dependencies_gas_spec stack features Hnd)
      as (sorted & Hsub & _ & Hgreedy & _ & ->).
    assert (sorted = []) as ->.
    { destruct sorted as [|c post]; [done|].
      destruct (Hgreedy [] c post eq_refl) as [Hun _].
      destruct (ring_unprocessed _ c Hn); [|done].
      apply Hsub, list_elem_of_here. }
    rewrite residual_nil.
    destruct (ring_head _ Hn) as (f & rest & Hl & Hid). fold features in Hl.
    rewrite decide_False by by rewrite Hl.
    rewrite (detect_cycles_gas_overflow stack features f rest Hl Hid); [done|].
    intros k Hk. by apply ring_lookup.
  - intros stack features r Hnd.
    destruct (resolve_dependencies_gas_spec stack features Hnd)
      as (sorted & Hsub & Hns & _ & _ & ->).
    pose proof (sorted_residual_perm features sorted Hnd Hns Hsub) as Hperm.
    destruct (decide (residual features sorted = [])) as [Hrnil|Hne].
    + intros [= <-]. cbn [ordered_features].
      rewrite Hrnil, app_nil_r in Hperm. split; [done|].
      exists sorted. by rewrite Hrnil, app_nil_r.
    + destruct (detect_cycles_gas stack (residual features sorted)) as [cycles| |];
        [|done..].
      intros [= <-]. cbn [ordered_features]. split; [done|]. by exists sorted.
  - intros stack features Hnd Hst.
    destruct (resolve_dependencies_gas_spec stack features Hnd)
      as (sorted & _ & _ & _ & _ & ->).
    destruct (decide (residual features sorted = [])); [by eexists|].
    destruct (detect_cycles_gas_total stack (residual features sorted))
      as [cycles ->]; [|by eexists].
    pose proof (residual_length features sorted). lia.
Qed.

(** C5: the search of [_detect_cycles] has no depth cap. On the acyclic
    chain of 60 features it goes below depth [MAX_DEPENDENCY_DEPTH] and
    reports no cycle; and however many nested calls the call stack has
    room for, on the acyclic chain of one feature more the search
    exhausts it: the engine raises a [RangeError] where the claim
    promises the fail-safe answer. *)
Theorem detect_cycles_has_no_depth_cap :
  detect_cycles_gas can_reach_gas (chain_snapshot 60) = OutOfGas
  ∧ _detect_cycles (chain_snapshot 60) = Done []
  ∧ forall stack : nat,
      detect_cycles_gas stack (chain_snapshot (Z.of_nat stack + 1)) = OutOfGas.
Proof.
  split; [vm_compute; reflexivity|]. split; [vm_compute; reflexivity|].
  intros stack.
  assert (Hn : 1 <= Z.of_nat stack + 1) by lia.
  destruct (chain_head _ Hn) as (f & rest & Hl & Hid).
  apply (detect_cycles_gas_overflow stack _ f rest Hl Hid).
  intros k Hk. by apply chain_lookup.
Qed.
